(** * tlock: time lock encryption over a drand beacon

    A shallow embedding of the package [tlock] (the streaming encryption
    and decryption pipeline, [decryptDEK] and [CalculateEncryptionID]) and
    the properties its specification states about it.

    The package talks to its collaborators through Go interfaces
    ([Network], [Encoder], [Decoder], [Encrypter], [Decrypter]) and through
    the packages [crypto/rand], [ibe], [bls] and [chain].  The interfaces
    are records of functions here, the packages one record [Library]; a
    run returns, next to its result and final state, the list of calls it
    made on them, in order. *)

From Stdlib Require Import String Init.Byte Strings.Byte.
From Stdlib Require Import ZArith List Bool Lia Arith.
Import ListNotations.

Local Open Scope Z_scope.

(** ** Bytes and unsigned 64-bit integers *)

Definition bytes := list byte.

(** [uint64] values are integers in [0, 2^64). *)
Definition uint64 := Z.
Definition is_uint64 (r : Z) : Prop := 0 <= r < 2 ^ 64.

(** The byte of the low 8 bits of [z] (Go's [byte(z)] conversion). *)
Definition byte_of_Z (z : Z) : byte :=
  match Byte.of_N (Z.to_N (z mod 256)) with
  | Some b => b
  | None => x00
  end.

Definition Z_of_byte (b : byte) : Z := Z.of_N (Byte.to_N b).

(** The value a sequence of bytes denotes, most significant byte first. *)
Definition big_endian_value (bs : bytes) : Z :=
  fold_left (fun acc b => acc * 256 + Z_of_byte b) bs 0.

(** ** crypto/sha256 (FIPS 180-4) *)

Module SHA256.

Definition w32 (x : Z) : Z := x mod 2 ^ 32.
Definition add32 (x y : Z) : Z := w32 (x + y).
Definition rotr (n x : Z) : Z :=
  Z.lor (Z.shiftr x n) (w32 (Z.shiftl x (32 - n))).
Definition not32 (x : Z) : Z := Z.lxor x (2 ^ 32 - 1).

Definition Ch (x y z : Z) := Z.lxor (Z.land x y) (Z.land (not32 x) z).
Definition Maj (x y z : Z) :=
  Z.lxor (Z.lxor (Z.land x y) (Z.land x z)) (Z.land y z).
Definition bsig0 x := Z.lxor (Z.lxor (rotr 2 x) (rotr 13 x)) (rotr 22 x).
Definition bsig1 x := Z.lxor (Z.lxor (rotr 6 x) (rotr 11 x)) (rotr 25 x).
Definition ssig0 x := Z.lxor (Z.lxor (rotr 7 x) (rotr 18 x)) (Z.shiftr x 3).
Definition ssig1 x := Z.lxor (Z.lxor (rotr 17 x) (rotr 19 x)) (Z.shiftr x 10).

(** Round constants: the first 32 bits of the fractional parts of the cube
    roots of the first 64 primes. *)
Definition K : list Z :=
[ 1116352408; 1899447441; 3049323471; 3921009573; 961987163; 1508970993;
  2453635748; 2870763221; 3624381080; 310598401; 607225278; 1426881987;
  1925078388; 2162078206; 2614888103; 3248222580; 3835390401; 4022224774;
  264347078; 604807628; 770255983; 1249150122; 1555081692; 1996064986;
  2554220882; 2821834349; 2952996808; 3210313671; 3336571891; 3584528711;
  113926993; 338241895; 666307205; 773529912; 1294757372; 1396182291;
  1695183700; 1986661051; 2177026350; 2456956037; 2730485921; 2820302411;
  3259730800; 3345764771; 3516065817; 3600352804; 4094571909; 275423344;
  430227734; 506948616; 659060556; 883997877; 958139571; 1322822218;
  1537002063; 1747873779; 1955562222; 2024104815; 2227730452; 2361852424;
  2428436474; 2756734187; 3204031479; 3329325298 ].

(** The eight working words. *)
Record digest := Digest {
  h0 : Z; h1 : Z; h2 : Z; h3 : Z; h4 : Z; h5 : Z; h6 : Z; h7 : Z }.

Definition init : digest :=
  Digest 1779033703 3144134277 1013904242 2773480762
         1359893119 2600822924 528734635 1541459225.

(** Padding: a 1 bit, zeros up to 56 mod 64 bytes, the bit length on 8
    bytes. *)
Definition be_bytes (n : nat) (x : Z) : bytes :=
  map (fun i => byte_of_Z (Z.shiftr x (8 * Z.of_nat i))) (rev (seq 0 n)).

Definition pad (msg : bytes) : bytes :=
  let len := Z.of_nat (length msg) in
  msg ++ [x80] ++ repeat x00 (Z.to_nat ((55 - len) mod 64))
      ++ be_bytes 8 (8 * len).

(** Big-endian 32-bit words of a block. *)
Fixpoint words (bs : bytes) : list Z :=
  match bs with
  | a :: b :: c :: d :: rest => big_endian_value [a; b; c; d] :: words rest
  | _ => []
  end.

(** The message schedule, latest word first: [extend n rw] adds [n] words. *)
Fixpoint extend (n : nat) (rw : list Z) : list Z :=
  match n with
  | O => rw
  | S n' =>
      let wt := add32 (add32 (ssig1 (nth 1 rw 0)) (nth 6 rw 0))
                      (add32 (ssig0 (nth 14 rw 0)) (nth 15 rw 0)) in
      extend n' (wt :: rw)
  end.

Definition schedule (block : bytes) : list Z :=
  rev (extend 48 (rev (words block))).

Definition round (d : digest) (kw : Z * Z) : digest :=
  let '(k, w) := kw in
  let t1 := add32 (add32 (add32 (h7 d) (bsig1 (h4 d)))
                         (add32 (Ch (h4 d) (h5 d) (h6 d)) k)) w in
  let t2 := add32 (bsig0 (h0 d)) (Maj (h0 d) (h1 d) (h2 d)) in
  Digest (add32 t1 t2) (h0 d) (h1 d) (h2 d)
         (add32 (h3 d) t1) (h4 d) (h5 d) (h6 d).

Definition compress (d : digest) (block : bytes) : digest :=
  let r := fold_left round (combine K (schedule block)) d in
  Digest (add32 (h0 d) (h0 r)) (add32 (h1 d) (h1 r))
         (add32 (h2 d) (h2 r)) (add32 (h3 d) (h3 r))
         (add32 (h4 d) (h4 r)) (add32 (h5 d) (h5 r))
         (add32 (h6 d) (h6 r)) (add32 (h7 d) (h7 r)).

(** [blocks n d bs] absorbs up to [n] blocks of 64 bytes. *)
Fixpoint blocks (n : nat) (d : digest) (bs : bytes) : digest :=
  match n, bs with
  | S n', _ :: _ => blocks n' (compress d (firstn 64 bs)) (skipn 64 bs)
  | _, _ => d
  end.

Definition word_bytes (x : Z) : bytes :=
  [ byte_of_Z (Z.shiftr x 24); byte_of_Z (Z.shiftr x 16);
    byte_of_Z (Z.shiftr x 8); byte_of_Z x ].

Definition output (d : digest) : bytes :=
  word_bytes (h0 d) ++ word_bytes (h1 d) ++ word_bytes (h2 d)
  ++ word_bytes (h3 d) ++ word_bytes (h4 d) ++ word_bytes (h5 d)
  ++ word_bytes (h6 d) ++ word_bytes (h7 d).

Definition Sum256 (msg : bytes) : bytes :=
  let p := pad msg in
  output (blocks (length p) init p).

End SHA256.

(** ** Errors

    Go errors are values; [fmt.Errorf] with the verb [%w] wraps a cause, and
    [errors.Is] looks for a target along the chain of causes. *)

Inductive error : Type :=
| EOF                                      (* io.EOF *)
| ErrUnexpectedEOF                         (* io.ErrUnexpectedEOF *)
| ErrTooEarly                              (* tlock.ErrTooEarly *)
| Canceled                                 (* context.Canceled *)
| DeadlineExceeded                         (* context.DeadlineExceeded *)
| errors_New (msg : string)                (* any other error value *)
| Errorf (msg : string) (cause : error).   (* fmt.Errorf(msg + ": %w", cause) *)

Fixpoint error_eqb (e1 e2 : error) : bool :=
  match e1, e2 with
  | EOF, EOF | ErrUnexpectedEOF, ErrUnexpectedEOF | ErrTooEarly, ErrTooEarly
  | Canceled, Canceled | DeadlineExceeded, DeadlineExceeded => true
  | errors_New m1, errors_New m2 => String.eqb m1 m2
  | Errorf m1 c1, Errorf m2 c2 => String.eqb m1 m2 && error_eqb c1 c2
  | _, _ => false
  end.

(** [errors.Is(err, target)] for a non-nil [err]. *)
Fixpoint errors_Is' (err target : error) : bool :=
  error_eqb err target
  || match err with
     | Errorf _ cause => errors_Is' cause target
     | _ => false
     end.

(** [errors.Is(err, target)]; [None] is the nil error. *)
Definition errors_Is (err : option error) (target : error) : bool :=
  match err with
  | None => false
  | Some e => errors_Is' e target
  end.

(** ** hash.Hash as [sha256.New] returns it

    It buffers what is written to it; [Write] never fails; [Sum] appends the
    digest of the buffered bytes to its argument. *)

Record Hash := { absorbed : bytes }.

Definition sha256_New : Hash := {| absorbed := [] |}.

Definition Hash_Write (h : Hash) (p : bytes) : (nat * option error) * Hash :=
  ((length p, None), {| absorbed := absorbed h ++ p |}).

Definition Hash_Sum (h : Hash) (b : bytes) : bytes :=
  b ++ SHA256.Sum256 (absorbed h).

(** ** chain.RoundToBytes: the round number on 8 bytes, big endian *)

Definition RoundToBytes (r : uint64) : bytes :=
  [ byte_of_Z (Z.shiftr r 56); byte_of_Z (Z.shiftr r 48);
    byte_of_Z (Z.shiftr r 40); byte_of_Z (Z.shiftr r 32);
    byte_of_Z (Z.shiftr r 24); byte_of_Z (Z.shiftr r 16);
    byte_of_Z (Z.shiftr r 8);  byte_of_Z r ].

(** ** CalculateEncryptionID *)

Definition CalculateEncryptionID (roundNumber : uint64) : bytes + error :=
  let h := sha256_New in
  let '((_, err), h) := Hash_Write h (RoundToBytes roundNumber) in
  match err with
  | Some e => inr (Errorf "sha256 write" e)
  | None => inl (Hash_Sum h [])
  end.

(** ** The data that is encoded and decoded *)

Record MetaData := {
  RoundNumber : uint64;
  ChainHash : string }.

Record CipherDEK := {
  KyberPoint : bytes;
  CipherV : bytes;
  CipherW : bytes }.

(** The fields [MetaData] and [CipherDEK] of [CipherInfo] are [CI_MetaData]
    and [CI_CipherDEK] here, their names being those of the types. *)
Record CipherInfo := {
  CI_MetaData : MetaData;
  CI_CipherDEK : CipherDEK;
  CipherData : bytes }.

Definition with_CipherData (ci : CipherInfo) (data : bytes) : CipherInfo :=
  {| CI_MetaData := CI_MetaData ci;
     CI_CipherDEK := CI_CipherDEK ci;
     CipherData := data |}.

(** ** Readers, writers and contexts *)

(** An [io.Reader] over a finite source: the bytes it still delivers and
    the error its [Read] returns once they are exhausted ([EOF] for an
    ordinary end of input). *)
Record Reader := {
  pending : bytes;
  ending : error }.

Definition bytes_Reader (p : bytes) : Reader :=
  {| pending := p; ending := EOF |}.

(** [io.ReadFull(r, buf)] with [len(buf) = n]: the bytes read and the error.
    It reads until [n] bytes are there or [Read] fails; the error is nil for
    a full buffer, [ErrUnexpectedEOF] if the input ended with [EOF] after
    some bytes, and the reader's own error otherwise. *)
Definition io_ReadFull (r : Reader) (n : nat) : (bytes * option error) * Reader :=
  if (n <=? length (pending r))%nat then
    ((firstn n (pending r), None),
     {| pending := skipn n (pending r); ending := ending r |})
  else
    let err :=
      match pending r with
      | [] => ending r
      | _ :: _ => if error_eqb (ending r) EOF then ErrUnexpectedEOF else ending r
      end in
    ((pending r, Some err), {| pending := []; ending := ending r |}).

(** An [io.Writer]: what was written to it, and, if it is to fail, after
    how many more bytes and with which error. *)
Record Writer := {
  written : bytes;
  failing : option (nat * error) }.

Definition new_Writer : Writer := {| written := []; failing := None |}.

Definition io_Write (w : Writer) (p : bytes) : (nat * option error) * Writer :=
  match failing w with
  | None => ((length p, None), {| written := written w ++ p; failing := None |})
  | Some (k, e) =>
      if (length p <=? k)%nat then
        ((length p, None),
         {| written := written w ++ p; failing := Some ((k - length p)%nat, e) |})
      else
        ((k, Some e),
         {| written := written w ++ firstn k p; failing := Some (O, e) |})
  end.

(** A [context.Context], as far as the package sees it: what [Err] returns. *)
Record context_Context := { ctx_Err : option error }.

Definition Time := Z.
Definition Duration := Z.

(** [make([]byte, n)] and the effect of a read that puts [r] into [buf]. *)
Definition make (n : nat) : bytes := repeat x00 n.
Definition fill (buf r : bytes) : bytes :=
  firstn (length buf) r ++ skipn (length r) buf.

Definition fileKeySize : nat := 32.

(** The size of the buffer [data]: [1024 * 64]. *)
Definition chunkSize : nat := 1024 * 64.

(** ** chain.Beacon, scheme.Scheme and ibe.Ciphertext *)

Record Beacon := {
  PreviousSig : bytes;
  Round : uint64;
  Signature : bytes }.

Record Scheme := {
  ID : string;
  DecouplePrevSig : bool }.

Definition UnchainedSchemeID : string := "pedersen-bls-unchained".

(** The message a beacon's signature is verified against, as the package
    [chain] of drand computes it ([Verifier.DigestMessage]): the previous
    signature goes in only when the scheme does not decouple it. *)
Definition DigestMessage (sch : Scheme) (currRound : uint64) (prevSig : bytes)
  : bytes :=
  let h := sha256_New in
  let h := if negb (DecouplePrevSig sch) then snd (Hash_Write h prevSig) else h in
  let h := snd (Hash_Write h (RoundToBytes currRound)) in
  Hash_Sum h [].

(** ** The collaborators *)

Section Interfaces.

(** [World] is whatever the collaborators depend on and change: the state
    of the beacon network, of the random source, of the cipher's nonces.
    [G1] and [G2] are the points of the two groups ([bls.KyberG1],
    [bls.KyberG2]). *)
Context {World G1 G2 : Type}.

Record Ciphertext := {
  U : G1;
  V : bytes;
  W : bytes }.

(** The interface [Network]. *)
Record Network := {
  Host : World -> string;
  net_ChainHash : World -> string;
  PublicKey : context_Context -> World -> (G1 + error) * World;
  IsReadyToDecrypt :
    context_Context -> uint64 -> World -> (bytes * bool) * World;
  net_RoundNumber :
    context_Context -> Time -> World -> (uint64 + error) * World;
  EncryptionRoundAndID :
    context_Context -> Duration -> World
    -> ((uint64 * bytes) + error) * World }.

(** The interfaces [Decoder], [Encoder], [Encrypter] and [Decrypter]. *)
Record Decoder := {
  Decode : Reader -> bool -> World
           -> ((CipherInfo * option error) * Reader) * World }.

Record Encoder := {
  Encode : Writer -> CipherInfo -> bool -> World
           -> (option error * Writer) * World }.

Record Encrypter := {
  Encrypt : bytes -> bytes -> World -> (bytes + error) * World }.

Record Decrypter := {
  Decrypt_ : bytes -> bytes -> World -> (bytes + error) * World }.

(** The packages the code calls directly: [crypto/rand], [ibe] over the
    suite [bls.NewBLS12381Suite()], the points' binary form, and
    [chain.NewVerifier(sch).VerifyBeacon]. *)
Record Library := {
  rand_Read : nat -> World -> (bytes + error) * World;
  ibe_Encrypt : G1 -> bytes -> bytes -> World -> (Ciphertext + error) * World;
  ibe_Decrypt : G1 -> G2 -> Ciphertext -> bytes + error;
  G1_MarshalBinary : G1 -> bytes + error;
  G1_UnmarshalBinary : bytes -> G1 + error;
  G2_UnmarshalBinary : bytes -> G2 + error;
  VerifyBeacon : Scheme -> Beacon -> G1 -> option error }.

(** A call on a collaborator, with its arguments and what it returned. *)
Inductive Call : Type :=
| Call_rand_Read (n : nat) (r : bytes + error)
| Call_PublicKey (ctx : context_Context) (r : G1 + error)
| Call_EncryptionRoundAndID (ctx : context_Context) (d : Duration)
                            (r : (uint64 * bytes) + error)
| Call_IsReadyToDecrypt (ctx : context_Context) (roundNumber : uint64)
                        (id : bytes) (ready : bool)
| Call_ibe_Encrypt (master : G1) (id msg : bytes) (r : Ciphertext + error)
| Call_ibe_Decrypt (master : G1) (sig : G2) (c : Ciphertext) (r : bytes + error)
| Call_G1_MarshalBinary (p : G1) (r : bytes + error)
| Call_G1_UnmarshalBinary (b : bytes) (r : G1 + error)
| Call_G2_UnmarshalBinary (b : bytes) (r : G2 + error)
| Call_VerifyBeacon (sch : Scheme) (b : Beacon) (pubkey : G1) (r : option error)
| Call_ReadFull (data : bytes) (err : option error)
| Call_Encrypt (key plainData : bytes) (r : bytes + error)
| Call_Decrypt (key cipherData : bytes) (r : bytes + error)
| Call_Encode (cipherInfo : CipherInfo) (armor : bool) (err : option error)
| Call_Decode (armor : bool) (info : CipherInfo) (err : option error)
| Call_Write (p : bytes) (err : option error).

(** ** Runs

    The state of a run: the world, the input source and the output
    destination. *)
Record State := {
  world : World;
  input : Reader;
  output : Writer }.

Definition set_world (s : State) (w : World) : State :=
  {| world := w; input := input s; output := output s |}.
Definition set_input (s : State) (r : Reader) : State :=
  {| world := world s; input := r; output := output s |}.
Definition set_output (s : State) (o : Writer) : State :=
  {| world := world s; input := input s; output := o |}.

(** How a function ends: it returns a value (with a nil error), it
    returns an error, or the fuel of its loop ran out. *)
Inductive outcome (A : Type) : Type :=
| Returned (a : A)
| Failed (e : error)
| OutOfFuel.
Arguments Returned {A} a.
Arguments Failed {A} e.
Arguments OutOfFuel {A}.

(** A computation gives its outcome, the final state, and the calls made
    on the collaborators, in order. *)
Definition M (A : Type) : Type :=
  State -> (outcome A * State) * list Call.

Definition ret {A} (a : A) : M A := fun s => ((Returned a, s), []).
Definition fail {A} (e : error) : M A := fun s => ((Failed e, s), []).
Definition out_of_fuel {A} : M A := fun s => ((OutOfFuel, s), []).

Definition bind {A B} (m : M A) (f : A -> M B) : M B :=
  fun s =>
    match m s with
    | ((Returned a, s1), t1) =>
        let '((r, s2), t2) := f a s1 in ((r, s2), t1 ++ t2)
    | ((Failed e, s1), t1) => ((Failed e, s1), t1)
    | ((OutOfFuel, s1), t1) => ((OutOfFuel, s1), t1)
    end.

(** [if err != nil { return fmt.Errorf(msg + ": %w", err) }] *)
Definition or_return {A} (msg : string) (r : A + error) : M A :=
  match r with
  | inl a => ret a
  | inr e => fail (Errorf msg e)
  end.

Definition or_return_err (msg : string) (err : option error) : M unit :=
  match err with
  | None => ret tt
  | Some e => fail (Errorf msg e)
  end.

(** The same for the error of a function of this package. *)
Definition wrapping {A} (msg : string) (m : M A) : M A :=
  fun s =>
    match m s with
    | ((Failed e, s1), t1) => ((Failed (Errorf msg e), s1), t1)
    | r => r
    end.

(** A call that only touches the world. *)
Definition call {A} (f : World -> A * World) (ev : A -> Call) : M A :=
  fun s =>
    let '(a, w) := f (world s) in
    ((Returned a, set_world s w), [ev a]).

(** A call of a function that neither reads nor changes anything. *)
Definition call_pure {A} (a : A) (ev : A -> Call) : M A :=
  fun s => ((Returned a, s), [ev a]).

End Interfaces.

Arguments Ciphertext : clear implicits.
Arguments Network : clear implicits.
Arguments Decoder : clear implicits.
Arguments Encoder : clear implicits.
Arguments Encrypter : clear implicits.
Arguments Decrypter : clear implicits.
Arguments Library : clear implicits.
Arguments Call : clear implicits.
Arguments State : clear implicits.
Arguments outcome : clear implicits.
Arguments Returned {A} a.
Arguments Failed {A} e.
Arguments OutOfFuel {A}.
Arguments M : clear implicits.

Declare Scope go_scope.
Delimit Scope go_scope with go.

Notation "x <- m ;; k" := (bind m (fun x => k))
  (at level 61, m at next level, right associativity) : go_scope.
Notation "' pat <- m ;; k" := (bind m (fun x => match x with pat => k end))
  (at level 61, pat pattern, m at next level, right associativity) : go_scope.
Notation "x <- m 'or' msg ;; k" :=
  (bind m (fun r => bind (or_return msg r) (fun x => k)))
  (at level 61, m at next level, msg at next level, right associativity)
  : go_scope.
Notation "' pat <- m 'or' msg ;; k" :=
  (bind m (fun r => bind (or_return msg r)
                         (fun x => match x with pat => k end)))
  (at level 61, pat pattern, m at next level, msg at next level,
   right associativity) : go_scope.
Notation "'check' m 'or' msg ;; k" :=
  (bind m (fun r => bind (or_return_err msg r) (fun _ => k)))
  (at level 61, m at next level, msg at next level, right associativity)
  : go_scope.

(** ** The package *)

Section Tlock.

Context {World G1 G2 : Type}.
Variable lib : Library World G1 G2.

Local Open Scope go_scope.
Local Abbreviation M := (M World G1 G2).

(** [io.ReadFull(in, data[:])]: the bytes [data[:n]] and the error. *)
Definition in_ReadFull (n : nat) : M (bytes * option error) :=
  fun s =>
    let '(r, i) := io_ReadFull (input s) n in
    ((Returned r, set_input s i), [Call_ReadFull (fst r) (snd r)]).

(** [out.Write(p)] *)
Definition out_Write (p : bytes) : M (option error) :=
  fun s =>
    let '((_, err), o) := io_Write (output s) p in
    ((Returned err, set_output s o), [Call_Write p err]).

(** [encoder.Encode(out, cipherInfo, armor)] *)
Definition do_Encode (encoder : Encoder World) (cipherInfo : CipherInfo)
           (armor : bool) : M (option error) :=
  fun s =>
    let '((err, o), w) := Encode encoder (output s) cipherInfo armor (world s) in
    ((Returned err, {| world := w; input := input s; output := o |}),
     [Call_Encode cipherInfo armor err]).

(** [decoder.Decode(in, armor)] *)
Definition do_Decode (decoder : Decoder World) (armor : bool)
  : M (CipherInfo * option error) :=
  fun s =>
    let '((r, i), w) := Decode decoder (input s) armor (world s) in
    ((Returned r, {| world := w; input := i; output := output s |}),
     [Call_Decode armor (fst r) (snd r)]).

(** The end of the loop body of [encrypt]: the chunk [data] is encrypted
    and encoded; the value is the [cipherInfo] the next iteration sees. *)
Definition encrypt_chunk (encoder : Encoder World)
           (encrypter : Encrypter World) (dek : bytes)
           (cipherInfo : CipherInfo) (armor : bool) (data : bytes)
  : M CipherInfo :=
  (* Encrypt the chunk of data. *)
  cipherData <- call (Encrypt encrypter dek data)
                     (Call_Encrypt dek data) or "encrypt data" ;;
  let cipherInfo := with_CipherData cipherInfo cipherData in
  (* Encode this chunk of data to the output destination. *)
  check do_Encode encoder cipherInfo armor or "encode" ;;
  ret cipherInfo.

(** The loop of [encrypt]; [fuel] bounds the number of reads. *)
Fixpoint encrypt_loop (fuel : nat) (encoder : Encoder World)
         (encrypter : Encrypter World) (dek : bytes)
         (cipherInfo : CipherInfo) (armor : bool) (done : bool) : M unit :=
  if done then ret tt
  else
    match fuel with
    | O => out_of_fuel
    | S fuel =>
        (* Read in a 64k chunk of data from the input source. *)
        '(data, err) <- in_ReadFull chunkSize ;;
        if errors_Is err EOF then ret tt
        else if errors_Is err ErrUnexpectedEOF then
          cipherInfo <- encrypt_chunk encoder encrypter dek cipherInfo
                                      armor data ;;
          encrypt_loop fuel encoder encrypter dek cipherInfo armor true
        else
          match err with
          | Some e => fail (Errorf "decoding input data" e)
          | None =>
              cipherInfo <- encrypt_chunk encoder encrypter dek cipherInfo
                                          armor data ;;
              encrypt_loop fuel encoder encrypter dek cipherInfo armor done
          end
    end.

(** [encrypt] *)
Definition encrypt (fuel : nat) (ctx : context_Context)
           (encoder : Encoder World) (network : Network World G1)
           (encrypter : Encrypter World) (roundNumber : uint64)
           (id : bytes) (armor : bool) : M unit :=
  (* Create the DEK for this encryption. *)
  r <- call (rand_Read lib fileKeySize) (Call_rand_Read fileKeySize)
       or "random key" ;;
  let dek := fill (make fileKeySize) r in
  publicKey <- call (PublicKey network ctx) (Call_PublicKey ctx)
               or "public key" ;;
  (* Encrypt the DEK using time lock encryption. *)
  cipherText <- call (ibe_Encrypt lib publicKey id dek)
                     (Call_ibe_Encrypt publicKey id dek) or "encrypt dek" ;;
  (* Construct the cipher information that will be written to the output
     destination. *)
  kyberPoint <- call_pure (G1_MarshalBinary lib (U cipherText))
                          (Call_G1_MarshalBinary (U cipherText))
                or "marshal kyber point" ;;
  fun s =>
    let cipherInfo :=
      {| CI_MetaData := {| RoundNumber := roundNumber;
                           ChainHash := net_ChainHash network (world s) |};
         CI_CipherDEK := {| KyberPoint := kyberPoint;
                            CipherV := V cipherText;
                            CipherW := W cipherText |};
         CipherData := [] |} in
    encrypt_loop fuel encoder encrypter dek cipherInfo armor false s.

(** [EncryptWithRound] *)
Definition EncryptWithRound (fuel : nat) (ctx : context_Context)
           (encoder : Encoder World) (network : Network World G1)
           (encrypter : Encrypter World) (roundNumber : uint64)
           (armor : bool) : M unit :=
  id <- or_return "round by number" (CalculateEncryptionID roundNumber) ;;
  encrypt fuel ctx encoder network encrypter roundNumber id armor.

(** [EncryptWithDuration] *)
Definition EncryptWithDuration (fuel : nat) (ctx : context_Context)
           (encoder : Encoder World) (network : Network World G1)
           (encrypter : Encrypter World) (duration : Duration)
           (armor : bool) : M unit :=
  '(roundNumber, id) <- call (EncryptionRoundAndID network ctx duration)
                             (Call_EncryptionRoundAndID ctx duration)
                        or "round by duration" ;;
  encrypt fuel ctx encoder network encrypter roundNumber id armor.

(** [decryptDEK] *)
Definition decryptDEK (ctx : context_Context) (cipherDEK : CipherDEK)
           (network : Network World G1) (roundNumber : uint64) : M bytes :=
  '(id, ready) <- call (IsReadyToDecrypt network ctx roundNumber)
                       (fun r => Call_IsReadyToDecrypt ctx roundNumber
                                                       (fst r) (snd r)) ;;
  if negb ready then fail ErrTooEarly
  else
    dekSignature <- call_pure (G2_UnmarshalBinary lib id)
                              (Call_G2_UnmarshalBinary id)
                    or "unmarshal kyber G2" ;;
    dekKyberPoint <- call_pure (G1_UnmarshalBinary lib (KyberPoint cipherDEK))
                               (Call_G1_UnmarshalBinary (KyberPoint cipherDEK))
                     or "unmarshal kyber G1" ;;
    publicKey <- call (PublicKey network ctx) (Call_PublicKey ctx)
                 or "public key" ;;
    let b := {| PreviousSig := []; Round := roundNumber; Signature := id |} in
    let sch := {| ID := UnchainedSchemeID; DecouplePrevSig := true |} in
    check call_pure (VerifyBeacon lib sch b publicKey)
                    (Call_VerifyBeacon sch b publicKey) or "verify beacon" ;;
    let dek := {| U := dekKyberPoint;
                  V := CipherV cipherDEK;
                  W := CipherW cipherDEK |} in
    plainDEK <- call_pure (ibe_Decrypt lib publicKey dekSignature dek)
                          (Call_ibe_Decrypt publicKey dekSignature dek)
                or "decrypt dek" ;;
    ret plainDEK.

(** The end of the loop body of [Decrypt]: what is done with a decoded
    [info]. *)
Definition Decrypt_frame (ctx : context_Context) (network : Network World G1)
           (decrypter : Decrypter World) (info : CipherInfo) : M unit :=
  (* Decrypt the dek using time lock decryption. *)
  plainDEK <- wrapping "decrypt dek"
                (decryptDEK ctx (CI_CipherDEK info) network
                            (RoundNumber (CI_MetaData info))) ;;
  (* Decrypt the chunk of data returned with the cipherInfo. *)
  plainData <- call (Decrypt_ decrypter plainDEK (CipherData info))
                    (Call_Decrypt plainDEK (CipherData info))
               or "decrypt data" ;;
  (* Write the decrypted data to the destination. *)
  check out_Write plainData or "write data" ;;
  ret tt.

(** The loop of [Decrypt]; [fuel] bounds the number of decoded frames. *)
Fixpoint Decrypt_loop (fuel : nat) (ctx : context_Context)
         (decoder : Decoder World) (network : Network World G1)
         (decrypter : Decrypter World) (armor : bool) (done : bool) : M unit :=
  if done then ret tt
  else
    match fuel with
    | O => out_of_fuel
    | S fuel =>
        (* Read and decode the next cipherInfo that exists in the input
           source. *)
        '(info, err) <- do_Decode decoder armor ;;
        if errors_Is err EOF then ret tt
        else if errors_Is err ErrUnexpectedEOF then
          _ <- Decrypt_frame ctx network decrypter info ;;
          Decrypt_loop fuel ctx decoder network decrypter armor true
        else
          match err with
          | Some e => fail (Errorf "decoding input data" e)
          | None =>
              _ <- Decrypt_frame ctx network decrypter info ;;
              Decrypt_loop fuel ctx decoder network decrypter armor done
          end
    end.

(** [Decrypt] *)
Definition Decrypt (fuel : nat) (ctx : context_Context)
           (decoder : Decoder World) (network : Network World G1)
           (decrypter : Decrypter World) (armor : bool) : M unit :=
  Decrypt_loop fuel ctx decoder network decrypter armor false.

End Tlock.



(** ** Reading the calls of a run *)

Section Calls.

Context {G1 G2 : Type}.
Implicit Types (c : Call G1 G2) (t : list (Call G1 G2)).

Definition is_rand_Read c : bool :=
  match c with Call_rand_Read _ _ => true | _ => false end.
Definition is_ibe_Encrypt c : bool :=
  match c with Call_ibe_Encrypt _ _ _ _ => true | _ => false end.
Definition is_ReadFull c : bool :=
  match c with Call_ReadFull _ _ => true | _ => false end.
Definition is_Encrypt c : bool :=
  match c with Call_Encrypt _ _ _ => true | _ => false end.
Definition is_Encode c : bool :=
  match c with Call_Encode _ _ _ => true | _ => false end.
Definition is_Write c : bool :=
  match c with Call_Write _ _ => true | _ => false end.

Definition no_Write t : bool := forallb (fun c => negb (is_Write c)) t.

(** The calls the chunk loop of [encrypt] makes. *)
Definition chunk_call c : bool := is_ReadFull c || is_Encrypt c || is_Encode c.

(** The frame the decoder returned last. *)
Fixpoint last_decoded t : option CipherInfo :=
  match t with
  | [] => None
  | c :: t' =>
      match last_decoded t' with
      | Some info => Some info
      | None =>
          match c with
          | Call_Decode _ info _ => Some info
          | _ => None
          end
      end
  end.

(** The frames handed to the encoder, and the chunks handed to the
    cipher, in order. *)
Fixpoint encoded t : list CipherInfo :=
  match t with
  | [] => []
  | Call_Encode cipherInfo _ _ :: t' => cipherInfo :: encoded t'
  | _ :: t' => encoded t'
  end.

Fixpoint encrypted t : list bytes :=
  match t with
  | [] => []
  | Call_Encrypt _ plainData _ :: t' => plainData :: encrypted t'
  | _ :: t' => encrypted t'
  end.

(** What the specification asks of the calls [t] of a session of
    [encrypt]: every frame handed to the encoder follows the read and the
    encryption of a chunk of between 1 and 65536 bytes. *)
Definition frames_of_nonempty_chunks t : Prop :=
  forall pre ci a e post,
    t = pre ++ Call_Encode ci a e :: post ->
    exists h data rerr key,
      pre = h ++ [Call_ReadFull data rerr;
                  Call_Encrypt key data (inl (CipherData ci))]
      /\ 1 <= Z.of_nat (length data) <= 65536.

(** A call on the network that failed under a cancelled context.
    [IsReadyToDecrypt] returns no error: all it can report is that the
    round is not ready. *)
Definition is_cancelled (ctx : context_Context) : bool :=
  errors_Is (ctx_Err ctx) Canceled.

Definition failed_by_cancellation c : bool :=
  match c with
  | Call_PublicKey ctx (inr _) => is_cancelled ctx
  | Call_EncryptionRoundAndID ctx _ (inr _) => is_cancelled ctx
  | Call_IsReadyToDecrypt ctx _ _ ready => is_cancelled ctx && negb ready
  | _ => false
  end.

(** What the specification asks of a run with outcome [r] and calls [t]
    about cancellation: a network call that failed under a cancelled
    context makes the session return an error that is the cancellation
    error and not [ErrTooEarly], and nothing is encoded or written after
    it. *)
Definition cancellation_surfaces {A} (r : outcome A) t : Prop :=
  forall pre c post,
    t = pre ++ c :: post ->
    failed_by_cancellation c = true ->
    (exists e, r = Failed e
               /\ errors_Is' e Canceled = true
               /\ errors_Is' e ErrTooEarly = false)
    /\ forallb (fun c' => negb (is_Encode c' || is_Write c')) post = true.

(** What a session makes of the answer of the network. *)
Definition network_answer_handled (r : outcome unit) (c : Call G1 G2)
           (post : list (Call G1 G2)) : Prop :=
  match c with
  | Call_PublicKey _ (inr e) | Call_EncryptionRoundAndID _ _ (inr e) =>
      post = []
      /\ exists e', r = Failed e'
                    /\ forall target, errors_Is' e target = true ->
                                      errors_Is' e' target = true
  | Call_IsReadyToDecrypt _ _ _ false =>
      post = [] /\ r = Failed (Errorf "decrypt dek" ErrTooEarly)
  | _ => True
  end.

End Calls.

(** ** The chunks of a plaintext

    [chunks_of n p] cuts [p] into pieces of [n] bytes, the last one
    holding what remains; the empty plaintext has no chunk. *)

Fixpoint chunks_upto (fuel n : nat) (p : bytes) : list bytes :=
  match fuel, p with
  | S fuel, _ :: _ => firstn n p :: chunks_upto fuel n (skipn n p)
  | _, _ => []
  end.

Definition chunks_of (n : nat) (p : bytes) : list bytes :=
  chunks_upto (length p) n p.

(** The least number of pieces of size [n] that cover [l] bytes. *)
Definition ceil_div (l n : Z) : Z := (l + n - 1) / n.



(** ** The iterations of the loop of [Decrypt] *)

Section Iterations.

Context {World G1 G2 : Type}.
Variable lib : Library World G1 G2.
Variables (ctx : context_Context) (network : Network World G1)
          (decrypter : Decrypter World).

Implicit Types (s : State World) (t : list (Call G1 G2)).

(** One iteration, seen from outside: the decoder returned [info] and
    [err] and left the state [s1]; [ft] are the calls made for the frame;
    [rest] are the calls of the iterations that follow; [r] and [s'] are
    the outcome and final state of the whole loop. *)
Definition iteration (r : outcome unit) s' (info : CipherInfo)
           (err : option error) s1 (ft rest : list (Call G1 G2)) : Prop :=
  (ft = [] /\ rest = [] /\ s' = s1
   /\ ((errors_Is err EOF = true /\ r = Returned tt)
       \/ (exists e, err = Some e /\ errors_Is err EOF = false
                     /\ errors_Is err ErrUnexpectedEOF = false
                     /\ r = Failed (Errorf "decoding input data" e))))
  \/ (errors_Is err EOF = false
      /\ exists rf s2,
          Decrypt_frame lib ctx network decrypter info s1 = (rf, s2, ft)
          /\ ((errors_Is err ErrUnexpectedEOF = true
               /\ rest = [] /\ r = rf /\ s' = s2)
              \/ (err = None
                  /\ ((rest = [] /\ r = rf /\ s' = s2 /\ rf <> Returned tt)
                      \/ rf = Returned tt)))).

End Iterations.

(** ** The frames of a session *)

(** The frame [ci'] carries the encryption of [data] under [dek], next to
    the metadata and the wrapped key of [cipherInfo]. *)
Definition frame_of {World : Type} (encrypter : Encrypter World) (dek : bytes)
           (cipherInfo : CipherInfo) (data : bytes) (ci' : CipherInfo) : Prop :=
  CI_MetaData ci' = CI_MetaData cipherInfo
  /\ CI_CipherDEK ci' = CI_CipherDEK cipherInfo
  /\ exists w w', Encrypt encrypter dek data w = (inl (CipherData ci'), w').


(** ** A small instance of the collaborators

    Used to run the package on concrete inputs.  The world counts the
    calls made on it; a signature is the reversed message; the cipher
    prefixes the key to the data; a frame is a flag byte for the armor, the
    round on 8 bytes, and five byte strings in which every byte follows a
    1 and a 0 ends the string. *)

Module Toy.

Definition World := nat.
Definition G1 := bytes.
Definition G2 := bytes.

Fixpoint bytes_eqb (a b : bytes) : bool :=
  match a, b with
  | [], [] => true
  | x :: a', y :: b' => Byte.eqb x y && bytes_eqb a' b'
  | _, _ => false
  end.

Definition chain_key : G1 := [x0a; x0b].
Definition sign (msg : bytes) : bytes := rev msg.
Definition unchained : Scheme :=
  {| ID := UnchainedSchemeID; DecouplePrevSig := true |}.

Definition lib : Library World G1 G2 :=
  {| rand_Read := fun n w => (inl (repeat x2a n), S w);
     ibe_Encrypt := fun master id msg w =>
       (inl {| U := master; V := msg; W := sign id |}, S w);
     ibe_Decrypt := fun master sig c =>
       if bytes_eqb sig (W c) && bytes_eqb master (U c) then inl (V c)
       else inr (errors_New "invalid proof");
     G1_MarshalBinary := fun p => inl p;
     G1_UnmarshalBinary := fun b => inl b;
     G2_UnmarshalBinary := fun b =>
       match b with
       | [] => inr (errors_New "not enough bytes")
       | _ => inl b
       end;
     VerifyBeacon := fun sch b pubkey =>
       if bytes_eqb (Signature b)
                    (sign (DigestMessage sch (Round b) (PreviousSig b)))
          && bytes_eqb pubkey chain_key
       then None
       else Some (errors_New "invalid signature") |}.

(** The network when [latest] is the last round it has signed.  A
    cancelled context makes its calls fail; [IsReadyToDecrypt] can only
    say so by reporting that the round is not ready. *)
Definition network (latest : uint64) : Network World G1 :=
  {| Host := fun _ => "toy.example"%string;
     net_ChainHash := fun _ => "toy-chain"%string;
     PublicKey := fun ctx w =>
       match ctx_Err ctx with
       | Some e => (inr e, S w)
       | None => (inl chain_key, S w)
       end;
     IsReadyToDecrypt := fun ctx roundNumber w =>
       match ctx_Err ctx with
       | Some _ => (([], false), S w)
       | None =>
           if roundNumber <=? latest
           then ((sign (DigestMessage unchained roundNumber []), true), S w)
           else (([], false), S w)
       end;
     net_RoundNumber := fun ctx t w =>
       match ctx_Err ctx with
       | Some e => (inr e, S w)
       | None => (inl (latest + t), S w)
       end;
     EncryptionRoundAndID := fun ctx d w =>
       match ctx_Err ctx with
       | Some e => (inr e, S w)
       | None =>
           match CalculateEncryptionID (latest + d) with
           | inl id => (inl (latest + d, id), S w)
           | inr e => (inr e, S w)
           end
       end |}.

Definition encrypter : Encrypter World :=
  {| Encrypt := fun key plainData w => (inl (key ++ plainData), S w) |}.

Definition decrypter : Decrypter World :=
  {| Decrypt_ := fun key cipherData w =>
       if bytes_eqb (firstn (length key) cipherData) key
       then (inl (skipn (length key) cipherData), S w)
       else (inr (errors_New "message authentication failed"), S w) |}.

Definition put_bytes (bs : bytes) : bytes :=
  flat_map (fun b => [x01; b]) bs ++ [x00].

Fixpoint get_bytes (l : bytes) : option (bytes * bytes) :=
  match l with
  | x00 :: rest => Some ([], rest)
  | x01 :: b :: rest =>
      match get_bytes rest with
      | Some (bs, rest') => Some (b :: bs, rest')
      | None => None
      end
  | _ => None
  end.

Definition flag (armor : bool) : byte := if armor then x41 else x42.

Definition wire (ci : CipherInfo) (armor : bool) : bytes :=
  flag armor
  :: RoundToBytes (RoundNumber (CI_MetaData ci))
  ++ put_bytes (list_byte_of_string (ChainHash (CI_MetaData ci)))
  ++ put_bytes (KyberPoint (CI_CipherDEK ci))
  ++ put_bytes (CipherV (CI_CipherDEK ci))
  ++ put_bytes (CipherW (CI_CipherDEK ci))
  ++ put_bytes (CipherData ci).

Definition no_info : CipherInfo :=
  {| CI_MetaData := {| RoundNumber := 0; ChainHash := EmptyString |};
     CI_CipherDEK := {| KyberPoint := []; CipherV := []; CipherW := [] |};
     CipherData := [] |}.

Definition parse (l : bytes) (armor : bool) : option (CipherInfo * bytes) :=
  match l with
  | f :: l0 =>
      if Byte.eqb f (flag armor) then
        let r := big_endian_value (firstn 8 l0) in
        match get_bytes (skipn 8 l0) with
        | Some (ch, l1) =>
          match get_bytes l1 with
          | Some (kp, l2) =>
            match get_bytes l2 with
            | Some (v, l3) =>
              match get_bytes l3 with
              | Some (w, l4) =>
                match get_bytes l4 with
                | Some (cd, l5) =>
                    Some ({| CI_MetaData :=
                               {| RoundNumber := r;
                                  ChainHash := string_of_list_byte ch |};
                             CI_CipherDEK :=
                               {| KyberPoint := kp; CipherV := v;
                                  CipherW := w |};
                             CipherData := cd |}, l5)
                | None => None
                end
              | None => None
              end
            | None => None
            end
          | None => None
          end
        | None => None
        end
      else None
  | [] => None
  end.

Definition encoder : Encoder World :=
  {| Encode := fun out cipherInfo armor w =>
       let '((_, err), out') := io_Write out (wire cipherInfo armor) in
       ((err, out'), S w) |}.

(** At the end of the input the decoder returns the reader's error; a
    frame that does not parse is an error of its own. *)
Definition decoder : Decoder World :=
  {| Decode := fun r armor w =>
       match pending r with
       | [] => (((no_info, Some (ending r)), r), S w)
       | _ =>
           match parse (pending r) armor with
           | Some (ci, rest) =>
               (((ci, None), {| pending := rest; ending := ending r |}), S w)
           | None =>
               (((no_info, Some (errors_New "malformed frame")), r), S w)
           end
       end |}.

(** A decoder that hands out the last frame of the input together with
    [ErrUnexpectedEOF]. *)
Definition last_marking_decoder : Decoder World :=
  {| Decode := fun r armor w =>
       let '(((ci, err), r'), w') := Decode decoder r armor w in
       match err, pending r' with
       | None, [] => (((ci, Some ErrUnexpectedEOF), r'), w')
       | _, _ => (((ci, err), r'), w')
       end |}.

Definition start (p : bytes) : State World :=
  {| world := O; input := bytes_Reader p; output := new_Writer |}.

Definition background : context_Context := {| ctx_Err := None |}.
Definition cancelled : context_Context := {| ctx_Err := Some Canceled |}.

Definition hello : bytes := list_byte_of_string "hello".

(** What [EncryptWithRound] writes for the plaintext [p]. *)
Definition sealed (fuel : nat) (latest roundNumber : uint64) (armor : bool)
           (p : bytes) : bytes :=
  written (output (snd (fst
    (EncryptWithRound lib fuel background encoder (network latest)
                      encrypter roundNumber armor (start p))))).

(** The network that hands out the signature of the round that follows
    the one asked for. *)
Definition confused_network (latest : uint64) : Network World G1 :=
  {| Host := Host (network latest);
     net_ChainHash := net_ChainHash (network latest);
     PublicKey := PublicKey (network latest);
     IsReadyToDecrypt := fun ctx roundNumber =>
       IsReadyToDecrypt (network latest) ctx (roundNumber + 1);
     net_RoundNumber := net_RoundNumber (network latest);
     EncryptionRoundAndID := EncryptionRoundAndID (network latest) |}.

(** A reader that fails with [ErrUnexpectedEOF] of its own once its
    bytes are delivered: a source cut short that says so. *)
Definition cut_short (p : bytes) : State World :=
  {| world := O;
     input := {| pending := p; ending := ErrUnexpectedEOF |};
     output := new_Writer |}.

(** "hello" sealed for round 1 while the network is at round 0. *)
Definition identity_1 : bytes := SHA256.Sum256 (RoundToBytes 1).

Definition sealing :=
  encrypt lib 5 background encoder (network 0) encrypter 1 identity_1 false
          (start hello).

Definition ciphertext : bytes := sealed 5 0 1 false hello.

Definition hello_frame : CipherInfo := hd no_info (encoded (snd sealing)).

(** The ciphertext opened when the network is at round [latest]. *)
Definition opening (ctx : context_Context) (latest : uint64) :=
  Decrypt lib 5 ctx decoder (network latest) decrypter false
          (start ciphertext).

Definition opening_confused :=
  Decrypt lib 5 background decoder (confused_network 5) decrypter false
          (start ciphertext).

Definition signature_1 : bytes := sign (DigestMessage unchained 1 []).

(** A session on a source that has no byte to deliver and fails with
    [ErrUnexpectedEOF]. *)
Definition sealing_cut_short :=
  encrypt lib 5 background encoder (network 0) encrypter 1 identity_1 false
          (cut_short []).

Definition empty_frame : CipherInfo :=
  hd no_info (encoded (snd sealing_cut_short)).

End Toy.

(** ** Failures, stages and counts of calls *)

Section Failures.

Context {G1 G2 : Type}.
Implicit Types (c : Call G1 G2) (t : list (Call G1 G2)).

Definition is_PublicKey c : bool :=
  match c with Call_PublicKey _ _ => true | _ => false end.
Definition is_IsReadyToDecrypt c : bool :=
  match c with Call_IsReadyToDecrypt _ _ _ _ => true | _ => false end.
Definition is_VerifyBeacon c : bool :=
  match c with Call_VerifyBeacon _ _ _ _ => true | _ => false end.
Definition is_ibe_Decrypt c : bool :=
  match c with Call_ibe_Decrypt _ _ _ _ => true | _ => false end.
Definition is_Decrypt c : bool :=
  match c with Call_Decrypt _ _ _ => true | _ => false end.

(** The calls that go to the network. *)
Definition is_network_call c : bool :=
  match c with
  | Call_PublicKey _ _ | Call_EncryptionRoundAndID _ _ _
  | Call_IsReadyToDecrypt _ _ _ _ => true
  | _ => false
  end.

(** Whether [err] is one of the two ends of input the loops go on from. *)
Definition is_end_of_input (e : error) : bool :=
  errors_Is' e EOF || errors_Is' e ErrUnexpectedEOF.

(** The error a session of [EncryptWithRound] or [EncryptWithDuration]
    returns when the call [c] came back as it did, if it returns one
    then: the error of the call behind the message of the step. *)
Definition encrypt_failure c : option error :=
  match c with
  | Call_EncryptionRoundAndID _ _ (inr e) =>
      Some (Errorf "round by duration" e)
  | Call_rand_Read _ (inr e) => Some (Errorf "random key" e)
  | Call_PublicKey _ (inr e) => Some (Errorf "public key" e)
  | Call_ibe_Encrypt _ _ _ (inr e) => Some (Errorf "encrypt dek" e)
  | Call_G1_MarshalBinary _ (inr e) => Some (Errorf "marshal kyber point" e)
  | Call_ReadFull _ (Some e) =>
      if is_end_of_input e then None
      else Some (Errorf "decoding input data" e)
  | Call_Encrypt _ _ (inr e) => Some (Errorf "encrypt data" e)
  | Call_Encode _ _ (Some e) => Some (Errorf "encode" e)
  | _ => None
  end.

(** The same for a session of [Decrypt]; what [decryptDEK] returns is
    wrapped once more. *)
Definition Decrypt_failure c : option error :=
  match c with
  | Call_Decode _ _ (Some e) =>
      if is_end_of_input e then None
      else Some (Errorf "decoding input data" e)
  | Call_IsReadyToDecrypt _ _ _ false =>
      Some (Errorf "decrypt dek" ErrTooEarly)
  | Call_G2_UnmarshalBinary _ (inr e) =>
      Some (Errorf "decrypt dek" (Errorf "unmarshal kyber G2" e))
  | Call_G1_UnmarshalBinary _ (inr e) =>
      Some (Errorf "decrypt dek" (Errorf "unmarshal kyber G1" e))
  | Call_PublicKey _ (inr e) =>
      Some (Errorf "decrypt dek" (Errorf "public key" e))
  | Call_VerifyBeacon _ _ _ (Some e) =>
      Some (Errorf "decrypt dek" (Errorf "verify beacon" e))
  | Call_ibe_Decrypt _ _ _ (inr e) =>
      Some (Errorf "decrypt dek" (Errorf "decrypt dek" e))
  | Call_Decrypt _ _ (inr e) => Some (Errorf "decrypt data" e)
  | Call_Write _ (Some e) => Some (Errorf "write data" e)
  | _ => None
  end.

(** A run with outcome [r] and calls [t] stops at the first call that
    fails, with the error [failure] gives for it, and returns no error
    otherwise. *)
Definition fails_fast (failure : Call G1 G2 -> option error)
           {A} (r : outcome A) t : Prop :=
  (forall pre c post e,
      t = pre ++ c :: post -> failure c = Some e ->
      post = [] /\ r = Failed e)
  /\ (forall e, r = Failed e ->
                exists pre c, t = pre ++ [c] /\ failure c = Some e).

(** The steps a frame goes through in [Decrypt], in the order of the
    code: the frame is decoded (0), the network is asked whether the
    round is ready (1), the signature (2) and the point of the wrapped
    key (3) are read, the public key is fetched (4), the beacon is
    verified (5), the key is unwrapped (6), the data is decrypted (7)
    and written (8). *)
Definition stage c : option nat :=
  match c with
  | Call_Decode _ _ _ => Some 0%nat
  | Call_IsReadyToDecrypt _ _ _ _ => Some 1%nat
  | Call_G2_UnmarshalBinary _ _ => Some 2%nat
  | Call_G1_UnmarshalBinary _ _ => Some 3%nat
  | Call_PublicKey _ _ => Some 4%nat
  | Call_VerifyBeacon _ _ _ _ => Some 5%nat
  | Call_ibe_Decrypt _ _ _ _ => Some 6%nat
  | Call_Decrypt _ _ _ => Some 7%nat
  | Call_Write _ _ => Some 8%nat
  | _ => None
  end.

(** The call went well, so that the step after it is taken: a decoder
    that reports the end of the input ([EOF]) has no frame to go on
    with. *)
Definition went_well c : bool :=
  match c with
  | Call_Decode _ _ (Some e) =>
      negb (errors_Is' e EOF) && errors_Is' e ErrUnexpectedEOF
  | _ => match Decrypt_failure c with None => true | Some _ => false end
  end.

(** The plain data the cipher returned, in order. *)
Fixpoint decrypted t : list bytes :=
  match t with
  | [] => []
  | Call_Decrypt _ _ (inl plainData) :: t' => plainData :: decrypted t'
  | _ :: t' => decrypted t'
  end.

(** The frames the decoder handed out for processing: those that came
    without an error or with [ErrUnexpectedEOF]. *)
Definition is_frame c : bool :=
  match c with
  | Call_Decode _ _ None => true
  | Call_Decode _ _ (Some e) =>
      negb (errors_Is' e EOF) && errors_Is' e ErrUnexpectedEOF
  | _ => false
  end.

Definition count (f : Call G1 G2 -> bool) t : nat := length (filter f t).

End Failures.

(** ** Frames that differ in their chain hash *)

Definition with_ChainHash (h : string) (ci : CipherInfo) : CipherInfo :=
  {| CI_MetaData := {| RoundNumber := RoundNumber (CI_MetaData ci);
                       ChainHash := h |};
     CI_CipherDEK := CI_CipherDEK ci;
     CipherData := CipherData ci |}.

(** The decoder that hands out the frames of [decoder] with the chain hash
    [f] makes of them. *)
Definition rechained {World : Type} (f : CipherInfo -> string)
           (decoder : Decoder World) : Decoder World :=
  {| Decode := fun r armor w =>
       let '(((ci, err), r'), w') := Decode decoder r armor w in
       (((with_ChainHash (f ci) ci, err), r'), w') |}.

Definition rechained_call {G1 G2 : Type} (f : CipherInfo -> string)
           (c : Call G1 G2) : Call G1 G2 :=
  match c with
  | Call_Decode armor ci err => Call_Decode armor (with_ChainHash (f ci) ci) err
  | _ => c
  end.

(** ** More runs of the small instance *)

Module Runs.

(** A source that fails, once its bytes are delivered, with an error
    that wraps [EOF]. *)
Definition ends_wrapped (p : bytes) : State Toy.World :=
  {| world := O;
     input := {| pending := p; ending := Errorf "read" EOF |};
     output := new_Writer |}.

Definition sealing_ends_wrapped :=
  encrypt Toy.lib 5 Toy.background Toy.encoder (Toy.network 0)
          Toy.encrypter 1 Toy.identity_1 false (ends_wrapped Toy.hello).

(** An encoder whose destination is full. *)
Definition full_encoder : Encoder Toy.World :=
  {| Encode := fun out _ _ w =>
       ((Some (errors_New "no space left on device"), out), S w) |}.

Definition sealing_full :=
  EncryptWithRound Toy.lib 5 Toy.background full_encoder (Toy.network 0)
                   Toy.encrypter 1 false (Toy.start Toy.hello).

Definition sealing_round :=
  EncryptWithRound Toy.lib 5 Toy.background Toy.encoder (Toy.network 0)
                   Toy.encrypter 1 false (Toy.start Toy.hello).

(** "hello" sealed for the round one period after round 0. *)
Definition sealing_duration :=
  EncryptWithDuration Toy.lib 5 Toy.background Toy.encoder (Toy.network 0)
                      Toy.encrypter 1 false (Toy.start Toy.hello).

Definition ciphertext_duration : bytes :=
  written (output (snd (fst sealing_duration))).

(** The ciphertext twice: two frames of round 1. *)
Definition two_frames : bytes := Toy.ciphertext ++ Toy.ciphertext.

Definition opening_two :=
  Decrypt Toy.lib 5 Toy.background Toy.decoder (Toy.network 1)
          Toy.decrypter false (Toy.start two_frames).

(** Another chain hash for every frame, and a network of another name
    that knows the same key and the same rounds. *)
Definition other_chain (ci : CipherInfo) : string := "other-chain".

Definition other_network : Network Toy.World Toy.G1 :=
  {| Host := fun _ => "other.example"%string;
     net_ChainHash := fun _ => "other-chain"%string;
     PublicKey := PublicKey (Toy.network 1);
     IsReadyToDecrypt := IsReadyToDecrypt (Toy.network 1);
     net_RoundNumber := fun _ _ w => (inr (errors_New "no such round"), w);
     EncryptionRoundAndID :=
       fun _ _ w => (inr (errors_New "no such round"), w) |}.

End Runs.

(** ** The command [tle]

    [main] and [run] of the command, in its two versions, over the
    packages they call: [os], [flag], [log], and [commands], [http] and
    [tlock] of this repository. *)

(** [err.Error()] *)
Fixpoint err_Error (e : error) : string :=
  match e with
  | EOF => "EOF"
  | ErrUnexpectedEOF => "unexpected EOF"
  | ErrTooEarly => "too early to decrypt"
  | Canceled => "context canceled"
  | DeadlineExceeded => "context deadline exceeded"
  | errors_New msg => msg
  | Errorf msg cause => msg ++ ": " ++ err_Error cause
  end.

(** [errors.Unwrap(err)] for a non-nil [err]: the cause of an error made
    with [%w], nil otherwise. *)
Definition errors_Unwrap (e : error) : option error :=
  match e with
  | Errorf _ cause => Some cause
  | _ => None
  end.

(** [fmt.Errorf(format, ..., err)] with the verb [%v] for [err], where
    [prefix] is the text before it: an error of that text which wraps
    nothing. *)
Definition Errorf_v (prefix : string) (err : error) : error :=
  errors_New (prefix ++ err_Error err).

(** What the two versions share. *)
Module Cmd.

(** The flags of [os.OpenFile] (their values on Linux). *)
Definition O_RDONLY : Z := 0.
Definition O_RDWR : Z := 2.
Definition O_CREATE : Z := 64.
Definition O_TRUNC : Z := 512.

(** The values of [src] and [dst]. *)
Inductive Source {File : Type} := Stdin | Source_file (f : File).
Inductive Destination {File : Type} := Stdout | Destination_file (f : File).
Arguments Source : clear implicits.
Arguments Destination : clear implicits.

(** [name != "" && name != "-"] *)
Definition names_a_file (name : string) : bool :=
  negb (String.eqb name "") && negb (String.eqb name "-").

Section Events.

(** [World] is the state of the process and of all it reaches;
    [Flags] is [commands.Flags], [File] is [*os.File], [Net] what
    [http.NewNetwork] returns and [Tlock] what [tlock.New] or
    [tlock.NewDecrypter] returns. *)
Context {World Flags File Net Tlock : Type}.

(** What the process does, as seen from outside. *)
Inductive Event : Type :=
| Ev_PrintUsage
| Ev_Parse (r : Flags + error)
| Ev_Arg (i : nat) (name : string)
| Ev_OpenFile (name : string) (flag perm : Z) (r : File + error)
| Ev_Close (f : File) (r : option error)
| Ev_NewNetwork (host chain : string) (r : Net + error)
| Ev_Metadata (tl : Tlock) (dst : Destination File) (r : option error)
| Ev_Decrypt (tl : Tlock) (dst : Destination File) (src : Source File)
             (r : option error)
| Ev_Encrypt (flags : Flags) (dst : Destination File)
             (src : Source File) (network : Net) (r : option error)
| Ev_Fatal (v : option error).

(** A computation gives its value, the world it leaves, and the events
    in order. *)
Definition T (A : Type) : Type := World -> (A * World) * list Event.

Definition unit_ {A} (a : A) : T A := fun w => ((a, w), []).

Definition then_ {A B} (m : T A) (f : A -> T B) : T B :=
  fun w =>
    let '((a, w1), t1) := m w in
    let '((b, w2), t2) := f a w1 in
    ((b, w2), t1 ++ t2).

Definition step {A} (f : World -> A * World) (ev : A -> Event) : T A :=
  fun w => let '(a, w') := f w in ((a, w'), [ev a]).

Definition look {A} (f : World -> A) (ev : A -> Event) : T A :=
  fun w => ((f w, w), [ev (f w)]).

(** The deferred calls of [run], the latest first: each closes its
    file, and what [Close] returns is not looked at. *)
Fixpoint run_deferred (Close : File -> World -> option error * World)
         (deferred : list File) : T unit :=
  match deferred with
  | [] => unit_ tt
  | f :: deferred' =>
      then_ (step (Close f) (Ev_Close f))
            (fun _ => run_deferred Close deferred')
  end.

(** The files opened and the files closed, in order; the result of
    the operation that was run. *)
Fixpoint opened (t : list Event) : list File :=
  match t with
  | [] => []
  | Ev_OpenFile _ _ _ (inl f) :: t' => f :: opened t'
  | _ :: t' => opened t'
  end.

Fixpoint closed (t : list Event) : list File :=
  match t with
  | [] => []
  | Ev_Close f _ :: t' => f :: closed t'
  | _ :: t' => closed t'
  end.

Definition is_Close (c : Event) : bool :=
  match c with Ev_Close _ _ => true | _ => false end.

Definition is_Fatal (c : Event) : bool :=
  match c with Ev_Fatal _ => true | _ => false end.

Definition operation_result (c : Event) : option (option error) :=
  match c with
  | Ev_Metadata _ _ r | Ev_Decrypt _ _ _ r | Ev_Encrypt _ _ _ _ r => Some r
  | _ => None
  end.

Definition is_operation (c : Event) : bool :=
  match operation_result c with Some _ => true | None => false end.

(** [src] is the standard input when the first argument names no
    file, and else that file, opened for reading only. *)
Definition is_source (perm : Z) (t : list Event) (src : Source File)
  : Prop :=
  exists name,
    In (Ev_Arg 0 name) t
    /\ match src with
       | Stdin => names_a_file name = false
       | Source_file f =>
           names_a_file name = true
           /\ In (Ev_OpenFile name O_RDONLY perm (inl f)) t
       end.

(** [dst] is the standard output when [name], the flag [Output],
    names no file, and else that file, opened with [flag]. *)
Definition is_destination (name : string) (flag perm : Z)
           (t : list Event) (dst : Destination File) : Prop :=
  match dst with
  | Stdout => names_a_file name = false
  | Destination_file f =>
      names_a_file name = true
      /\ In (Ev_OpenFile name flag perm (inl f)) t
  end.

End Events.

Arguments Event : clear implicits.
Arguments T : clear implicits.

End Cmd.

(** *** The command as it is: [main] and [run] with the operations
    metadata, decryption and encryption *)

Module Tle.

Import Cmd.

(** The permission bits [0600]. *)
Definition perm_0600 : Z := 384.

(** [commands.Flags]: the fields [run] reads, and the others. *)
Record Flags {Others : Type} := {
  Output : string;
  Network : string;
  Chain : string;
  Metadata : bool;
  Decrypt : bool;
  others : Others }.
Arguments Flags : clear implicits.

Section Command.

Context {World Others File Net Tlock : Type}.

Record Env := {
  os_Args : World -> list string;
  flag_Arg : nat -> World -> string;
  os_OpenFile : string -> Z -> Z -> World -> (File + error) * World;
  File_Close : File -> World -> option error * World;
  log_Fatal : option error -> World -> World;
  strconv_Quote : string -> string;
  commands_PrintUsage : World -> World;
  commands_Parse : World -> (Flags Others + error) * World;
  commands_Encrypt :
    Flags Others -> Destination File -> Source File -> Net -> World
    -> option error * World;
  http_NewNetwork : string -> string -> World -> (Net + error) * World;
  http_ErrNotUnchained : error;
  tlock_New : Net -> Tlock;
  Tlock_Metadata :
    Tlock -> Destination File -> World -> option error * World;
  Tlock_Decrypt :
    Tlock -> Destination File -> Source File -> World
    -> option error * World }.

Local Abbreviation Event := (Cmd.Event (Flags Others) File Net Tlock).
Local Abbreviation T := (Cmd.T World (Flags Others) File Net Tlock).

Variable env : Env.

(** The end of [run], from [http.NewNetwork] on; [deferred] are the
    files whose [Close] is deferred, the latest first. *)
Definition run_network (flags : Flags Others) (src : Source File)
           (dst : Destination File) (deferred : list File)
  : T (option error * list File) :=
  then_ (step (http_NewNetwork env (Network flags) (Chain flags))
              (Ev_NewNetwork (Network flags) (Chain flags)))
    (fun r =>
       match r with
       | inr err => unit_ (Some err, deferred)
       | inl network =>
           then_ (if Metadata flags then
                    step (Tlock_Metadata env (tlock_New env network) dst)
                         (Ev_Metadata (tlock_New env network) dst)
                  else if Decrypt flags then
                    step (Tlock_Decrypt env (tlock_New env network) dst src)
                         (Ev_Decrypt (tlock_New env network) dst src)
                  else
                    step (commands_Encrypt env flags dst src network)
                         (Ev_Encrypt flags dst src network))
                 (fun err => unit_ (err, deferred))
       end).

(** The part of [run] that sets [dst], and what follows. *)
Definition run_output (flags : Flags Others) (src : Source File)
           (deferred : list File) : T (option error * list File) :=
  let name := Output flags in
  if names_a_file name then
    then_ (step (os_OpenFile env name
                             (Z.lor (Z.lor O_CREATE O_RDWR) O_TRUNC)
                             perm_0600)
                (Ev_OpenFile name (Z.lor (Z.lor O_CREATE O_RDWR) O_TRUNC)
                             perm_0600))
      (fun r =>
         match r with
         | inr err =>
             unit_ (Some (Errorf_v ("failed to open output file "
                                    ++ strconv_Quote env name ++ ": ") err),
                    deferred)
         | inl f => run_network flags src (Destination_file f)
                                (f :: deferred)
         end)
  else run_network flags src Stdout deferred.

(** The body of [run]: the error it returns and the deferred calls. *)
Definition run_body : T (option error * list File) :=
  then_ (step (commands_Parse env) Ev_Parse)
    (fun r =>
       match r with
       | inr err => unit_ (Some (Errorf_v "parse commands: " err), [])
       | inl flags =>
           then_ (look (flag_Arg env 0) (Ev_Arg 0))
             (fun name =>
                if names_a_file name then
                  then_ (step (os_OpenFile env name O_RDONLY perm_0600)
                              (Ev_OpenFile name O_RDONLY perm_0600))
                    (fun r =>
                       match r with
                       | inr err =>
                           unit_ (Some (Errorf_v
                                          ("failed to open input file "
                                           ++ strconv_Quote env name
                                           ++ ": ") err),
                                  [])
                       | inl f => run_output flags (Source_file f) [f]
                       end)
                else run_output flags Stdin [])
       end).

(** [run]: the deferred calls assign what [Close] returns to a
    variable that is not read any more. *)
Definition run : T (option error) :=
  then_ run_body
    (fun '(err, deferred) =>
       then_ (run_deferred (File_Close env) deferred)
             (fun _ => unit_ err)).

(** What [main] hands to [log.Fatal] for the error of [run]. *)
Definition reported (err : error) : option error :=
  if errors_Is' err ErrTooEarly then errors_Unwrap err
  else if errors_Is' err (http_ErrNotUnchained env)
       then Some (http_ErrNotUnchained env)
       else Some err.

(** [main]; its value is the exit status of the process. *)
Definition main : T Z :=
  fun w =>
    if (length (os_Args env w) =? 1)%nat then
      ((0, commands_PrintUsage env w), [Ev_PrintUsage])
    else
      then_ run
        (fun err =>
           match err with
           | Some e =>
               then_ (step (fun w' => (tt, log_Fatal env (reported e) w'))
                           (fun _ => Ev_Fatal (reported e)))
                     (fun _ => unit_ 1)
           | None => unit_ 0
           end) w.

(** The operation the flags choose: [Metadata] before [Decrypt],
    encryption otherwise. *)
Definition chosen (flags : Flags Others) (network : Net)
           (dst : Destination File) (src : Source File)
           (r : option error) : Event :=
  if Metadata flags then Ev_Metadata (tlock_New env network) dst r
  else if Decrypt flags then Ev_Decrypt (tlock_New env network) dst src r
  else Ev_Encrypt flags dst src network r.

End Command.

Arguments Env : clear implicits.

End Tle.

(** *** The command in the version of [cmd/tle.go]: decryption and
    encryption only, a network that is always made, an output file that is
    not truncated *)

Module Tle_cmd.

Import Cmd.

(** The permission bits [0644]. *)
Definition perm_0644 : Z := 420.

Record Flags {Others : Type} := {
  Output : string;
  Network : string;
  Chain : string;
  Decrypt : bool;
  others : Others }.
Arguments Flags : clear implicits.

Section Command.

Context {World Others File Net Decrypter : Type}.

Record Env := {
  os_Args : World -> list string;
  flag_Arg : nat -> World -> string;
  os_OpenFile : string -> Z -> Z -> World -> (File + error) * World;
  File_Close : File -> World -> option error * World;
  log_Fatal : option error -> World -> World;
  strconv_Quote : string -> string;
  commands_PrintUsage : World -> World;
  commands_Parse : World -> (Flags Others + error) * World;
  commands_Encrypt :
    Flags Others -> Destination File -> Source File -> Net -> World
    -> option error * World;
  http_NewNetwork : string -> string -> World -> Net * World;
  tlock_NewDecrypter : Net -> Decrypter;
  Decrypter_Decrypt :
    Decrypter -> Destination File -> Source File -> World
    -> option error * World }.

Local Abbreviation Event :=
  (Cmd.Event (Flags Others) File Net Decrypter).
Local Abbreviation T :=
  (Cmd.T World (Flags Others) File Net Decrypter).

Variable env : Env.

(** The end of [run], from [http.NewNetwork] on. *)
Definition run_network (flags : Flags Others) (src : Source File)
           (dst : Destination File) (deferred : list File)
  : T (option error * list File) :=
  then_ (step (http_NewNetwork env (Network flags) (Chain flags))
              (fun network =>
                 Ev_NewNetwork (Network flags) (Chain flags) (inl network)))
    (fun network =>
       then_ (if Decrypt flags then
                step (Decrypter_Decrypt env (tlock_NewDecrypter env network)
                                        dst src)
                     (Ev_Decrypt (tlock_NewDecrypter env network) dst src)
              else
                step (commands_Encrypt env flags dst src network)
                     (Ev_Encrypt flags dst src network))
             (fun err => unit_ (err, deferred))).

(** The part of [run] that sets [dst], and what follows. *)
Definition run_output (flags : Flags Others) (src : Source File)
           (deferred : list File) : T (option error * list File) :=
  let name := Output flags in
  if names_a_file name then
    then_ (step (os_OpenFile env name (Z.lor O_CREATE O_RDWR) perm_0644)
                (Ev_OpenFile name (Z.lor O_CREATE O_RDWR) perm_0644))
      (fun r =>
         match r with
         | inr err =>
             unit_ (Some (Errorf_v ("failed to open output file "
                                    ++ strconv_Quote env name ++ ": ") err),
                    deferred)
         | inl f => run_network flags src (Destination_file f)
                                (f :: deferred)
         end)
  else run_network flags src Stdout deferred.

(** The body of [run]: the error it returns and the deferred calls. *)
Definition run_body : T (option error * list File) :=
  then_ (step (commands_Parse env) Ev_Parse)
    (fun r =>
       match r with
       | inr err => unit_ (Some (Errorf_v "parse commands: " err), [])
       | inl flags =>
           then_ (look (flag_Arg env 0) (Ev_Arg 0))
             (fun name =>
                if names_a_file name then
                  then_ (step (os_OpenFile env name O_RDONLY perm_0644)
                              (Ev_OpenFile name O_RDONLY perm_0644))
                    (fun r =>
                       match r with
                       | inr err =>
                           unit_ (Some (Errorf_v
                                          ("failed to open input file "
                                           ++ strconv_Quote env name
                                           ++ ": ") err),
                                  [])
                       | inl f => run_output flags (Source_file f) [f]
                       end)
                else run_output flags Stdin [])
       end).

(** [run] *)
Definition run : T (option error) :=
  then_ run_body
    (fun '(err, deferred) =>
       then_ (run_deferred (File_Close env) deferred)
             (fun _ => unit_ err)).

(** [main]; its value is the exit status of the process. *)
Definition main : T Z :=
  fun w =>
    if (length (os_Args env w) =? 1)%nat then
      ((0, commands_PrintUsage env w), [Ev_PrintUsage])
    else
      then_ run
        (fun err =>
           match err with
           | Some e =>
               then_ (step (fun w' => (tt, log_Fatal env (Some e) w'))
                           (fun _ => Ev_Fatal (Some e)))
                     (fun _ => unit_ 1)
           | None => unit_ 0
           end) w.

(** The operation the flag [Decrypt] chooses. *)
Definition chosen (flags : Flags Others) (network : Net)
           (dst : Destination File) (src : Source File)
           (r : option error) : Event :=
  if Decrypt flags
  then Ev_Decrypt (tlock_NewDecrypter env network) dst src r
  else Ev_Encrypt flags dst src network r.

End Command.

Arguments Env : clear implicits.

End Tle_cmd.

(** ** A run of the command

    [tle -d -o out in], with a decryption that comes too early and files
    whose [Close] fails.  The world counts the calls; a file is its name. *)

Module Tle_run.

Definition flags : Tle.Flags unit :=
  {| Tle.Output := "out"; Tle.Network := "https://drand.example";
     Tle.Chain := "toy-chain"; Tle.Metadata := false; Tle.Decrypt := true;
     Tle.others := tt |}.

Definition env : Tle.Env nat unit string string string :=
  {| Tle.os_Args := fun _ => ["tle"; "-d"; "-o"; "out"; "in"]%string;
     Tle.flag_Arg := fun i _ => match i with O => "in" | _ => "" end%string;
     Tle.os_OpenFile := fun name _ _ w => (inl name, S w);
     Tle.File_Close := fun _ w =>
       (Some (errors_New "file already closed"), S w);
     Tle.log_Fatal := fun _ w => S w;
     Tle.strconv_Quote := fun name => name;
     Tle.commands_PrintUsage := fun w => S w;
     Tle.commands_Parse := fun w => (inl flags, S w);
     Tle.commands_Encrypt := fun _ _ _ _ w => (None, S w);
     Tle.http_NewNetwork := fun host _ w => (inl host, S w);
     Tle.http_ErrNotUnchained := errors_New "not an unchained network";
     Tle.tlock_New := fun network => network;
     Tle.Tlock_Metadata := fun _ _ w => (None, S w);
     Tle.Tlock_Decrypt := fun _ _ _ w =>
       (Some (Errorf "decrypt dek" ErrTooEarly), S w) |}.

End Tle_run.


(** * Properties *)

(** ** Bytes and big-endian encodings *)

Lemma Z_of_byte_range (b : byte) : 0 <= Z_of_byte b < 256.
Proof.
  unfold Z_of_byte. pose proof (Byte.to_N_bounded b). lia.
Qed.

Lemma Z_of_byte_of_Z (z : Z) : Z_of_byte (byte_of_Z z) = z mod 256.
Proof.
  unfold Z_of_byte, byte_of_Z.
  assert (Hr : 0 <= z mod 256 < 256) by (apply Z.mod_pos_bound; lia).
  destruct (Byte.of_N (Z.to_N (z mod 256))) as [b|] eqn:E.
  - apply Byte.to_of_N in E. rewrite E. lia.
  - apply Byte.of_N_None_iff in E. lia.
Qed.

Lemma byte_of_Z_of_byte (b : byte) : byte_of_Z (Z_of_byte b) = b.
Proof.
  unfold Z_of_byte, byte_of_Z.
  pose proof (Byte.to_N_bounded b) as Hb.
  rewrite Z.mod_small by lia. rewrite N2Z.id, Byte.of_to_N. reflexivity.
Qed.

Lemma big_endian_value_cons (b : byte) (bs : bytes) :
  big_endian_value (b :: bs)
  = Z_of_byte b * 256 ^ Z.of_nat (length bs) + big_endian_value bs.
Proof.
  unfold big_endian_value. cbn [fold_left].
  change (0 * 256 + Z_of_byte b) with (Z_of_byte b).
  generalize (Z_of_byte b) as a. revert bs.
  assert (G : forall bs a c,
             fold_left (fun acc x => acc * 256 + Z_of_byte x) bs (a + c)
             = a * 256 ^ Z.of_nat (length bs)
               + fold_left (fun acc x => acc * 256 + Z_of_byte x) bs c).
  { induction bs as [|x bs IH]; intros a c.
    - cbn. lia.
    - cbn [fold_left length].
      replace ((a + c) * 256 + Z_of_byte x)
        with (a * 256 + (c * 256 + Z_of_byte x)) by lia.
      rewrite IH. rewrite Nat2Z.inj_succ, Z.pow_succ_r by lia. lia. }
  intros bs a. rewrite <- (G bs a 0). f_equal. lia.
Qed.

Lemma big_endian_value_range (bs : bytes) :
  0 <= big_endian_value bs < 256 ^ Z.of_nat (length bs).
Proof.
  induction bs as [|b bs IH].
  - cbn. lia.
  - rewrite big_endian_value_cons. cbn [length].
    rewrite Nat2Z.inj_succ, Z.pow_succ_r by lia.
    pose proof (Z_of_byte_range b). nia.
Qed.

Lemma big_endian_value_inj (bs bs' : bytes) :
  length bs = length bs' ->
  big_endian_value bs = big_endian_value bs' -> bs = bs'.
Proof.
  revert bs'. induction bs as [|b bs IH]; intros [|b' bs'] Hl Hv;
    try discriminate; [reflexivity|].
  injection Hl as Hl. rewrite !big_endian_value_cons, <- Hl in Hv.
  pose proof (big_endian_value_range bs) as R1.
  pose proof (big_endian_value_range bs') as R2. rewrite <- Hl in R2.
  pose proof (Z_of_byte_range b). pose proof (Z_of_byte_range b').
  assert (Z_of_byte b = Z_of_byte b') as Hb by nia.
  f_equal.
  - rewrite <- (byte_of_Z_of_byte b), Hb. apply byte_of_Z_of_byte.
  - apply IH; [exact Hl | nia].
Qed.

Lemma be_bytes_succ (n : nat) (x : Z) :
  SHA256.be_bytes (S n) x
  = byte_of_Z (Z.shiftr x (8 * Z.of_nat n)) :: SHA256.be_bytes n x.
Proof.
  unfold SHA256.be_bytes. rewrite seq_S, rev_app_distr. reflexivity.
Qed.

Lemma be_bytes_length (n : nat) (x : Z) : length (SHA256.be_bytes n x) = n.
Proof.
  unfold SHA256.be_bytes. rewrite length_map, length_rev, length_seq.
  reflexivity.
Qed.

Lemma be_bytes_value (n : nat) (x : Z) :
  big_endian_value (SHA256.be_bytes n x) = x mod 256 ^ Z.of_nat n.
Proof.
  induction n as [|n IH].
  - cbn. rewrite Z.mod_1_r. reflexivity.
  - rewrite be_bytes_succ, big_endian_value_cons, IH, be_bytes_length.
    rewrite Z_of_byte_of_Z, Z.shiftr_div_pow2 by lia.
    rewrite Nat2Z.inj_succ, Z.pow_succ_r by lia.
    replace (2 ^ (8 * Z.of_nat n)) with (256 ^ Z.of_nat n)
      by (change 256 with (2 ^ 8); rewrite <- Z.pow_mul_r by lia; reflexivity).
    assert (0 < 256 ^ Z.of_nat n) by (apply Z.pow_pos_nonneg; lia).
    rewrite (Z.mul_comm 256), Z.rem_mul_r by lia. lia.
Qed.

Lemma RoundToBytes_be_bytes (r : uint64) : RoundToBytes r = SHA256.be_bytes 8 r.
Proof. reflexivity. Qed.

(** The list [RoundToBytes r] has 8 bytes and denotes [r]. *)
Lemma RoundToBytes_value (r : uint64) :
  is_uint64 r -> big_endian_value (RoundToBytes r) = r.
Proof.
  intros Hr. rewrite RoundToBytes_be_bytes, be_bytes_value.
  apply Z.mod_small. exact Hr.
Qed.

Lemma Sum256_length (msg : bytes) : length (SHA256.Sum256 msg) = 32%nat.
Proof. reflexivity. Qed.

(** Two digests of FIPS 180-4: of "abc" and of the empty message. *)
Example sha256_abc :
  SHA256.Sum256 (list_byte_of_string "abc")
  = [ xba; x78; x16; xbf; x8f; x01; xcf; xea; x41; x41; x40; xde; x5d; xae;
      x22; x23; xb0; x03; x61; xa3; x96; x17; x7a; x9c; xb4; x10; xff; x61;
      xf2; x00; x15; xad ].
Proof. vm_compute. reflexivity. Qed.

Example sha256_empty :
  SHA256.Sum256 []
  = [ xe3; xb0; xc4; x42; x98; xfc; x1c; x14; x9a; xfb; xf4; xc8; x99; x6f;
      xb9; x24; x27; xae; x41; xe4; x64; x9b; x93; x4c; xa4; x95; x99; x1b;
      x78; x52; xb8; x55 ].
Proof. vm_compute. reflexivity. Qed.

(** C2.  For every round number [R] of 64 bits, [CalculateEncryptionID]
    returns, with a nil error, the SHA-256 digest (32 bytes) of the 8-byte
    big-endian encoding of [R], that is of the one list of 8 bytes that
    denotes [R]; for round 1 this is the digest of 00 00 00 00 00 00 00 01;
    and two calls with the same round give the same bytes. *)
Theorem CalculateEncryptionID_sha256_big_endian (R : uint64) :
  is_uint64 R ->
  exists enc : bytes,
    length enc = 8%nat /\ big_endian_value enc = R
    /\ (forall enc', length enc' = 8%nat -> big_endian_value enc' = R ->
                     enc' = enc)
    /\ CalculateEncryptionID R = inl (SHA256.Sum256 enc)
    /\ length (SHA256.Sum256 enc) = 32%nat
    /\ CalculateEncryptionID 1
       = inl (SHA256.Sum256 [x00; x00; x00; x00; x00; x00; x00; x01])
    /\ (forall R', R' = R -> CalculateEncryptionID R' = CalculateEncryptionID R).
Proof.
  intros HR. exists (RoundToBytes R).
  split; [reflexivity|].
  split; [apply RoundToBytes_value, HR|].
  split.
  { intros enc' Hl Hv. apply big_endian_value_inj; [exact Hl|].
    rewrite Hv. symmetry. apply RoundToBytes_value, HR. }
  split; [reflexivity|].
  split; [apply Sum256_length|].
  split; [reflexivity|].
  intros R' ->. reflexivity.
Qed.

(** The identity of round 1. *)
Example CalculateEncryptionID_1 :
  CalculateEncryptionID 1
  = inl [ xcd; x26; x62; x15; x4e; x6d; x76; xb2; xb2; xb9; x2e; x70; xc0;
          xca; xc3; xcc; xf5; x34; xf9; xb7; x4e; xb5; xb8; x98; x19; xec;
          x50; x90; x83; xd0; x0a; x50 ].
Proof. vm_compute. reflexivity. Qed.

Lemma CalculateEncryptionID_sha256_big_endian_witness :
  exists enc : bytes,
    length enc = 8%nat /\ big_endian_value enc = 1000
    /\ (forall enc', length enc' = 8%nat -> big_endian_value enc' = 1000 ->
                     enc' = enc)
    /\ CalculateEncryptionID 1000 = inl (SHA256.Sum256 enc)
    /\ length (SHA256.Sum256 enc) = 32%nat
    /\ CalculateEncryptionID 1
       = inl (SHA256.Sum256 [x00; x00; x00; x00; x00; x00; x00; x01])
    /\ (forall R', R' = 1000 ->
                   CalculateEncryptionID R' = CalculateEncryptionID 1000).
Proof.
  apply (CalculateEncryptionID_sha256_big_endian 1000).
  unfold is_uint64. lia.
Defined.


(** ** Lists of calls *)

Lemma app_eq_split {A} (t1 t2 pre post : list A) (c : A) :
  t1 ++ t2 = pre ++ c :: post ->
  (exists q, t1 = pre ++ c :: q /\ post = q ++ t2)
  \/ (exists p, pre = t1 ++ p /\ t2 = p ++ c :: post).
Proof.
  revert pre. induction t1 as [|x t1 IH]; intros pre H.
  - right. exists pre. split; [reflexivity | exact H].
  - destruct pre as [|y pre]; cbn in H; injection H as -> H.
    + left. exists t1. split; [reflexivity | symmetry; exact H].
    + destruct (IH _ H) as [(q & -> & ->) | (p & -> & ->)].
      * left. exists q. split; reflexivity.
      * right. exists p. split; reflexivity.
Qed.

Lemma last_decoded_app {G1 G2} (t1 t2 : list (Call G1 G2)) :
  last_decoded (t1 ++ t2)
  = match last_decoded t2 with
    | Some info => Some info
    | None => last_decoded t1
    end.
Proof.
  induction t1 as [|c t1 IH]; cbn.
  - destruct (last_decoded t2); reflexivity.
  - rewrite IH. destruct (last_decoded t2); reflexivity.
Qed.

Lemma errors_Is'_Errorf (msg : string) (e target : error) :
  errors_Is' e target = true -> errors_Is' (Errorf msg e) target = true.
Proof.
  intros H. cbn [errors_Is']. rewrite H. apply orb_true_r.
Qed.

(** ** Tactics for runs *)

(** Case analysis on what the collaborators return, along the code. *)
Ltac destruct_scrutinee H :=
  match type of H with
  | context [match ?x with _ => _ end] =>
      lazymatch x with
      | context [match _ with _ => _ end] => fail
      | _ => first [ is_var x; destruct x | destruct x eqn:? ]
      end
  end.

Ltac run_in H :=
  repeat (cbn beta iota zeta in H; destruct_scrutinee H);
  cbn beta iota zeta in H.

(** The positions of a call in an explicit list of calls. *)
Ltac split_trace H :=
  repeat match type of H with
         | [] = ?pre ++ _ :: _ => destruct pre; discriminate H
         | _ :: _ = ?pre ++ _ :: _ =>
             destruct pre as [|? pre]; cbn [app] in H;
             [ inversion H; subst; clear H
             | let E := fresh "E" in injection H as E H; subst ]
         end.

Ltac decide_flags :=
  repeat match goal with
         | E : negb ?b = _ |- _ =>
             destruct b; cbn [negb] in E; try discriminate E; clear E
         end.

Ltac frame_paths H :=
  unfold Decrypt_frame, wrapping, decryptDEK, bind, call, call_pure,
    or_return, or_return_err, out_Write, ret, fail in H;
  run_in H; decide_flags; injection H as <- <- <-.

(** ** One frame of [Decrypt] *)

Section Decrypt_frame.

Context {World G1 G2 : Type}.
Variable lib : Library World G1 G2.
Variables (ctx : context_Context) (network : Network World G1)
          (decrypter : Decrypter World) (info : CipherInfo).

Local Abbreviation R := (RoundNumber (CI_MetaData info)).
Local Abbreviation unchained :=
  ({| ID := UnchainedSchemeID; DecouplePrevSig := true |}).

Implicit Types (s : State World) (t : list (Call G1 G2)).

Lemma Decrypt_frame_basics s r s' t :
  Decrypt_frame lib ctx network decrypter info s = (r, s', t) ->
  input s' = input s /\ r <> OutOfFuel /\ last_decoded t = None
  /\ (forallb (fun c => negb (is_Write c)) t = true -> output s' = output s).
Proof.
  intros H. frame_paths H; cbn; repeat split; try discriminate; auto.
Qed.

(** The network says the round is not ready: nothing else is called and
    the frame fails with [ErrTooEarly]. *)
Lemma Decrypt_frame_not_ready s r s' t pre ctx' R' id post :
  Decrypt_frame lib ctx network decrypter info s = (r, s', t) ->
  t = pre ++ Call_IsReadyToDecrypt ctx' R' id false :: post ->
  pre = [] /\ post = [] /\ R' = R /\ ctx' = ctx
  /\ r = Failed (Errorf "decrypt dek" ErrTooEarly)
  /\ output s' = output s.
Proof.
  intros H Ht. frame_paths H; cbn [app fst snd] in Ht; split_trace Ht;
    try discriminate; repeat split; reflexivity.
Qed.


(** Every call of the verifier: its arguments, and what follows when it
    rejects. *)
Lemma Decrypt_frame_VerifyBeacon s r s' t pre sch b pubkey res post :
  Decrypt_frame lib ctx network decrypter info s = (r, s', t) ->
  t = pre ++ Call_VerifyBeacon sch b pubkey res :: post ->
  sch = unchained
  /\ (exists id, b = {| PreviousSig := []; Round := R; Signature := id |}
                 /\ In (Call_IsReadyToDecrypt ctx R id true) pre)
  /\ forallb (fun c => negb (is_Write c)) pre = true
  /\ match res with
     | Some e =>
         post = []
         /\ r = Failed (Errorf "decrypt dek" (Errorf "verify beacon" e))
         /\ output s' = output s
     | None => exists sig c rd post', post = Call_ibe_Decrypt pubkey sig c rd :: post'
     end.
Proof.
  intros H Ht. frame_paths H; cbn [app fst snd] in Ht; split_trace Ht.
  all: (split; [reflexivity|]); (split; [eexists; split; [reflexivity|cbn; auto]|]);
    (split; [reflexivity|]); cbn; eauto 6.
Qed.

(** A failed fetch of the public key ends the frame. *)
Lemma Decrypt_frame_PublicKey_failed s r s' t pre ctx' e post :
  Decrypt_frame lib ctx network decrypter info s = (r, s', t) ->
  t = pre ++ Call_PublicKey ctx' (inr e) :: post ->
  post = [] /\ ctx' = ctx
  /\ r = Failed (Errorf "decrypt dek" (Errorf "public key" e))
  /\ output s' = output s.
Proof.
  intros H Ht. frame_paths H; cbn [app fst snd] in Ht; split_trace Ht.
  all: repeat split; reflexivity.
Qed.

(** A call of [EncryptionRoundAndID] is not made. *)
Lemma Decrypt_frame_no_EncryptionRoundAndID s r s' t pre ctx' d res post :
  Decrypt_frame lib ctx network decrypter info s = (r, s', t) ->
  t = pre ++ Call_EncryptionRoundAndID ctx' d res :: post -> False.
Proof.
  intros H Ht. frame_paths H; cbn [app fst snd] in Ht; split_trace Ht.
Qed.

(** The frame that is processed to the end. *)
Lemma Decrypt_frame_Returned s s' t :
  Decrypt_frame lib ctx network decrypter info s = (Returned tt, s', t) ->
  exists id sig point pubkey plainDEK plainData,
    t = [ Call_IsReadyToDecrypt ctx R id true;
          Call_G2_UnmarshalBinary id (inl sig);
          Call_G1_UnmarshalBinary (KyberPoint (CI_CipherDEK info)) (inl point);
          Call_PublicKey ctx (inl pubkey);
          Call_VerifyBeacon
            unchained {| PreviousSig := []; Round := R; Signature := id |}
            pubkey None;
          Call_ibe_Decrypt
            pubkey sig
            {| U := point; V := CipherV (CI_CipherDEK info);
               W := CipherW (CI_CipherDEK info) |}
            (inl plainDEK);
          Call_Decrypt plainDEK (CipherData info) (inl plainData);
          Call_Write plainData None ]
    /\ written (output s') = written (output s) ++ plainData
    /\ input s' = input s.
Proof.
  intros H.
  remember (Returned tt) as r eqn:Er in H.
  remember s' as s2 eqn:Es in H. remember t as t2 eqn:Et in H.
  frame_paths H; try discriminate Er.
  subst t. do 6 eexists. split; [reflexivity|].
  subst s'. cbn. split; [|reflexivity].
  match goal with
  | E : io_Write _ _ = _ |- _ =>
      unfold io_Write in E; run_in E; inversion E; subst
  end; reflexivity.
Qed.

End Decrypt_frame.


(** ** The loop of [Decrypt] *)

Section Decrypt_loop.

Context {World G1 G2 : Type}.
Variable lib : Library World G1 G2.
Variables (ctx : context_Context) (decoder : Decoder World)
          (network : Network World G1) (decrypter : Decrypter World)
          (armor : bool).

Implicit Types (s : State World) (t : list (Call G1 G2)).

(** Every call of a run of the loop belongs to an iteration. *)
Lemma Decrypt_loop_iteration fuel done s r s' t pre c post :
  Decrypt_loop lib fuel ctx decoder network decrypter armor done s
  = (r, s', t) ->
  t = pre ++ c :: post ->
  exists h p q rest info err s1 ft,
    pre = h ++ p /\ post = q ++ rest
    /\ Call_Decode armor info err :: ft = p ++ c :: q
    /\ iteration lib ctx network decrypter r s' info err s1 ft rest
    /\ (no_Write h = true -> output s1 = output s).
Proof.
  revert done s r s' t pre post.
  induction fuel as [|fuel IH]; intros done s r s' t pre post H Ht.
  { destruct done; cbn in H; injection H as <- <- <-;
      destruct pre; discriminate Ht. }
  destruct done.
  { cbn in H; injection H as <- <- <-; destruct pre; discriminate Ht. }
  cbn [Decrypt_loop] in H. unfold bind at 1, do_Decode in H.
  destruct (Decode decoder (input s) armor (world s))
    as [[[info err] i] w] eqn:ED.
  cbn beta iota zeta in H. cbn [fst snd] in H.
  set (s1 := {| world := w; input := i; output := output s |}) in *.
  destruct (errors_Is err EOF) eqn:Eeof.
  { (* end of input *)
    cbn in H. injection H as <- <- <-.
    cbn in Ht. split_trace Ht.
    exists [], [], [], [], info, err, s1, []. cbn.
    repeat split; auto. left. repeat split; auto. }
  destruct (errors_Is err ErrUnexpectedEOF) eqn:Eueof.
  { (* the last frame *)
    unfold bind in H.
    destruct (Decrypt_frame lib ctx network decrypter info s1)
      as [[rf s2] ft] eqn:EF.
    assert (r = rf /\ s' = s2 /\ t = Call_Decode armor info err :: ft)
      as (-> & -> & ->).
    { destruct rf as [[]| |]; cbn in H.
      - destruct fuel; cbn in H; injection H as <- <- <-;
          rewrite app_nil_r; auto.
      - injection H as <- <- <-; auto.
      - injection H as <- <- <-; auto. }
    exists [], pre, post, [], info, err, s1, ft.
    rewrite app_nil_r. repeat split; auto.
    right. split; [exact Eeof|]. exists rf, s2. split; [exact EF|].
    left. auto. }
  destruct err as [e|].
  { (* the decoder failed *)
    cbn in H. injection H as <- <- <-.
    cbn in Ht. split_trace Ht.
    exists [], [], [], [], info, (Some e), s1, []. cbn.
    repeat split; auto. left. repeat split; auto. right. exists e. auto. }
  (* a frame, and the loop goes on *)
  unfold bind in H.
  destruct (Decrypt_frame lib ctx network decrypter info s1)
    as [[rf s2] ft] eqn:EF.
  destruct rf as [[]| |].
  2,3: injection H as <- <- <-;
    exists [], pre, post, [], info, None, s1, ft;
    rewrite app_nil_r; repeat split; auto;
    right; (split; [exact Eeof|]); eexists _, s2; (split; [exact EF|]);
    right; (split; [reflexivity|]); left; repeat split; auto; discriminate.
  destruct (Decrypt_loop lib fuel ctx decoder network decrypter armor false s2)
    as [[r3 s3] t3] eqn:EL.
  cbn in H. injection H as <- <- <-.
  change (Call_Decode armor info None :: ft ++ t3)
    with ((Call_Decode armor info None :: ft) ++ t3) in Ht.
  destruct (app_eq_split _ _ _ _ _ Ht) as [(q & E1 & ->) | (p & -> & E2)].
  - exists [], pre, q, t3, info, None, s1, ft.
    repeat split; auto.
    right. split; [exact Eeof|]. exists (Returned tt), s2. split; [exact EF|].
    right. auto.
  - destruct (IH _ _ _ _ _ _ _ EL E2)
      as (h & p' & q & rest & info' & err' & s1' & ft' & -> & -> & E & It & Ho).
    exists ((Call_Decode armor info None :: ft) ++ h), p', q, rest,
      info', err', s1', ft'.
    rewrite <- app_assoc. repeat split; auto.
    intros Hw. unfold no_Write in Hw. rewrite forallb_app in Hw.
    apply andb_prop in Hw as [Hw1 Hw2]. rewrite (Ho Hw2).
    destruct (Decrypt_frame_basics _ _ _ _ _ _ _ _ _ EF) as (_ & _ & _ & Hout).
    apply Hout. cbn in Hw1. exact Hw1.
Qed.

End Decrypt_loop.


(** ** The calls of a run of [Decrypt] *)

Lemma last_decoded_prefix {G1 G2} (t1 t2 : list (Call G1 G2)) :
  last_decoded (t1 ++ t2) = None -> last_decoded t1 = None.
Proof.
  rewrite last_decoded_app. destruct (last_decoded t2); [discriminate|auto].
Qed.

Section Decrypt_calls.

Context {World G1 G2 : Type}.
Variable lib : Library World G1 G2.
Variables (ctx : context_Context) (decoder : Decoder World)
          (network : Network World G1) (decrypter : Decrypter World)
          (armor : bool).

Implicit Types (s : State World) (t : list (Call G1 G2)).

Local Abbreviation unchained :=
  ({| ID := UnchainedSchemeID; DecouplePrevSig := true |}).

(** A call that is not [Decode] is made for the frame decoded last:
    the iteration it belongs to, cut at the call. *)
Lemma Decrypt_call_in_frame fuel s r s' t pre c post :
  Decrypt lib fuel ctx decoder network decrypter armor s = (r, s', t) ->
  t = pre ++ c :: post ->
  (forall a i e, c <> Call_Decode a i e) ->
  exists h p q rest info err s1 rf s2,
    pre = h ++ Call_Decode armor info err :: p
    /\ post = q ++ rest
    /\ Decrypt_frame lib ctx network decrypter info s1 = (rf, s2, p ++ c :: q)
    /\ last_decoded pre = Some info
    /\ (rest = [] /\ r = rf /\ s' = s2 \/ rf = Returned tt)
    /\ (no_Write h = true -> output s1 = output s).
Proof.
  intros H Ht Hc. unfold Decrypt in H.
  destruct (Decrypt_loop_iteration _ _ _ _ _ _ _ _ _ _ _ _ _ _ _ H Ht)
    as (h & p & q & rest & info & err & s1 & ft & -> & -> & E & It & Ho).
  destruct p as [|d p]; cbn [app] in E; injection E as E1 E2.
  { exfalso. eapply Hc. symmetry. exact E1. }
  subst d ft.
  destruct It as [(E & _) | (_ & rf & s2 & EF & Hr)].
  { destruct p; discriminate E. }
  exists h, p, q, rest, info, err, s1, rf, s2.
  repeat split; auto.
  - rewrite last_decoded_app. cbn [last_decoded].
    destruct (Decrypt_frame_basics _ _ _ _ _ _ _ _ _ EF) as (_ & _ & Hd & _).
    apply last_decoded_prefix in Hd. rewrite Hd. reflexivity.
  - destruct Hr as [(_ & -> & -> & ->) | (_ & [(-> & -> & -> & _) | ->])];
      auto.
Qed.

Lemma Decrypt_not_ready fuel s r s' t pre ctx' R id post :
  Decrypt lib fuel ctx decoder network decrypter armor s = (r, s', t) ->
  t = pre ++ Call_IsReadyToDecrypt ctx' R id false :: post ->
  r = Failed (Errorf "decrypt dek" ErrTooEarly)
  /\ post = []
  /\ exists h info err,
      pre = h ++ [Call_Decode armor info err]
      /\ R = RoundNumber (CI_MetaData info)
      /\ (no_Write h = true -> output s' = output s).
Proof.
  intros H Ht.
  destruct (Decrypt_call_in_frame _ _ _ _ _ _ _ _ H Ht)
    as (h & p & q & rest & info & err & s1 & rf & s2
        & -> & -> & EF & _ & Hr & Ho); [discriminate|].
  destruct (Decrypt_frame_not_ready _ _ _ _ _ _ _ _ _ _ _ _ _ _ EF eq_refl)
    as (-> & -> & -> & _ & -> & Hout).
  destruct Hr as [(-> & -> & ->) | Hr]; [|discriminate Hr].
  repeat split; auto.
  exists h, info, err. repeat split; auto.
  intros Hw. rewrite Hout. auto.
Qed.

Lemma Decrypt_VerifyBeacon_calls fuel s r s' t pre sch b pubkey res post :
  Decrypt lib fuel ctx decoder network decrypter armor s = (r, s', t) ->
  t = pre ++ Call_VerifyBeacon sch b pubkey res :: post ->
  sch = unchained
  /\ PreviousSig b = []
  /\ (exists info, last_decoded pre = Some info
                   /\ Round b = RoundNumber (CI_MetaData info))
  /\ match res with
     | Some e =>
         post = []
         /\ r = Failed (Errorf "decrypt dek" (Errorf "verify beacon" e))
     | None => True
     end.
Proof.
  intros H Ht.
  destruct (Decrypt_call_in_frame _ _ _ _ _ _ _ _ H Ht)
    as (h & p & q & rest & info & err & s1 & rf & s2
        & -> & -> & EF & Hd & Hr & Ho); [discriminate|].
  destruct (Decrypt_frame_VerifyBeacon _ _ _ _ _ _ _ _ _ _ _ _ _ _ _ EF eq_refl)
    as (-> & (id & -> & _) & _ & Hres).
  repeat split; auto.
  - exists info. split; [exact Hd | reflexivity].
  - destruct res as [e|]; [|exact I].
    destruct Hres as (-> & -> & _).
    destruct Hr as [(-> & -> & ->) | Hr]; [|discriminate Hr]. auto.
Qed.


Lemma Decrypt_PublicKey_failed fuel s r s' t pre ctx' e post :
  Decrypt lib fuel ctx decoder network decrypter armor s = (r, s', t) ->
  t = pre ++ Call_PublicKey ctx' (inr e) :: post ->
  post = []
  /\ r = Failed (Errorf "decrypt dek" (Errorf "public key" e)).
Proof.
  intros H Ht.
  destruct (Decrypt_call_in_frame _ _ _ _ _ _ _ _ H Ht)
    as (h & p & q & rest & info & err & s1 & rf & s2
        & -> & -> & EF & Hd & Hr & Ho); [discriminate|].
  destruct (Decrypt_frame_PublicKey_failed _ _ _ _ _ _ _ _ _ _ _ _ _ EF eq_refl)
    as (-> & _ & -> & _).
  destruct Hr as [(-> & -> & ->) | Hr]; [|discriminate Hr]. auto.
Qed.

Lemma Decrypt_no_EncryptionRoundAndID fuel s r s' t pre ctx' d res post :
  Decrypt lib fuel ctx decoder network decrypter armor s = (r, s', t) ->
  t = pre ++ Call_EncryptionRoundAndID ctx' d res :: post -> False.
Proof.
  intros H Ht.
  destruct (Decrypt_call_in_frame _ _ _ _ _ _ _ _ H Ht)
    as (h & p & q & rest & info & err & s1 & rf & s2
        & -> & -> & EF & Hd & Hr & Ho); [discriminate|].
  exact (Decrypt_frame_no_EncryptionRoundAndID _ _ _ _ _ _ _ _ _ _ _ _ _ _
           EF eq_refl).
Qed.

End Decrypt_calls.


(** ** The chunk loop of [encrypt] *)

Lemma io_ReadFull_cases (r : Reader) (n : nat) data err r' :
  io_ReadFull r n = ((data, err), r') ->
  ending r' = ending r
  /\ ((err = None /\ data = firstn n (pending r) /\ length data = n
       /\ pending r' = skipn n (pending r) /\ (n <= length (pending r))%nat)
      \/ ((length (pending r) < n)%nat /\ data = pending r /\ pending r' = []
          /\ err = Some (match pending r with
                         | [] => ending r
                         | _ :: _ => if error_eqb (ending r) EOF
                                     then ErrUnexpectedEOF else ending r
                         end))).
Proof.
  unfold io_ReadFull. destruct (n <=? length (pending r))%nat eqn:E;
    intros H; injection H as <- <- <-; cbn; split; auto.
  - apply Nat.leb_le in E. left. repeat split; auto.
    apply firstn_length_le. exact E.
  - apply Nat.leb_gt in E. right. auto.
Qed.

Lemma io_ReadFull_length (r : Reader) (n : nat) data err r' :
  io_ReadFull r n = ((data, err), r') -> (length data <= n)%nat.
Proof.
  intros H. apply io_ReadFull_cases in H as (_ & [H | H]).
  - destruct H as (_ & _ & -> & _). apply Nat.le_refl.
  - destruct H as (Hlt & -> & _). apply Nat.lt_le_incl, Hlt.
Qed.

(** From a source that ends with [EOF], a read that does not report [EOF]
    delivers at least one byte. *)
Lemma io_ReadFull_nonempty (r : Reader) (n : nat) data err r' :
  io_ReadFull r n = ((data, err), r') ->
  ending r = EOF -> (0 < n)%nat -> errors_Is err EOF = false ->
  (1 <= length data)%nat.
Proof.
  intros H Hend Hn Heof. apply io_ReadFull_cases in H as (_ & [H | H]).
  - destruct H as (_ & _ & -> & _). exact Hn.
  - destruct H as (_ & -> & _ & ->).
    destruct (pending r); [|cbn; lia].
    rewrite Hend in Heof. discriminate Heof.
Qed.

Lemma chunkSize_pos : (0 < chunkSize)%nat.
Proof. unfold chunkSize. apply Nat.mul_pos_pos; apply Nat.lt_0_succ. Qed.

Lemma chunkSize_65536 : Z.of_nat chunkSize = 65536.
Proof.
  unfold chunkSize. rewrite Nat2Z.inj_mul.
  replace (Z.of_nat 1024) with 1024 by (vm_compute; reflexivity).
  replace (Z.of_nat 64) with 64 by (vm_compute; reflexivity).
  reflexivity.
Qed.

Global Opaque chunkSize.

Ltac chunk_paths H :=
  unfold encrypt_chunk, bind, call, do_Encode, or_return, or_return_err,
    ret, fail in H;
  run_in H; injection H as <- <- <-.

Section Encrypt_loop.

Context {World G1 G2 : Type}.
Variables (encoder : Encoder World) (encrypter : Encrypter World)
          (dek : bytes) (armor : bool).

Implicit Types (s : State World) (t : list (Call G1 G2)).

Local Abbreviation chunk :=
  (@encrypt_chunk World G1 G2 encoder encrypter dek).
Local Abbreviation loop fuel :=
  (@encrypt_loop World G1 G2 fuel encoder encrypter dek).

Lemma encrypt_chunk_basics cipherInfo data s r s' t :
  chunk cipherInfo armor data s = (r, s', t) ->
  input s' = input s /\ r <> OutOfFuel
  /\ forallb chunk_call t = true
  /\ (encoded t = [] -> output s' = output s)
  /\ match r with
     | Returned ci' =>
         CI_MetaData ci' = CI_MetaData cipherInfo
         /\ CI_CipherDEK ci' = CI_CipherDEK cipherInfo
         /\ t = [Call_Encrypt dek data (inl (CipherData ci'));
                 Call_Encode ci' armor None]
         /\ (exists w w', Encrypt encrypter dek data w
                          = (inl (CipherData ci'), w'))
         /\ exists w w',
             Encode encoder (output s) ci' armor w = (None, output s', w')
     | _ => True
     end.
Proof.
  intros H. chunk_paths H; cbn; repeat split; try discriminate; eauto.
Qed.

(** What precedes a call of the encoder. *)
Lemma encrypt_chunk_Encode cipherInfo data s r s' t pre ci a e post :
  chunk cipherInfo armor data s = (r, s', t) ->
  t = pre ++ Call_Encode ci a e :: post ->
  pre = [Call_Encrypt dek data (inl (CipherData ci))]
  /\ CI_MetaData ci = CI_MetaData cipherInfo
  /\ CI_CipherDEK ci = CI_CipherDEK cipherInfo.
Proof.
  intros H Ht. chunk_paths H; cbn [app fst snd] in Ht; split_trace Ht;
    repeat split; reflexivity.
Qed.

Lemma encrypt_chunk_Encrypt cipherInfo data s r s' t pre k p res post :
  chunk cipherInfo armor data s = (r, s', t) ->
  t = pre ++ Call_Encrypt k p res :: post ->
  pre = [] /\ k = dek /\ p = data.
Proof.
  intros H Ht. chunk_paths H; cbn [app fst snd] in Ht; split_trace Ht;
    repeat split; reflexivity.
Qed.

(** One turn of the loop. *)
Lemma encrypt_loop_step fuel cipherInfo s r s' t :
  loop (S fuel) cipherInfo armor false s = (r, s', t) ->
  exists data err i,
    io_ReadFull (input s) chunkSize = ((data, err), i)
    /\ ((errors_Is err EOF = true
         /\ r = Returned tt /\ s' = set_input s i
         /\ t = [Call_ReadFull data err])
        \/ (exists e, err = Some e
                      /\ errors_Is err EOF = false
                      /\ errors_Is err ErrUnexpectedEOF = false
                      /\ r = Failed (Errorf "decoding input data" e)
                      /\ s' = set_input s i
                      /\ t = [Call_ReadFull data err])
        \/ (errors_Is err EOF = false
            /\ (err = None \/ errors_Is err ErrUnexpectedEOF = true)
            /\ exists rc s2 ct,
                chunk cipherInfo armor data (set_input s i) = (rc, s2, ct)
                /\ match rc with
                   | Returned ci' =>
                       exists t3,
                       loop fuel ci' armor
                            (errors_Is err ErrUnexpectedEOF) s2
                       = (r, s', t3)
                       /\ t = Call_ReadFull data err :: ct ++ t3
                   | Failed e =>
                       r = Failed e /\ s' = s2
                       /\ t = Call_ReadFull data err :: ct
                   | OutOfFuel =>
                       r = OutOfFuel /\ s' = s2
                       /\ t = Call_ReadFull data err :: ct
                   end)).
Proof.
  cbn [encrypt_loop]. unfold bind at 1, in_ReadFull.
  destruct (io_ReadFull (input s) chunkSize) as [[data err] i] eqn:ER.
  cbn beta iota zeta. cbn [fst snd]. intros H.
  exists data, err, i. split; [reflexivity|].
  destruct (errors_Is err EOF) eqn:Eeof.
  { left. cbn in H. injection H as <- <- <-. auto. }
  destruct (errors_Is err ErrUnexpectedEOF) eqn:Eueof.
  { right. right. split; [reflexivity|]. split; [auto|].
    unfold bind in H.
    destruct (chunk cipherInfo armor data (set_input s i))
      as [[[ci'| |] s2] ct] eqn:EC; eexists _, s2, ct; (split; [reflexivity|]).
    - destruct (loop fuel ci' armor true s2) as [[r3 s3] t3] eqn:EL.
      injection H as <- <- <-. exists t3. auto.
    - injection H as <- <- <-. auto.
    - injection H as <- <- <-. auto. }
  destruct err as [e|].
  { right. left. exists e. cbn in H. injection H as <- <- <-.
    repeat split; auto. }
  right. right. split; [reflexivity|]. split; [auto|].
  unfold bind in H.
  destruct (chunk cipherInfo armor data (set_input s i))
    as [[[ci'| |] s2] ct] eqn:EC; eexists _, s2, ct; (split; [reflexivity|]).
  - destruct (loop fuel ci' armor false s2) as [[r3 s3] t3] eqn:EL.
    injection H as <- <- <-. exists t3. auto.
  - injection H as <- <- <-. auto.
  - injection H as <- <- <-. auto.
Qed.

Lemma encrypt_loop_stop fuel cipherInfo done s r s' t :
  loop fuel cipherInfo armor done s = (r, s', t) ->
  done = true \/ fuel = O ->
  t = [] /\ s' = s /\ r = if done then Returned tt else OutOfFuel.
Proof.
  intros H [-> | ->].
  - destruct fuel; cbn in H; injection H as <- <- <-; auto.
  - destruct done; cbn in H; injection H as <- <- <-; auto.
Qed.

(** The loop only reads, encrypts and encodes; what it does to the
    output, it does through the encoder; the reader ends as it did. *)
Lemma encrypt_loop_calls fuel cipherInfo done s r s' t :
  loop fuel cipherInfo armor done s = (r, s', t) ->
  forallb chunk_call t = true
  /\ (encoded t = [] -> output s' = output s)
  /\ ending (input s') = ending (input s).
Proof.
  revert cipherInfo done s r s' t.
  induction fuel as [|fuel IH]; intros ci done s r s' t H.
  { apply encrypt_loop_stop in H as (-> & -> & _); auto. }
  destruct done.
  { apply encrypt_loop_stop in H as (-> & -> & _); auto. }
  apply encrypt_loop_step in H as (data & err & i & ER & H).
  apply io_ReadFull_cases in ER as (Hend & _).
  destruct H as [(_ & _ & -> & ->) | [(e & _ & _ & _ & _ & -> & ->)
                | (_ & _ & rc & s2 & ct & EC & H)]]; auto.
  destruct (encrypt_chunk_basics _ _ _ _ _ _ EC) as (Hi & _ & Hc & Ho & Hr).
  destruct rc as [ci'| |].
  - destruct H as (t3 & EL & ->).
    destruct (IH _ _ _ _ _ _ EL) as (Hc3 & Ho3 & He3).
    destruct Hr as (_ & _ & -> & _). cbn. repeat split; auto.
    + discriminate.
    + rewrite He3, Hi. exact Hend.
  - destruct H as (-> & -> & ->). cbn. rewrite Hc, Hi. auto.
  - destruct H as (-> & -> & ->). cbn. rewrite Hc, Hi. auto.
Qed.

(** Every call of the cipher uses the key of the session. *)
Lemma encrypt_loop_Encrypt fuel cipherInfo done s r s' t k p res :
  loop fuel cipherInfo armor done s = (r, s', t) ->
  In (Call_Encrypt k p res) t -> k = dek.
Proof.
  revert cipherInfo done s r s' t.
  induction fuel as [|fuel IH]; intros ci done s r s' t H Hin.
  { apply encrypt_loop_stop in H as (-> & _); auto. destruct Hin. }
  destruct done.
  { apply encrypt_loop_stop in H as (-> & _); auto. destruct Hin. }
  apply encrypt_loop_step in H as (data & err & i & ER & H).
  destruct H as [(_ & _ & _ & ->) | [(e & _ & _ & _ & _ & _ & ->)
                | (_ & _ & rc & s2 & ct & EC & H)]].
  1,2: destruct Hin as [Hin|[]]; discriminate Hin.
  assert (In (Call_Encrypt k p res) ct -> k = dek) as Hct.
  { intros Hc. apply in_split in Hc as (pre & post & Hc).
    apply (encrypt_chunk_Encrypt _ _ _ _ _ _ _ _ _ _ _ EC Hc). }
  destruct rc as [ci'| |].
  - destruct H as (t3 & EL & ->).
    destruct Hin as [Hin|Hin]; [discriminate Hin|].
    apply in_app_or in Hin as [Hin|Hin]; eauto.
  - destruct H as (_ & _ & ->).
    destruct Hin as [Hin|Hin]; [discriminate Hin|auto].
  - destruct H as (_ & _ & ->).
    destruct Hin as [Hin|Hin]; [discriminate Hin|auto].
Qed.

(** Every call of the encoder follows the read of its chunk and the
    encryption of that chunk; the frame keeps the metadata and the
    wrapped key of the session; and when the source ends with [EOF] the
    chunk is not empty. *)
Lemma encrypt_loop_Encode fuel cipherInfo done s r s' t pre ci a e post :
  loop fuel cipherInfo armor done s = (r, s', t) ->
  t = pre ++ Call_Encode ci a e :: post ->
  exists h data rerr,
    pre = h ++ [Call_ReadFull data rerr;
                Call_Encrypt dek data (inl (CipherData ci))]
    /\ CI_MetaData ci = CI_MetaData cipherInfo
    /\ CI_CipherDEK ci = CI_CipherDEK cipherInfo
    /\ (length data <= chunkSize)%nat
    /\ (ending (input s) = EOF -> (1 <= length data)%nat).
Proof.
  revert cipherInfo done s r s' t pre.
  induction fuel as [|fuel IH]; intros ci0 done s r s' t pre H Ht.
  { apply encrypt_loop_stop in H as (-> & _); auto.
    destruct pre; discriminate Ht. }
  destruct done.
  { apply encrypt_loop_stop in H as (-> & _); auto.
    destruct pre; discriminate Ht. }
  apply encrypt_loop_step in H as (data & err & i & ER & H).
  destruct H as [(_ & _ & _ & ->) | [(e0 & _ & _ & _ & _ & _ & ->)
                | (Heof & _ & rc & s2 & ct & EC & H)]].
  1,2: split_trace Ht.
  assert (forall q post',
             ct = q ++ Call_Encode ci a e :: post' ->
             pre = Call_ReadFull data err :: q ->
             exists h data rerr,
               pre = h ++ [Call_ReadFull data rerr;
                           Call_Encrypt dek data (inl (CipherData ci))]
               /\ CI_MetaData ci = CI_MetaData ci0
               /\ CI_CipherDEK ci = CI_CipherDEK ci0
               /\ (length data <= chunkSize)%nat
               /\ (ending (input s) = EOF -> (1 <= length data)%nat))
    as Hhere.
  { intros q post' Hc ->.
    destruct (encrypt_chunk_Encode _ _ _ _ _ _ _ _ _ _ _ EC Hc)
      as (-> & Hm & Hk).
    exists [], data, err. repeat split; auto.
    - eapply io_ReadFull_length; eauto.
    - intros Hend.
      eapply io_ReadFull_nonempty; eauto using chunkSize_pos. }
  destruct rc as [ci'| |].
  - destruct H as (t3 & EL & ->).
    change (Call_ReadFull data err :: ct ++ t3)
      with ((Call_ReadFull data err :: ct) ++ t3) in Ht.
    destruct (app_eq_split _ _ _ _ _ Ht) as [(q & E1 & ->) | (p & -> & E2)].
    + destruct pre as [|x pre]; [discriminate E1|].
      injection E1 as <- E1. eapply Hhere; eauto.
    + destruct (encrypt_chunk_basics _ _ _ _ _ _ EC)
        as (Hi & _ & _ & _ & Hm & Hk & _).
      destruct (IH _ _ _ _ _ _ _ EL E2)
        as (h & d & re & -> & Hm' & Hk' & Hle & Hge).
      exists ((Call_ReadFull data err :: ct) ++ h), d, re.
      rewrite <- app_assoc. repeat split; auto; try congruence.
      intros Hend. apply Hge. rewrite Hi. cbn.
      apply io_ReadFull_cases in ER as (-> & _). exact Hend.
  - destruct H as (_ & _ & ->).
    destruct pre as [|x pre]; [discriminate Ht|].
    injection Ht as <- Ht. eapply Hhere; eauto.
  - destruct H as (_ & _ & ->).
    destruct pre as [|x pre]; [discriminate Ht|].
    injection Ht as <- Ht. eapply Hhere; eauto.
Qed.

End Encrypt_loop.


(** ** The chunks of a plaintext *)

Lemma chunks_upto_enough (n : nat) (p : bytes) (f1 f2 : nat) :
  (0 < n)%nat -> (length p <= f1)%nat -> (length p <= f2)%nat ->
  chunks_upto f1 n p = chunks_upto f2 n p.
Proof.
  intros Hn. revert p f2.
  induction f1 as [|f1 IH]; intros p f2 H1 H2.
  - destruct p; [|cbn in H1; lia]. destruct f2; reflexivity.
  - destruct p as [|x p]; [destruct f2; reflexivity|].
    destruct f2 as [|f2]; [cbn in H2; lia|].
    cbn [chunks_upto]. f_equal.
    assert (length (skipn n (x :: p)) <= length p)%nat.
    { rewrite length_skipn. cbn [length]. lia. }
    cbn [length] in H1, H2. apply IH; lia.
Qed.

Lemma chunks_of_nil (n : nat) : chunks_of n [] = [].
Proof. reflexivity. Qed.

Lemma chunks_of_cons (n : nat) (p : bytes) :
  (0 < n)%nat -> p <> [] ->
  chunks_of n p = firstn n p :: chunks_of n (skipn n p).
Proof.
  intros Hn Hp. destruct p as [|x p]; [contradiction|].
  unfold chunks_of. cbn [length chunks_upto]. f_equal.
  apply chunks_upto_enough; auto.
  rewrite length_skipn. cbn [length]. lia.
Qed.

Lemma chunks_of_short (n : nat) (p : bytes) :
  (0 < length p <= n)%nat -> chunks_of n p = [p].
Proof.
  intros H. rewrite chunks_of_cons.
  - rewrite firstn_all2, skipn_all2 by lia. reflexivity.
  - lia.
  - destruct p; [cbn in H; lia | discriminate].
Qed.

Lemma chunks_of_long (n : nat) (p : bytes) :
  (0 < n <= length p)%nat ->
  chunks_of n p = firstn n p :: chunks_of n (skipn n p).
Proof.
  intros H. apply chunks_of_cons; [lia|].
  destruct p; [cbn in H; lia | discriminate].
Qed.

Lemma chunks_of_spec (n : nat) (p : bytes) :
  (0 < n)%nat ->
  concat (chunks_of n p) = p
  /\ length (chunks_of n p) = ((length p + (n - 1)) / n)%nat
  /\ Forall (fun c => 1 <= length c <= n)%nat (chunks_of n p)
  /\ (forall init lst, chunks_of n p = init ++ [lst] ->
                       Forall (fun c => length c = n) init).
Proof.
  intros Hn.
  remember (length p) as k eqn:Ek. revert p Ek.
  induction k as [k IH] using lt_wf_ind. intros p Ek. subst k.
  destruct (Nat.eq_dec (length p) 0) as [H0|H0].
  { destruct p; [|discriminate H0].
    rewrite chunks_of_nil. cbn [concat length]. repeat split.
    - rewrite Nat.div_small; lia.
    - constructor.
    - intros [|] ? H; discriminate H. }
  destruct (Nat.le_gt_cases n (length p)) as [Hle|Hgt].
  - (* a full chunk, then the rest *)
    rewrite chunks_of_long by lia.
    assert (length (skipn n p) = length p - n)%nat as Hs
        by apply length_skipn.
    destruct (IH (length (skipn n p)) ltac:(lia) (skipn n p) eq_refl)
      as (Hc & Hl & Hf & Hi).
    assert (length (firstn n p) = n) as Hfl by (apply firstn_length_le; lia).
    cbn [concat length]. rewrite Hc, Hl, firstn_skipn. repeat split.
    + rewrite Hs.
      replace (length p + (n - 1))%nat
        with (1 * n + (length p - n + (n - 1)))%nat by lia.
      rewrite Nat.div_add_l by lia. lia.
    + constructor; [lia | exact Hf].
    + intros init lst E. destruct init as [|c init]; [constructor|].
      cbn [app] in E. injection E as <- E. constructor; eauto.
  - (* the last, short chunk *)
    rewrite chunks_of_short by lia. cbn [concat length].
    rewrite app_nil_r. repeat split.
    + replace (length p + (n - 1))%nat
        with (1 * n + (length p - 1))%nat by lia.
      rewrite Nat.div_add_l, Nat.div_small by lia. reflexivity.
    + constructor; [lia | constructor].
    + intros init lst E. destruct init as [|c init]; [constructor|].
      destruct init; discriminate E.
Qed.

(** In integers: the number of chunks is the ceiling of the quotient. *)
Lemma chunks_of_count (n : nat) (p : bytes) :
  (0 < n)%nat ->
  Z.of_nat (length (chunks_of n p))
  = ceil_div (Z.of_nat (length p)) (Z.of_nat n).
Proof.
  intros Hn. destruct (chunks_of_spec n p Hn) as (_ & -> & _).
  unfold ceil_div. rewrite Nat2Z.inj_div, Nat2Z.inj_add, Nat2Z.inj_sub by lia.
  f_equal. lia.
Qed.


(** ** The chunk loop on a plaintext *)

Lemma io_ReadFull_bytes (p : bytes) (n : nat) :
  (0 < n)%nat ->
  io_ReadFull (bytes_Reader p) n
  = if (n <=? length p)%nat
    then ((firstn n p, None), bytes_Reader (skipn n p))
    else ((p, Some (match p with [] => EOF | _ => ErrUnexpectedEOF end)),
          bytes_Reader []).
Proof.
  intros Hn. unfold io_ReadFull, bytes_Reader. cbn [pending ending].
  destruct (n <=? length p)%nat; [reflexivity|].
  destruct p; reflexivity.
Qed.

Section Encrypt_bytes.

Context {World G1 G2 : Type}.
Variables (encoder : Encoder World) (encrypter : Encrypter World)
          (dek : bytes) (armor : bool).

Implicit Types (s : State World) (t : list (Call G1 G2)).

Local Abbreviation loop fuel :=
  (@encrypt_loop World G1 G2 fuel encoder encrypter dek).

Lemma frame_of_same (ci1 ci2 : CipherInfo) data ci' :
  CI_MetaData ci1 = CI_MetaData ci2 ->
  CI_CipherDEK ci1 = CI_CipherDEK ci2 ->
  frame_of encrypter dek ci1 data ci' -> frame_of encrypter dek ci2 data ci'.
Proof. unfold frame_of. intros <- <-. auto. Qed.

(** With enough fuel the loop ends; when it returns nil it has read the
    chunks of the plaintext, encrypted each, and encoded one frame for
    each, in order. *)
Lemma encrypt_loop_chunks fuel cipherInfo s p r s' t :
  input s = bytes_Reader p ->
  loop fuel cipherInfo armor false s = (r, s', t) ->
  ((length p / chunkSize < fuel)%nat -> r <> OutOfFuel)
  /\ (r = Returned tt ->
      encrypted t = chunks_of chunkSize p
      /\ Forall2 (frame_of encrypter dek cipherInfo) (chunks_of chunkSize p) (encoded t)).
Proof.
  pose proof chunkSize_pos as Hpos.
  revert cipherInfo s p r s' t.
  induction fuel as [|fuel IH]; intros ci s p r s' t Hin H.
  { apply encrypt_loop_stop in H as (-> & -> & ->); auto.
    split; [lia | discriminate]. }
  apply encrypt_loop_step in H as (data & err & i & ER & H).
  rewrite Hin, io_ReadFull_bytes in ER by exact Hpos.
  destruct (chunkSize <=? length p)%nat eqn:Ele.
  - (* a full chunk *)
    apply Nat.leb_le in Ele. injection ER as <- <- <-.
    destruct H as [(Heof & _) | [(e & He & _) | (_ & _ & rc & s2 & ct & EC & H)]];
      [discriminate Heof | discriminate He |].
    destruct (encrypt_chunk_basics _ _ _ _ _ _ _ _ _ _ EC)
      as (Hi & Hnf & _ & _ & Hr).
    destruct rc as [ci'| |]; [| |contradiction].
    + destruct H as (t3 & EL & ->). cbn [errors_Is] in EL.
      destruct Hr as (Hm & Hk & -> & Hx & _).
      assert (input s2 = bytes_Reader (skipn chunkSize p)) as Hin2
          by (rewrite Hi; reflexivity).
      destruct (IH _ _ _ _ _ _ Hin2 EL) as (Hterm & Hok).
      split.
      * intros Hf. apply Hterm. rewrite length_skipn.
        replace (length p) with (1 * chunkSize + (length p - chunkSize))%nat
          in Hf by lia.
        rewrite Nat.div_add_l in Hf by lia. lia.
      * intros ->. destruct (Hok eq_refl) as (He & Hf).
        rewrite chunks_of_long by lia. cbn [encrypted encoded app].
        rewrite He. split; [reflexivity|].
        constructor.
        -- unfold frame_of. auto.
        -- eapply Forall2_impl; [|exact Hf].
           intros a b. apply frame_of_same; auto.
    + destruct H as (-> & _ & _). split; discriminate.
  - (* the last chunk, or the end of the input *)
    apply Nat.leb_gt in Ele. injection ER as <- <- <-.
    destruct p as [|x p'].
    { destruct H as [(_ & -> & _ & ->) | [(e & _ & He & _)
                    | (He & _)]]; try discriminate He.
      split; [discriminate|]. intros _. split; constructor. }
    set (p := x :: p') in *.
    destruct H as [(Heof & _) | [(e & _ & _ & He & _)
                  | (_ & _ & rc & s2 & ct & EC & H)]];
      [discriminate Heof | discriminate He |].
    destruct (encrypt_chunk_basics _ _ _ _ _ _ _ _ _ _ EC)
      as (Hi & Hnf & _ & _ & Hr).
    destruct rc as [ci'| |]; [| |contradiction].
    + destruct H as (t3 & EL & ->). cbn [errors_Is errors_Is' error_eqb orb] in EL.
      apply encrypt_loop_stop in EL as (-> & -> & ->); [|auto].
      destruct Hr as (Hm & Hk & -> & Hx & _).
      split; [discriminate|]. intros _.
      rewrite chunks_of_short by (subst p; cbn [length] in *; lia).
      cbn. split; [reflexivity|].
      constructor; [unfold frame_of; auto | constructor].
    + destruct H as (-> & _ & _). split; discriminate.
Qed.

(** When every frame the encoder accepts is appended as [wire] gives it,
    a loop that returns nil has appended the frames it encoded. *)
Lemma encrypt_loop_output (wire : CipherInfo -> bool -> bytes)
      fuel cipherInfo done s s' t :
  (forall o ci a w o' w',
      Encode encoder o ci a w = (None, o', w') ->
      written o' = written o ++ wire ci a) ->
  loop fuel cipherInfo armor done s = (Returned tt, s', t) ->
  written (output s')
  = written (output s) ++ concat (map (fun ci => wire ci armor) (encoded t)).
Proof.
  intros Hwire.
  revert cipherInfo done s s' t.
  induction fuel as [|fuel IH]; intros ci done s s' t H.
  { apply encrypt_loop_stop in H as (-> & -> & _); auto.
    cbn. rewrite app_nil_r. reflexivity. }
  destruct done.
  { apply encrypt_loop_stop in H as (-> & -> & _); auto.
    cbn. rewrite app_nil_r. reflexivity. }
  apply encrypt_loop_step in H as (data & err & i & ER & H).
  destruct H as [(_ & _ & -> & ->) | [(e & _ & _ & _ & He & _)
                | (_ & _ & rc & s2 & ct & EC & H)]];
    [cbn; rewrite app_nil_r; reflexivity | discriminate He |].
  destruct (encrypt_chunk_basics _ _ _ _ _ _ _ _ _ _ EC)
    as (_ & _ & _ & _ & Hr).
  destruct rc as [ci'| |]; [|destruct H as (He & _); discriminate He..].
  destruct H as (t3 & EL & ->).
  destruct Hr as (_ & _ & -> & _ & w & w' & HE).
  apply Hwire in HE. cbn [output set_input] in HE.
  rewrite (IH _ _ _ _ _ EL), HE. cbn. rewrite <- app_assoc. reflexivity.
Qed.

End Encrypt_bytes.


(** ** [encrypt]: the key material, then the chunk loop *)

Lemma fill_length (buf r : bytes) : length (fill buf r) = length buf.
Proof.
  unfold fill. rewrite length_app, length_firstn, length_skipn. lia.
Qed.

(** What a read that returns [b] leaves in a fresh buffer of [n] bytes:
    the bytes of [b] that fit, then the zeros it did not reach. *)
Lemma fill_make (n : nat) (b : bytes) :
  fill (make n) b = firstn n b ++ repeat x00 (n - length b).
Proof.
  unfold fill, make. rewrite repeat_length. f_equal.
  generalize (length b). clear b. intros k. revert k.
  induction n as [|n IH]; intros [|k]; cbn; auto.
Qed.

Section Encrypt_setup.

Context {World G1 G2 : Type}.
Variable lib : Library World G1 G2.
Variables (ctx : context_Context) (encoder : Encoder World)
          (network : Network World G1) (encrypter : Encrypter World)
          (roundNumber : uint64) (id : bytes) (armor : bool).

Implicit Types (s : State World) (t : list (Call G1 G2)).

(** The calls of [encrypt], one after the other, and where it stops. *)
Lemma encrypt_setup fuel s r s' t :
  encrypt lib fuel ctx encoder network encrypter roundNumber id armor s
  = (r, s', t) ->
  exists rr t1,
    t = Call_rand_Read fileKeySize rr :: t1
    /\ match rr with
       | inr e => t1 = [] /\ r = Failed (Errorf "random key" e)
                  /\ output s' = output s
       | inl b =>
         let dek := fill (make fileKeySize) b in
         exists rp t2,
           t1 = Call_PublicKey ctx rp :: t2
           /\ match rp with
              | inr e => t2 = [] /\ r = Failed (Errorf "public key" e)
                         /\ output s' = output s
              | inl publicKey =>
                exists rc t3,
                  t2 = Call_ibe_Encrypt publicKey id dek rc :: t3
                  /\ match rc with
                     | inr e => t3 = [] /\ r = Failed (Errorf "encrypt dek" e)
                                /\ output s' = output s
                     | inl cipherText =>
                       exists rm t4,
                         t3 = Call_G1_MarshalBinary (U cipherText) rm :: t4
                         /\ match rm with
                            | inr e =>
                                t4 = []
                                /\ r = Failed (Errorf "marshal kyber point" e)
                                /\ output s' = output s
                            | inl kyberPoint =>
                              exists s0,
                                input s0 = input s /\ output s0 = output s
                                /\ encrypt_loop
                                     fuel encoder encrypter dek
                                     {| CI_MetaData :=
                                          {| RoundNumber := roundNumber;
                                             ChainHash :=
                                               net_ChainHash network (world s0) |};
                                        CI_CipherDEK :=
                                          {| KyberPoint := kyberPoint;
                                             CipherV := V cipherText;
                                             CipherW := W cipherText |};
                                        CipherData := [] |}
                                     armor false s0
                                   = (r, s', t4)
                            end
                     end
              end
       end.
Proof.
  unfold encrypt, bind, call, call_pure, or_return, ret, fail.
  intros H. run_in H; injection H as <- <- <-.
  all: eexists _, _; (split; [reflexivity|]); cbn beta iota zeta;
    try (repeat split; reflexivity).
  all: eexists _, _; (split; [reflexivity|]); cbn beta iota zeta;
    try (repeat split; reflexivity).
  all: eexists _, _; (split; [reflexivity|]); cbn beta iota zeta;
    try (repeat split; reflexivity).
  all: eexists _, _; (split; [reflexivity|]); cbn beta iota zeta;
    try (repeat split; reflexivity).
  all: eexists; (split; [|split]); [| |eassumption]; reflexivity.
Qed.

(** A session that returns nil, with what the collaborators answered. *)
Lemma encrypt_Returned fuel s s' t :
  encrypt lib fuel ctx encoder network encrypter roundNumber id armor s
  = (Returned tt, s', t) ->
  exists b publicKey cipherText kyberPoint s0 t4 w1 w1' w2 w2',
    PublicKey network ctx w1 = (inl publicKey, w1')
    /\ ibe_Encrypt lib publicKey id (fill (make fileKeySize) b) w2
       = (inl cipherText, w2')
    /\ G1_MarshalBinary lib (U cipherText) = inl kyberPoint
    /\ input s0 = input s /\ output s0 = output s
    /\ encrypt_loop fuel encoder encrypter (fill (make fileKeySize) b)
                    {| CI_MetaData :=
                         {| RoundNumber := roundNumber;
                            ChainHash := net_ChainHash network (world s0) |};
                       CI_CipherDEK :=
                         {| KyberPoint := kyberPoint;
                            CipherV := V cipherText;
                            CipherW := W cipherText |};
                       CipherData := [] |}
                    armor false s0
       = (Returned tt, s', t4)
    /\ t = [ Call_rand_Read fileKeySize (inl b);
             Call_PublicKey ctx (inl publicKey);
             Call_ibe_Encrypt publicKey id (fill (make fileKeySize) b)
                              (inl cipherText);
             Call_G1_MarshalBinary (U cipherText) (inl kyberPoint) ] ++ t4.
Proof.
  unfold encrypt, bind, call, call_pure, or_return, ret, fail.
  intros H. run_in H; try discriminate H.
  match goal with
  | E : encrypt_loop _ _ _ _ _ _ _ _ = (?r, _, _) |- _ =>
      destruct r as [[]| |]; try discriminate H
  end.
  injection H as <- <-.
  do 10 eexists.
  do 3 (split; [eassumption|]).
  split; [|split; [|split; [eassumption|reflexivity]]]; reflexivity.
Qed.

End Encrypt_setup.


(** ** Sessions of [encrypt] *)

Lemma chunk_call_filters {G1 G2} (t : list (Call G1 G2)) :
  forallb chunk_call t = true ->
  filter is_rand_Read t = [] /\ filter is_ibe_Encrypt t = [].
Proof.
  induction t as [|c t IH]; [auto|].
  cbn [forallb]. intros H. apply andb_prop in H as [Hc Ht].
  destruct (IH Ht) as [E1 E2].
  destruct c; try discriminate Hc; cbn; rewrite E1, E2; auto.
Qed.

Lemma chunk_call_exists {G1 G2} (c : Call G1 G2) (t : list (Call G1 G2)) :
  In c t -> chunk_call c = true -> existsb chunk_call t = true.
Proof.
  intros Hin Hc. apply existsb_exists. exists c. auto.
Qed.

Ltac in_cases :=
  repeat match goal with
         | H : In _ (_ :: _) |- _ => cbn [In] in H
         | H : In _ [] |- _ => destruct H
         | H : _ \/ _ |- _ => destruct H as [H|H]
         | H : False |- _ => destruct H
         | H : _ = _ |- _ => discriminate H
         end.

Section Encrypt_claims.

Context {World G1 G2 : Type}.
Variable lib : Library World G1 G2.
Variables (ctx : context_Context) (encoder : Encoder World)
          (network : Network World G1) (encrypter : Encrypter World)
          (roundNumber : uint64) (id : bytes) (armor : bool).

Implicit Types (s : State World) (t : list (Call G1 G2)).

(** The chunk loop on the empty plaintext encodes nothing. *)
Lemma encrypt_loop_empty fuel dek cipherInfo s r s' t :
  input s = bytes_Reader [] ->
  encrypt_loop fuel encoder encrypter dek cipherInfo armor false s
  = (r, s', t) ->
  encoded t = [] /\ output s' = output s.
Proof.
  intros Hin H. destruct fuel as [|fuel].
  { apply encrypt_loop_stop in H as (-> & -> & _); auto. }
  apply encrypt_loop_step in H as (data & err & i & ER & H).
  rewrite Hin in ER. cbn in ER.
  rewrite io_ReadFull_bytes in ER by apply chunkSize_pos.
  destruct (chunkSize <=? length (@nil byte))%nat eqn:E.
  { apply Nat.leb_le in E. pose proof chunkSize_pos. cbn in E. lia. }
  injection ER as <- <- <-.
  destruct H as [(_ & _ & -> & ->) | [(e & _ & He & _) | (He & _)]];
    try discriminate He. auto.
Qed.

(** C6.  In a session of [encrypt] the random source is read once, for
    32 bytes, as the first thing, and the DEK is what that read left in
    the fresh buffer of 32 bytes: the bytes it returned, with zeros after
    them where it returned fewer than 32, so those very bytes when it
    returned 32; a read that fails ends the session with "random key"
    and without another call.  [ibe.Encrypt] is called at most once, and
    exactly once in every session that gets to read the input or returns
    nil; both come before every read of a chunk; the cipher always gets
    that DEK as its key, [ibe.Encrypt] wraps that DEK, and every frame
    handed to the encoder carries the same [MetaData] and the same
    [CipherDEK]. *)
Theorem encrypt_key_material_once fuel s r s' t :
  encrypt lib fuel ctx encoder network encrypter roundNumber id armor s
  = (r, s', t) ->
  exists rr t1,
    t = Call_rand_Read 32 rr :: t1
    /\ filter is_rand_Read t1 = []
    /\ (forall e, rr = inr e ->
                  t1 = [] /\ r = Failed (Errorf "random key" e))
    /\ (length (filter is_ibe_Encrypt t) <= 1)%nat
    /\ (r = Returned tt \/ existsb chunk_call t = true ->
        length (filter is_ibe_Encrypt t) = 1%nat)
    /\ (forall pre c post,
           t = pre ++ c :: post ->
           is_rand_Read c || is_ibe_Encrypt c = true ->
           existsb chunk_call pre = false)
    /\ exists dek md cd,
        length dek = 32%nat
        /\ (forall b, rr = inl b ->
                      dek = firstn 32 b ++ repeat x00 (32 - length b)
                      /\ (length b = 32%nat -> dek = b))
        /\ RoundNumber md = roundNumber
        /\ (forall master id' msg rc,
               In (Call_ibe_Encrypt master id' msg rc) t ->
               msg = dek /\ id' = id)
        /\ (forall key plainData rc,
               In (Call_Encrypt key plainData rc) t -> key = dek)
        /\ (forall ci a e,
               In (Call_Encode ci a e) t ->
               CI_MetaData ci = md /\ CI_CipherDEK ci = cd).
Proof.
  intros H.
  destruct (encrypt_setup _ _ _ _ _ _ _ _ _ _ _ _ _ H) as (rr & t1 & -> & H1).
  set (none := {| KyberPoint := []; CipherV := []; CipherW := [] |}).
  set (md0 := {| RoundNumber := roundNumber; ChainHash := EmptyString |}).
  assert (length (make fileKeySize) = 32%nat) as Hmake by reflexivity.
  exists rr, t1. split; [reflexivity|].
  destruct rr as [b|e].
  2:{ destruct H1 as (-> & -> & _). cbn.
      split; [reflexivity|].
      split; [intros e' E; injection E as <-; auto|].
      split; [auto|].
      split; [intros [Hr|Hr]; discriminate Hr|].
      split; [intros pre c post Ht Hc; split_trace Ht;
              try discriminate Hc; reflexivity|].
      exists (make fileKeySize), md0, none.
      split; [exact Hmake|]. split; [intros b E; discriminate E|].
      split; [reflexivity|]. repeat split; intros; in_cases. }
  assert (length (fill (make fileKeySize) b) = 32%nat) as Hdek
      by (rewrite fill_length; reflexivity).
  assert (forall b', @inl bytes error b = inl b' ->
            fill (make fileKeySize) b
            = firstn 32 b' ++ repeat x00 (32 - length b')
            /\ (length b' = 32%nat -> fill (make fileKeySize) b = b'))
    as Hread.
  { intros b' E. injection E as <-. rewrite fill_make.
    split; [reflexivity|]. intros Hl. change fileKeySize with 32%nat.
    rewrite <- Hl at 1. rewrite firstn_all, Hl. apply app_nil_r. }
  cbn zeta in H1. destruct H1 as (rp & t2 & -> & H2).
  destruct rp as [pk|e].
  2:{ destruct H2 as (-> & -> & _). cbn.
      split; [reflexivity|].
      split; [intros e' E; discriminate E|].
      split; [auto|].
      split; [intros [Hr|Hr]; discriminate Hr|].
      split; [intros pre c post Ht Hc; split_trace Ht;
              try discriminate Hc; reflexivity|].
      exists (fill (make fileKeySize) b), md0, none.
      split; [exact Hdek|]. split; [exact Hread|].
      split; [reflexivity|]. repeat split; intros; in_cases. }
  destruct H2 as (rc & t3 & -> & H3).
  destruct rc as [ct|e].
  2:{ destruct H3 as (-> & -> & _). cbn.
      split; [reflexivity|].
      split; [intros e' E; discriminate E|].
      split; [auto|].
      split; [intros [Hr|Hr]; discriminate Hr|].
      split; [intros pre c post Ht Hc; split_trace Ht;
              try discriminate Hc; reflexivity|].
      exists (fill (make fileKeySize) b), md0, none.
      split; [exact Hdek|]. split; [exact Hread|].
      split; [reflexivity|].
      repeat split; intros; in_cases;
        match goal with
        | Hin : _ = Call_ibe_Encrypt _ _ _ _ |- _ =>
            injection Hin as <- <- <- <-
        end; reflexivity. }
  destruct H3 as (rm & t4 & -> & H4).
  destruct rm as [kp|e].
  2:{ destruct H4 as (-> & -> & _). cbn.
      split; [reflexivity|].
      split; [intros e' E; discriminate E|].
      split; [auto|].
      split; [intros _; reflexivity|].
      split; [intros pre c post Ht Hc; split_trace Ht;
              try discriminate Hc; reflexivity|].
      exists (fill (make fileKeySize) b), md0, none.
      split; [exact Hdek|]. split; [exact Hread|].
      split; [reflexivity|].
      repeat split; intros; in_cases;
        match goal with
        | Hin : _ = Call_ibe_Encrypt _ _ _ _ |- _ =>
            injection Hin as <- <- <- <-
        end; reflexivity. }
  destruct H4 as (s0 & _ & _ & EL).
  destruct (encrypt_loop_calls _ _ _ _ _ _ _ _ _ _ _ EL) as (Hcalls & _).
  destruct (chunk_call_filters _ Hcalls) as (Hrand & Hibe).
  split. { cbn. exact Hrand. }
  split. { intros e' E. discriminate E. }
  split. { cbn. rewrite Hibe. cbn. lia. }
  split. { intros _. cbn. rewrite Hibe. reflexivity. }
  split.
  { intros pre c post Ht Hc.
    change (?a :: ?b :: ?c0 :: ?d :: t4) with ([a; b; c0; d] ++ t4) in Ht.
    destruct (app_eq_split _ _ _ _ _ Ht) as [(q & E & _) | (p & -> & E)].
    - split_trace E; try discriminate Hc; reflexivity.
    - exfalso. rewrite forallb_forall in Hcalls.
      assert (chunk_call c = true) as Hcc
          by (apply Hcalls; rewrite E; apply in_elt).
      destruct c; try discriminate Hcc; discriminate Hc. }
  exists (fill (make fileKeySize) b),
    {| RoundNumber := roundNumber;
       ChainHash := net_ChainHash network (world s0) |},
    {| KyberPoint := kp; CipherV := V ct; CipherW := W ct |}.
  split; [exact Hdek|]. split; [exact Hread|]. split; [reflexivity|].
  split; [|split].
  - intros master id' msg rc' Hin.
    destruct Hin as [Hin|[Hin|[Hin|[Hin|Hin]]]]; try discriminate Hin.
    + injection Hin as <- <- <- <-. auto.
    + exfalso. rewrite forallb_forall in Hcalls.
      apply Hcalls in Hin. discriminate Hin.
  - intros key plainData rc' Hin.
    destruct Hin as [Hin|[Hin|[Hin|[Hin|Hin]]]]; try discriminate Hin.
    eapply encrypt_loop_Encrypt; eauto.
  - intros ci a e Hin.
    destruct Hin as [Hin|[Hin|[Hin|[Hin|Hin]]]]; try discriminate Hin.
    apply in_split in Hin as (pre & post & Hin).
    destruct (encrypt_loop_Encode _ _ _ _ _ _ _ _ _ _ _ _ _ _ _ _ EL Hin)
      as (_ & _ & _ & _ & Hm & Hk & _).
    split; [exact Hm | exact Hk].
Qed.

(** C5.  On a plaintext of [L] bytes, a session of [encrypt] with fuel
    for [L / 65536 + 1] reads does not run out of it; on the empty
    plaintext nothing is encoded and the output is untouched; and a
    session that returns nil has encoded exactly [ceil (L / 65536)]
    frames, one for each chunk it encrypted, in order: the chunks put
    together are the plaintext, every chunk but the last has 65536 bytes,
    and every chunk has between 1 and 65536 bytes. *)
Theorem encrypt_frame_count fuel (p : bytes) s r s' t :
  input s = bytes_Reader p ->
  encrypt lib fuel ctx encoder network encrypter roundNumber id armor s
  = (r, s', t) ->
  ((Z.of_nat (length p) / 65536 < Z.of_nat fuel) -> r <> OutOfFuel)
  /\ (p = [] -> encoded t = [] /\ output s' = output s)
  /\ (r = Returned tt ->
      Z.of_nat (length (encoded t)) = ceil_div (Z.of_nat (length p)) 65536
      /\ concat (encrypted t) = p
      /\ (forall init lst,
             encrypted t = init ++ [lst] ->
             Forall (fun c => Z.of_nat (length c) = 65536) init)
      /\ Forall (fun c => 1 <= Z.of_nat (length c) <= 65536) (encrypted t)
      /\ exists dek,
          Forall2 (fun data ci =>
                     exists w w',
                       Encrypt encrypter dek data w
                       = (inl (CipherData ci), w'))
                  (encrypted t) (encoded t)).
Proof.
  intros Hin H.
  pose proof chunkSize_pos as Hpos. pose proof chunkSize_65536 as Hcs.
  destruct (encrypt_setup _ _ _ _ _ _ _ _ _ _ _ _ _ H) as (rr & t1 & -> & H1).
  destruct rr as [b|e];
    [|destruct H1 as (-> & -> & ->); repeat split; auto; discriminate].
  cbn zeta in H1. destruct H1 as (rp & t2 & -> & H2).
  destruct rp as [pk|e];
    [|destruct H2 as (-> & -> & ->); repeat split; auto; discriminate].
  destruct H2 as (rc & t3 & -> & H3).
  destruct rc as [ct|e];
    [|destruct H3 as (-> & -> & ->); repeat split; auto; discriminate].
  destruct H3 as (rm & t4 & -> & H4).
  destruct rm as [kp|e];
    [|destruct H4 as (-> & -> & ->); repeat split; auto; discriminate].
  destruct H4 as (s0 & Hi0 & Ho0 & EL).
  rewrite <- Hi0 in Hin. cbn [encoded encrypted].
  destruct (encrypt_loop_chunks _ _ _ _ _ _ _ _ _ _ _ Hin EL) as (Hterm & Hok).
  split; [|split].
  - intros Hf. apply Hterm.
    rewrite <- Hcs, <- Nat2Z.inj_div in Hf. lia.
  - intros ->. rewrite <- Ho0. eapply encrypt_loop_empty; eauto.
  - intros ->. destruct (Hok eq_refl) as (He & Hf).
    destruct (chunks_of_spec chunkSize p Hpos) as (Hc & Hl & Hfa & Hinit).
    rewrite He, <- (Forall2_length Hf), <- Hcs.
    split; [apply chunks_of_count, Hpos|].
    split; [exact Hc|].
    split.
    { intros init lst E. eapply Forall_impl; [|exact (Hinit _ _ E)].
      cbn. intros c ->. reflexivity. }
    split.
    { eapply Forall_impl; [|exact Hfa]. cbn. intros c Hlen. lia. }
    eexists. eapply Forall2_impl; [|exact Hf].
    intros a c (_ & _ & Hx). exact Hx.
Qed.

(** C10, as the code has it.  On an input that ends with [EOF], as every
    plaintext read to its end does, every frame handed to the encoder
    follows the read of a chunk of between 1 and 65536 bytes and the
    encryption of that chunk, whose result it carries: no frame is made
    of an empty chunk. *)
Theorem encrypt_frames_nonempty fuel (p : bytes) s r s' t :
  input s = bytes_Reader p ->
  encrypt lib fuel ctx encoder network encrypter roundNumber id armor s
  = (r, s', t) ->
  frames_of_nonempty_chunks t.
Proof.
  intros Hin H pre ci a e post Ht.
  pose proof chunkSize_65536 as Hcs.
  destruct (encrypt_setup _ _ _ _ _ _ _ _ _ _ _ _ _ H) as (rr & t1 & -> & H1).
  destruct rr as [b|e0]; [|destruct H1 as (-> & _); split_trace Ht].
  cbn zeta in H1. destruct H1 as (rp & t2 & -> & H2).
  destruct rp as [pk|e0]; [|destruct H2 as (-> & _); split_trace Ht].
  destruct H2 as (rc & t3 & -> & H3).
  destruct rc as [ct|e0]; [|destruct H3 as (-> & _); split_trace Ht].
  destruct H3 as (rm & t4 & -> & H4).
  destruct rm as [kp|e0]; [|destruct H4 as (-> & _); split_trace Ht].
  destruct H4 as (s0 & Hi0 & Ho0 & EL).
  change (?x1 :: ?x2 :: ?x3 :: ?x4 :: t4) with ([x1; x2; x3; x4] ++ t4) in Ht.
  destruct (app_eq_split _ _ _ _ _ Ht) as [(q & E & _) | (p' & -> & E)];
    [split_trace E|].
  destruct (encrypt_loop_Encode _ _ _ _ _ _ _ _ _ _ _ _ _ _ _ _ EL E)
    as (h & data & rerr & -> & _ & _ & Hle & Hge).
  eexists (_ ++ h), data, rerr, _. split.
  - rewrite <- app_assoc. reflexivity.
  - rewrite Hi0, Hin in Hge. specialize (Hge eq_refl). lia.
Qed.

End Encrypt_claims.

(** A plaintext of 130,000 bytes has two chunks, of 65,536 and of 64,464
    bytes. *)
Example chunks_of_130000_bytes (p : bytes) :
  Z.of_nat (length p) = 130000 ->
  chunks_of chunkSize p = [firstn chunkSize p; skipn chunkSize p]
  /\ Z.of_nat (length (firstn chunkSize p)) = 65536
  /\ Z.of_nat (length (skipn chunkSize p)) = 64464.
Proof.
  intros Hl. pose proof chunkSize_65536 as Hcs.
  assert (length (firstn chunkSize p) = chunkSize) as Hf
      by (apply firstn_length_le; lia).
  assert (length (skipn chunkSize p) = length p - chunkSize)%nat as Hs
      by apply length_skipn.
  rewrite chunks_of_long by lia.
  rewrite (chunks_of_short chunkSize (skipn chunkSize p)) by lia.
  repeat split; lia.
Qed.

(** The number of frames around the size of a chunk. *)
Example ceil_div_around_chunk_size :
  ceil_div 0 65536 = 0 /\ ceil_div 1 65536 = 1 /\ ceil_div 65535 65536 = 1
  /\ ceil_div 65536 65536 = 1 /\ ceil_div 65537 65536 = 2
  /\ ceil_div 130000 65536 = 2.
Proof. repeat split; reflexivity. Qed.


(** ** Sessions of [Decrypt] *)

Section Decrypt_claims.

Context {World G1 G2 : Type}.
Variable lib : Library World G1 G2.
Variables (ctx : context_Context) (decoder : Decoder World)
          (network : Network World G1) (decrypter : Decrypter World)
          (armor : bool).

Implicit Types (s : State World) (t : list (Call G1 G2)).

(** C3.  When the network reports that the round of the frame just
    decoded is not ready, [Decrypt] returns [ErrTooEarly] (wrapped, so
    that [errors.Is] finds it) and makes no further call: no frame is
    decoded after that; the output is as it was unless an earlier frame
    was written, so nothing is written when the frame is the first. *)
Theorem Decrypt_too_early fuel s r s' t pre ctx' R id post :
  Decrypt lib fuel ctx decoder network decrypter armor s = (r, s', t) ->
  t = pre ++ Call_IsReadyToDecrypt ctx' R id false :: post ->
  r = Failed (Errorf "decrypt dek" ErrTooEarly)
  /\ errors_Is' (Errorf "decrypt dek" ErrTooEarly) ErrTooEarly = true
  /\ post = []
  /\ exists h info err,
      pre = h ++ [Call_Decode armor info err]
      /\ R = RoundNumber (CI_MetaData info)
      /\ (no_Write h = true -> output s' = output s)
      /\ (h = [] -> output s' = output s).
Proof.
  intros H Ht.
  destruct (Decrypt_not_ready _ _ _ _ _ _ _ _ _ _ _ _ _ _ _ _ H Ht)
    as (-> & -> & h & info & err & -> & -> & Ho).
  split; [reflexivity|]. split; [reflexivity|]. split; [reflexivity|].
  exists h, info, err. repeat split; auto.
  intros ->. apply Ho. reflexivity.
Qed.


(** C7.  Whatever the frame, the network and the other collaborators,
    every call of the verifier is made with the unchained scheme that
    decouples the previous signature, on a beacon without previous
    signature, for the round of the frame decoded last; under that scheme
    the message verified is the digest of the round number alone, the
    identity [CalculateEncryptionID] gives for the round. *)
Theorem VerifyBeacon_scheme_fixed fuel s r s' t pre sch b pubkey res post :
  Decrypt lib fuel ctx decoder network decrypter armor s = (r, s', t) ->
  t = pre ++ Call_VerifyBeacon sch b pubkey res :: post ->
  sch = {| ID := UnchainedSchemeID; DecouplePrevSig := true |}
  /\ PreviousSig b = []
  /\ (exists info, last_decoded pre = Some info
                   /\ Round b = RoundNumber (CI_MetaData info))
  /\ (forall prevSig,
         DigestMessage sch (Round b) prevSig
         = SHA256.Sum256 (RoundToBytes (Round b)))
  /\ CalculateEncryptionID (Round b)
     = inl (DigestMessage sch (Round b) (PreviousSig b)).
Proof.
  intros H Ht.
  destruct (Decrypt_VerifyBeacon_calls _ _ _ _ _ _ _ _ _ _ _ _ _ _ _ _ _ H Ht)
    as (-> & Hp & Hi & _).
  repeat split; auto.
Qed.

(** C8.  What [Decrypt] does with what the decoder returns first.  On
    [EOF] it returns nil and on another error that is not
    [ErrUnexpectedEOF] it returns that error, in both cases without
    processing a frame.  On [ErrUnexpectedEOF] the frame returned with it
    is processed as any frame is, by [Decrypt_frame]; [Decrypt] then
    ends with the outcome of that, without decoding again: when the
    frame goes through (readiness, the two points, the public key, the
    verifier, [ibe.Decrypt], the cipher, the write), [Decrypt] returns
    nil and the plain data is in the output. *)
Theorem Decrypt_unexpected_EOF_frame fuel s info err i w :
  Decode decoder (input s) armor (world s) = (((info, err), i), w) ->
  let s1 := {| world := w; input := i; output := output s |} in
  let run := Decrypt lib (S fuel) ctx decoder network decrypter armor s in
  (errors_Is err EOF = true ->
   run = (Returned tt, s1, [Call_Decode armor info err]))
  /\ (forall e,
         err = Some e -> errors_Is err EOF = false ->
         errors_Is err ErrUnexpectedEOF = false ->
         run = (Failed (Errorf "decoding input data" e), s1,
                [Call_Decode armor info err]))
  /\ (errors_Is err EOF = false ->
      errors_Is err ErrUnexpectedEOF = true ->
      forall rf s2 ft,
        Decrypt_frame lib ctx network decrypter info s1 = (rf, s2, ft) ->
        run = (rf, s2, Call_Decode armor info err :: ft)
        /\ (rf = Returned tt ->
            exists id sig point pubkey plainDEK plainData,
              ft = [ Call_IsReadyToDecrypt
                       ctx (RoundNumber (CI_MetaData info)) id true;
                     Call_G2_UnmarshalBinary id (inl sig);
                     Call_G1_UnmarshalBinary
                       (KyberPoint (CI_CipherDEK info)) (inl point);
                     Call_PublicKey ctx (inl pubkey);
                     Call_VerifyBeacon
                       {| ID := UnchainedSchemeID; DecouplePrevSig := true |}
                       {| PreviousSig := [];
                          Round := RoundNumber (CI_MetaData info);
                          Signature := id |}
                       pubkey None;
                     Call_ibe_Decrypt
                       pubkey sig
                       {| U := point; V := CipherV (CI_CipherDEK info);
                          W := CipherW (CI_CipherDEK info) |}
                       (inl plainDEK);
                     Call_Decrypt plainDEK (CipherData info) (inl plainData);
                     Call_Write plainData None ]
              /\ written (output s2) = written (output s) ++ plainData)).
Proof.
  intros ED s1 run.
  assert (run
          = bind (fun s0 => ((Returned (info, err), s1),
                             [Call_Decode armor info err]))
                 (fun x =>
                    let '(info, err) := x in
                    if errors_Is err EOF then ret tt
                    else if errors_Is err ErrUnexpectedEOF then
                      bind (Decrypt_frame lib ctx network decrypter info)
                           (fun _ => Decrypt_loop lib fuel ctx decoder network
                                                  decrypter armor true)
                    else
                      match err with
                      | Some e => fail (Errorf "decoding input data" e)
                      | None =>
                          bind (Decrypt_frame lib ctx network decrypter info)
                               (fun _ => Decrypt_loop lib fuel ctx decoder
                                                      network decrypter armor
                                                      false)
                      end) s) as ->.
  { subst run. unfold Decrypt. cbn [Decrypt_loop].
    unfold bind at 1 3, do_Decode. rewrite ED. reflexivity. }
  split; [|split].
  - intros Heof. unfold bind at 1. cbn beta iota zeta.
    rewrite Heof. reflexivity.
  - intros e -> Heof Hu. unfold bind at 1. cbn beta iota zeta.
    rewrite Heof, Hu. reflexivity.
  - intros Heof Hu rf s2 ft EF. unfold bind at 1. cbn beta iota zeta.
    rewrite Heof, Hu. unfold bind. rewrite EF.
    split.
    + destruct rf as [[]| |]; [|reflexivity..].
      destruct fuel; cbn; rewrite app_nil_r; reflexivity.
    + intros ->.
      destruct (Decrypt_frame_Returned _ _ _ _ _ _ _ _ EF)
        as (id & sig & point & pubkey & plainDEK & plainData & -> & Hw & _).
      exists id, sig, point, pubkey, plainDEK, plainData.
      split; [reflexivity | exact Hw].
Qed.

End Decrypt_claims.


(** ** Failures of the network *)

Section Network_failures.

Context {World G1 G2 : Type}.
Variable lib : Library World G1 G2.
Variables (ctx : context_Context) (encoder : Encoder World)
          (decoder : Decoder World) (network : Network World G1)
          (encrypter : Encrypter World) (decrypter : Decrypter World)
          (armor : bool).

Implicit Types (s : State World) (t : list (Call G1 G2)).

Lemma encrypt_network_answers fuel roundNumber id s r s' t pre c post :
  encrypt lib fuel ctx encoder network encrypter roundNumber id armor s
  = (r, s', t) ->
  t = pre ++ c :: post ->
  network_answer_handled r c post.
Proof.
  intros H Ht.
  destruct (encrypt_setup _ _ _ _ _ _ _ _ _ _ _ _ _ H) as (rr & t1 & -> & H1).
  destruct rr as [b|e0];
    [|destruct H1 as (-> & _); split_trace Ht; exact I].
  cbn zeta in H1. destruct H1 as (rp & t2 & -> & H2).
  destruct rp as [pk|e0].
  2:{ destruct H2 as (-> & -> & _); split_trace Ht; try exact I.
      split; [reflexivity|]. eexists. split; [reflexivity|].
      intros target. apply errors_Is'_Errorf. }
  destruct H2 as (rc & t3 & -> & H3).
  destruct rc as [ct|e0];
    [|destruct H3 as (-> & _); split_trace Ht; exact I].
  destruct H3 as (rm & t4 & -> & H4).
  destruct rm as [kp|e0];
    [|destruct H4 as (-> & _); split_trace Ht; exact I].
  destruct H4 as (s0 & _ & _ & EL).
  change (?x1 :: ?x2 :: ?x3 :: ?x4 :: t4) with ([x1; x2; x3; x4] ++ t4) in Ht.
  destruct (app_eq_split _ _ _ _ _ Ht) as [(q & E & _) | (p' & -> & E)];
    [split_trace E; exact I|].
  destruct (encrypt_loop_calls _ _ _ _ _ _ _ _ _ _ _ EL) as (Hcalls & _).
  rewrite forallb_forall in Hcalls.
  assert (chunk_call c = true) as Hc
      by (apply Hcalls; rewrite E; apply in_elt).
  destruct c; try discriminate Hc; exact I.
Qed.

Lemma EncryptWithRound_encrypt fuel roundNumber s :
  EncryptWithRound lib fuel ctx encoder network encrypter roundNumber armor s
  = encrypt lib fuel ctx encoder network encrypter roundNumber
            (SHA256.Sum256 (RoundToBytes roundNumber)) armor s.
Proof.
  unfold EncryptWithRound.
  replace (CalculateEncryptionID roundNumber)
    with (@inl bytes error (SHA256.Sum256 (RoundToBytes roundNumber)))
    by reflexivity.
  unfold bind at 1, or_return, ret.
  generalize (SHA256.Sum256 (RoundToBytes roundNumber)). intros id.
  destruct (encrypt lib fuel ctx encoder network encrypter roundNumber id
                    armor s) as [[r s'] t].
  reflexivity.
Qed.

Lemma EncryptWithDuration_cases fuel duration s r s' t :
  EncryptWithDuration lib fuel ctx encoder network encrypter duration armor s
  = (r, s', t) ->
  exists res w,
    EncryptionRoundAndID network ctx duration (world s) = (res, w)
    /\ match res with
       | inr e =>
           r = Failed (Errorf "round by duration" e)
           /\ s' = set_world s w
           /\ t = [Call_EncryptionRoundAndID ctx duration (inr e)]
       | inl (roundNumber, id) =>
           exists t',
             encrypt lib fuel ctx encoder network encrypter roundNumber id
                     armor (set_world s w) = (r, s', t')
             /\ t = Call_EncryptionRoundAndID
                      ctx duration (inl (roundNumber, id)) :: t'
       end.
Proof.
  unfold EncryptWithDuration. unfold bind at 1 2, call, or_return.
  destruct (EncryptionRoundAndID network ctx duration (world s))
    as [res w] eqn:E.
  intros H. exists res, w. split; [reflexivity|].
  destruct res as [[roundNumber id]|e]; cbn in H.
  - destruct (encrypt _ _ _ _ _ _ _ _ _ _) as [[r0 s0] t0] eqn:EE.
    injection H as <- <- <-. exists t0. auto.
  - injection H as <- <- <-. auto.
Qed.

(** C9, as the code has it.  When the fetch of the public key or the
    resolution of the round fails, the session makes no further call, so
    that nothing is encoded or written any more, and returns an error
    that wraps the one of the network: [errors.Is] finds in it whatever
    it finds in that one, the cancellation error in particular.  The
    readiness call has no error to return: when it says that the round
    is not ready, whatever the reason, the session makes no further call
    and returns [ErrTooEarly]. *)
Theorem network_failure_ends_session fuel roundNumber duration s r s' t :
  EncryptWithRound lib fuel ctx encoder network encrypter roundNumber armor s
  = (r, s', t)
  \/ EncryptWithDuration lib fuel ctx encoder network encrypter duration
                         armor s = (r, s', t)
  \/ Decrypt lib fuel ctx decoder network decrypter armor s = (r, s', t) ->
  forall pre c post,
    t = pre ++ c :: post ->
    match c with
    | Call_PublicKey _ (inr e) | Call_EncryptionRoundAndID _ _ (inr e) =>
        post = []
        /\ exists e', r = Failed e'
                      /\ forall target, errors_Is' e target = true ->
                                        errors_Is' e' target = true
    | Call_IsReadyToDecrypt _ _ _ false =>
        post = [] /\ r = Failed (Errorf "decrypt dek" ErrTooEarly)
    | _ => True
    end.
Proof.
  intros [H | [H | H]] pre c post Ht.
  - rewrite EncryptWithRound_encrypt in H.
    exact (encrypt_network_answers _ _ _ _ _ _ _ _ _ _ H Ht).
  - apply EncryptWithDuration_cases in H as (res & w & _ & H).
    destruct res as [[R id]|e].
    + destruct H as (t' & H & ->).
      destruct pre as [|x pre]; cbn [app] in Ht; injection Ht as <- Ht.
      * exact I.
      * exact (encrypt_network_answers _ _ _ _ _ _ _ _ _ _ H Ht).
    + destruct H as (-> & _ & ->). split_trace Ht.
      split; [reflexivity|]. eexists. split; [reflexivity|].
      intros target. apply errors_Is'_Errorf.
  - destruct c as [| ctx' [pk|e] | ctx' d [x|e] | ctx' R id [|] | | | | | | | | | | | |];
      try exact I.
    + destruct (Decrypt_PublicKey_failed _ _ _ _ _ _ _ _ _ _ _ _ _ _ _ H Ht)
        as (-> & ->).
      split; [reflexivity|]. eexists. split; [reflexivity|].
      intros target Hi. do 2 apply errors_Is'_Errorf. exact Hi.
    + exfalso.
      exact (Decrypt_no_EncryptionRoundAndID _ _ _ _ _ _ _ _ _ _ _ _ _ _ _ _
               H Ht).
    + destruct (Decrypt_not_ready _ _ _ _ _ _ _ _ _ _ _ _ _ _ _ _ H Ht)
        as (-> & -> & _).
      auto.
Qed.

End Network_failures.


(** ** Encryption, then decryption *)

Lemma io_Write_unlimited (o : Writer) (p : bytes) :
  failing o = None ->
  io_Write o p
  = ((length p, None), {| written := written o ++ p; failing := None |}).
Proof. unfold io_Write. intros ->. reflexivity. Qed.

Section Roundtrip.

Context {World G1 G2 : Type}.
Variable lib : Library World G1 G2.
Variables (encoder : Encoder World) (decoder : Decoder World)
          (encrypter : Encrypter World) (decrypter : Decrypter World).
(** The network when the plaintext is encrypted, and later when the
    ciphertext is decrypted. *)
Variables (earlier later : Network World G1).
Variables (ctxE ctxD : context_Context) (armor : bool) (R : uint64).

Implicit Types (s : State World) (t : list (Call G1 G2)).

Local Abbreviation unchained :=
  ({| ID := UnchainedSchemeID; DecouplePrevSig := true |}).

(** The frame codec: the encoder appends [wire ci armor] for the frame
    [ci]; the decoder reads one frame back and leaves the rest, where it
    may hand out the last frame with [ErrUnexpectedEOF]; at the end of
    the input it reports [EOF]. *)
Variable wire : CipherInfo -> bool -> bytes.
Hypothesis Encode_wire :
  forall o ci a w o' w',
    Encode encoder o ci a w = (None, o', w') ->
    written o' = written o ++ wire ci a.
Hypothesis Decode_wire :
  forall ci a rest w,
    is_uint64 (RoundNumber (CI_MetaData ci)) ->
    exists err w',
      Decode decoder (bytes_Reader (wire ci a ++ rest)) a w
      = (((ci, err), bytes_Reader rest), w')
      /\ (err = None
          \/ (rest = [] /\ errors_Is err EOF = false
              /\ errors_Is err ErrUnexpectedEOF = true)).
Hypothesis Decode_end :
  forall a w,
    exists ci err r' w',
      Decode decoder (bytes_Reader []) a w = (((ci, err), r'), w')
      /\ errors_Is err EOF = true.

(** The cipher: decryption under the same key gives the plain data back. *)
Hypothesis Decrypt_Encrypt :
  forall key plainData w cipherData w',
    Encrypt encrypter key plainData w = (inl cipherData, w') ->
    forall w2, exists w2',
      Decrypt_ decrypter key cipherData w2 = (inl plainData, w2').

(** The binary form of a point of G1 reads back as the point. *)
Hypothesis Unmarshal_Marshal :
  forall (p : G1) b,
    G1_MarshalBinary lib p = inl b -> G1_UnmarshalBinary lib b = inl p.

(** The chain has one public key; later, the network reports the round
    [R] ready, with a signature that is a point of G2 and that the
    verifier accepts for [R] under that key. *)
Variables (pubkey : G1) (signature : bytes) (sigPoint : G2).
Hypothesis PublicKey_earlier :
  forall w p w', PublicKey earlier ctxE w = (inl p, w') -> p = pubkey.
Hypothesis PublicKey_later :
  forall w, exists w', PublicKey later ctxD w = (inl pubkey, w').
Hypothesis ready_later :
  forall w, exists w',
    IsReadyToDecrypt later ctxD R w = ((signature, true), w').
Hypothesis signature_point : G2_UnmarshalBinary lib signature = inl sigPoint.
Hypothesis signature_verifies :
  VerifyBeacon lib unchained
               {| PreviousSig := []; Round := R; Signature := signature |}
               pubkey = None.

(** Identity-based encryption: what is encrypted under the chain key to
    the identity of round [R] is decrypted by the signature of [R]. *)
Hypothesis ibe_Decrypt_Encrypt :
  forall id msg w c w',
    CalculateEncryptionID R = inl id ->
    ibe_Encrypt lib pubkey id msg w = (inl c, w') ->
    ibe_Decrypt lib pubkey sigPoint c = inl msg.

(** A frame of the session goes through [Decrypt_frame]. *)
Lemma Decrypt_frame_roundtrip dek (c : Ciphertext G1) kp id w w' info data s :
  CalculateEncryptionID R = inl id ->
  ibe_Encrypt lib pubkey id dek w = (inl c, w') ->
  G1_MarshalBinary lib (U c) = inl kp ->
  RoundNumber (CI_MetaData info) = R ->
  CI_CipherDEK info = {| KyberPoint := kp; CipherV := V c; CipherW := W c |} ->
  (exists w1 w1', Encrypt encrypter dek data w1 = (inl (CipherData info), w1')) ->
  failing (output s) = None ->
  exists s' t,
    Decrypt_frame lib ctxD later decrypter info s = (Returned tt, s', t)
    /\ input s' = input s
    /\ written (output s') = written (output s) ++ data
    /\ failing (output s') = None.
Proof.
  intros Hid Hibe Hm HR Hk (w1 & w1' & Henc) Hout.
  unfold Decrypt_frame, wrapping, decryptDEK, bind, call, call_pure,
    or_return, or_return_err, out_Write, ret, fail.
  rewrite HR, Hk. cbn [KyberPoint CipherV CipherW].
  destruct (ready_later (world s)) as (w2 & ->). cbn [fst snd negb].
  rewrite signature_point, (Unmarshal_Marshal _ _ Hm).
  cbn beta iota. cbn [world set_world].
  destruct (PublicKey_later w2) as (w3 & ->).
  rewrite signature_verifies.
  replace {| U := U c; V := V c; W := W c |} with c by (destruct c; reflexivity).
  rewrite (ibe_Decrypt_Encrypt _ _ _ _ _ Hid Hibe).
  cbn beta iota. cbn [world set_world].
  destruct (Decrypt_Encrypt _ _ _ _ _ Henc w3) as (w4 & ->).
  cbn beta iota. cbn [output set_world].
  rewrite (io_Write_unlimited _ _ Hout).
  eexists _, _. split; [reflexivity|]. cbn. auto.
Qed.

(** A frame cannot have an empty encoding. *)
Lemma wire_not_nil (w : World) ci :
  is_uint64 (RoundNumber (CI_MetaData ci)) -> wire ci armor <> [].
Proof.
  intros Hu Hnil.
  destruct (Decode_wire ci armor [] w Hu) as (err & w1 & E1 & Herr).
  destruct (Decode_end armor w) as (ci2 & err2 & r2 & w2 & E2 & Heof).
  rewrite Hnil in E1. cbn [app] in E1. rewrite E1 in E2.
  injection E2 as _ <- _ _.
  destruct Herr as [-> | (_ & Hn & _)]; [discriminate Heof|].
  rewrite Hn in Heof. discriminate Heof.
Qed.

(** The frames of the session, decoded and decrypted one after the
    other, give the chunks back. *)
Lemma Decrypt_loop_roundtrip dek (c : Ciphertext G1) kp id w w' cipherInfo :
  is_uint64 R ->
  CalculateEncryptionID R = inl id ->
  ibe_Encrypt lib pubkey id dek w = (inl c, w') ->
  G1_MarshalBinary lib (U c) = inl kp ->
  RoundNumber (CI_MetaData cipherInfo) = R ->
  CI_CipherDEK cipherInfo
  = {| KyberPoint := kp; CipherV := V c; CipherW := W c |} ->
  forall chunks frames,
    Forall2 (frame_of encrypter dek cipherInfo) chunks frames ->
    forall fuel s,
      (length frames < fuel)%nat ->
      input s = bytes_Reader (concat (map (fun f => wire f armor) frames)) ->
      failing (output s) = None ->
      exists s' t,
        Decrypt_loop lib fuel ctxD decoder later decrypter armor false s
        = (Returned tt, s', t)
        /\ written (output s') = written (output s) ++ concat chunks.
Proof.
  intros HuR Hid Hibe Hm HR Hk chunks frames HF.
  induction HF as [|data f chunks frames Hf HF IH]; intros fuel s Hfuel Hin Hout.
  - destruct fuel as [|fuel]; [cbn in Hfuel; lia|].
    cbn [Decrypt_loop]. unfold bind at 1, do_Decode.
    rewrite Hin. cbn [concat map].
    destruct (Decode_end armor (world s)) as (ci & err & r' & w2 & -> & Heof).
    cbn beta iota zeta. cbn [fst snd]. rewrite Heof.
    eexists _, _. split; [reflexivity|]. cbn. rewrite app_nil_r. reflexivity.
  - destruct fuel as [|fuel]; [cbn in Hfuel; lia|].
    cbn [length] in Hfuel.
    destruct Hf as (Hmd & Hcd & Henc).
    assert (RoundNumber (CI_MetaData f) = R) as HRf by (rewrite Hmd; exact HR).
    assert (is_uint64 (RoundNumber (CI_MetaData f))) as Huf
        by (rewrite HRf; exact HuR).
    cbn [Decrypt_loop]. unfold bind at 1, do_Decode.
    rewrite Hin. cbn [concat map].
    destruct (Decode_wire f armor
                (concat (map (fun f0 => wire f0 armor) frames)) (world s) Huf)
      as (err & w2 & -> & Herr).
    cbn beta iota zeta. cbn [fst snd].
    set (s1 := {| world := w2;
                  input := bytes_Reader
                             (concat (map (fun f0 => wire f0 armor) frames));
                  output := output s |}).
    destruct (Decrypt_frame_roundtrip
                dek c kp id w w' f data s1 Hid Hibe Hm HRf
                (eq_trans Hcd Hk) Henc Hout)
      as (s2 & ft & EF & Hi2 & Hw2 & Hf2).
    destruct Herr as [-> | (Hrest & Hneof & Hueof)].
    + (* more frames may follow *)
      cbn [errors_Is]. unfold bind. rewrite EF.
      destruct (IH fuel s2 ltac:(lia) Hi2 Hf2) as (s3 & t3 & -> & Hw3).
      eexists _, _. split; [reflexivity|].
      rewrite Hw3, Hw2. cbn [concat]. rewrite <- app_assoc. reflexivity.
    + (* the decoder marked the frame as the last one *)
      rewrite Hneof, Hueof. unfold bind. rewrite EF.
      assert (frames = []) as ->.
      { destruct HF as [|d2 f2 ? ? Hf2' _]; [reflexivity|exfalso].
        cbn [concat map] in Hrest. apply app_eq_nil in Hrest as (Hnil & _).
        destruct Hf2' as (Hmd2 & _).
        apply (wire_not_nil (world s) f2); [|exact Hnil].
        rewrite Hmd2, HR. exact HuR. }
      inversion HF; subst.
      assert (Decrypt_loop lib fuel ctxD decoder later decrypter armor true s2
              = (Returned tt, s2, [])) as -> by (destruct fuel; reflexivity).
      eexists _, _. split; [reflexivity|].
      rewrite Hw2. cbn [concat]. rewrite app_nil_r. reflexivity.
Qed.

(** C1.  Let [EncryptWithRound] return nil on the plaintext [p] for the
    round [R], having written the bytes [c]; let the codec, the cipher,
    the points and identity-based encryption keep the contracts stated
    above, and let the network later report [R] ready with a signature
    that verifies under the chain public key.  Then [Decrypt], given
    [c] and fuel for one frame more than [p] has chunks, returns nil
    and has written exactly [p], whatever the length of [p]. *)
Theorem Decrypt_EncryptWithRound fuelE sE sE' tE (p c : bytes) fuelD sD :
  is_uint64 R ->
  input sE = bytes_Reader p ->
  EncryptWithRound lib fuelE ctxE encoder earlier encrypter R armor sE
  = (Returned tt, sE', tE) ->
  written (output sE') = written (output sE) ++ c ->
  input sD = bytes_Reader c ->
  failing (output sD) = None ->
  Z.of_nat (length p) / 65536 + 1 < Z.of_nat fuelD ->
  exists sD' tD,
    Decrypt lib fuelD ctxD decoder later decrypter armor sD
    = (Returned tt, sD', tD)
    /\ written (output sD') = written (output sD) ++ p.
Proof.
  intros HuR HinE HE Hc HinD Hout Hfuel.
  pose proof chunkSize_pos as Hpos. pose proof chunkSize_65536 as Hcs.
  rewrite EncryptWithRound_encrypt in HE.
  apply encrypt_Returned in HE
      as (b & pk & ct & kp & s0 & t4 & w1 & w1' & w2 & w2'
          & Hpk & Hibe & Hm & Hi0 & Ho0 & EL & _).
  apply PublicKey_earlier in Hpk as ->.
  rewrite <- Hi0 in HinE.
  destruct (encrypt_loop_chunks _ _ _ _ _ _ _ _ _ _ _ HinE EL) as (_ & Hok).
  destruct (Hok eq_refl) as (_ & HF).
  pose proof (encrypt_loop_output _ _ _ _ wire _ _ _ _ _ _ Encode_wire EL)
    as Hw.
  rewrite Ho0, Hc in Hw. apply app_inv_head in Hw. subst c.
  destruct (chunks_of_spec chunkSize p Hpos) as (Hconcat & Hlen & _).
  assert (length (encoded t4) < fuelD)%nat as Hlt.
  { rewrite <- (Forall2_length HF), Hlen.
    rewrite <- Hcs, <- Nat2Z.inj_div in Hfuel.
    assert ((length p + (chunkSize - 1)) / chunkSize
            <= length p / chunkSize + 1)%nat; [|lia].
    replace (length p / chunkSize + 1)%nat
      with ((length p + 1 * chunkSize) / chunkSize)%nat
      by (rewrite Nat.div_add by lia; reflexivity).
    apply Nat.Div0.div_le_mono. lia. }
  match type of HF with
  | Forall2 (frame_of _ _ ?ci) _ _ =>
      destruct (Decrypt_loop_roundtrip
                  _ ct kp _ w2 w2' ci HuR eq_refl Hibe Hm eq_refl eq_refl
                  _ _ HF fuelD sD Hlt HinD Hout)
        as (sD' & tD & ED & HwD)
  end.
  exists sD', tD. split; [exact ED|].
  rewrite HwD, Hconcat. reflexivity.
Qed.

End Roundtrip.


(** ** The small instance keeps the contracts *)

Global Opaque SHA256.Sum256.

Lemma bytes_eqb_refl (a : bytes) : Toy.bytes_eqb a a = true.
Proof.
  induction a as [|x a IH]; [reflexivity|].
  cbn. rewrite IH, andb_true_r. apply Byte.byte_dec_lb. reflexivity.
Qed.

Lemma Toy_get_put_bytes (bs rest : bytes) :
  Toy.get_bytes (Toy.put_bytes bs ++ rest) = Some (bs, rest).
Proof.
  unfold Toy.put_bytes. induction bs as [|b bs IH]; [reflexivity|].
  cbn [flat_map app Toy.get_bytes]. rewrite <- !app_assoc in *.
  cbn [app] in *. rewrite IH. reflexivity.
Qed.

Lemma Toy_parse_wire (ci : CipherInfo) (armor : bool) (rest : bytes) :
  is_uint64 (RoundNumber (CI_MetaData ci)) ->
  Toy.parse (Toy.wire ci armor ++ rest) armor = Some (ci, rest).
Proof.
  intros Hu. destruct ci as [[r ch] [kp v w] cd]. cbn [RoundNumber CI_MetaData] in Hu.
  unfold Toy.wire, Toy.parse.
  cbn [CI_MetaData CI_CipherDEK CipherData RoundNumber ChainHash KyberPoint
       CipherV CipherW app].
  assert (Byte.eqb (Toy.flag armor) (Toy.flag armor) = true) as ->
      by (apply Byte.byte_dec_lb; reflexivity).
  rewrite <- !app_assoc.
  change (firstn 8 (RoundToBytes r ++ ?l)) with (RoundToBytes r).
  change (skipn 8 (RoundToBytes r ++ ?l)) with l.
  rewrite RoundToBytes_value by exact Hu.
  rewrite !Toy_get_put_bytes, string_of_list_byte_of_string. reflexivity.
Qed.

Lemma Toy_Encode_wire o ci a (w : Toy.World) o' w' :
  Encode Toy.encoder o ci a w = (None, o', w') ->
  written o' = written o ++ Toy.wire ci a.
Proof.
  cbn. unfold io_Write. destruct (failing o) as [[k e]|].
  - destruct (length (Toy.wire ci a) <=? k)%nat; intros H;
      [injection H as <- _; reflexivity | discriminate H].
  - intros H. injection H as <- _. reflexivity.
Qed.

Lemma Toy_Decode_wire ci a rest (w : Toy.World) :
  is_uint64 (RoundNumber (CI_MetaData ci)) ->
  exists err w',
    Decode Toy.decoder (bytes_Reader (Toy.wire ci a ++ rest)) a w
    = (((ci, err), bytes_Reader rest), w')
    /\ (err = None
        \/ (rest = [] /\ errors_Is err EOF = false
            /\ errors_Is err ErrUnexpectedEOF = true)).
Proof.
  intros Hu. exists None, (S w). split; [|left; reflexivity].
  cbn [Decode Toy.decoder bytes_Reader pending ending].
  rewrite (Toy_parse_wire ci a rest Hu). reflexivity.
Qed.

Lemma Toy_Decode_end a (w : Toy.World) :
  exists ci err r' w',
    Decode Toy.decoder (bytes_Reader []) a w = (((ci, err), r'), w')
    /\ errors_Is err EOF = true.
Proof. do 4 eexists. split; reflexivity. Qed.

Lemma Toy_Decrypt_Encrypt key plainData (w : Toy.World) cipherData w' :
  Encrypt Toy.encrypter key plainData w = (inl cipherData, w') ->
  forall w2, exists w2',
    Decrypt_ Toy.decrypter key cipherData w2 = (inl plainData, w2').
Proof.
  cbn. intros H w2. injection H as <- _. exists (S w2).
  rewrite firstn_app, Nat.sub_diag, firstn_all, firstn_O, app_nil_r.
  rewrite bytes_eqb_refl.
  rewrite skipn_app, Nat.sub_diag, skipn_all. reflexivity.
Qed.

Lemma Toy_ibe_Decrypt_Encrypt id msg (w : Toy.World) c w' :
  CalculateEncryptionID 1 = inl id ->
  ibe_Encrypt Toy.lib Toy.chain_key id msg w = (inl c, w') ->
  ibe_Decrypt Toy.lib Toy.chain_key Toy.signature_1 c = inl msg.
Proof.
  intros Hid H. cbn in H. injection H as <- _.
  assert (Toy.signature_1 = Toy.sign id) as ->
      by (injection Hid as <-; reflexivity).
  cbn [ibe_Decrypt Toy.lib W U V].
  rewrite !bytes_eqb_refl. reflexivity.
Qed.

Lemma Toy_Unmarshal_Marshal (p : Toy.G1) b :
  G1_MarshalBinary Toy.lib p = inl b -> G1_UnmarshalBinary Toy.lib b = inl p.
Proof. cbn. intros H. injection H as <-. reflexivity. Qed.

Lemma Toy_PublicKey_background latest (w : Toy.World) p w' :
  PublicKey (Toy.network latest) Toy.background w = (inl p, w') ->
  p = Toy.chain_key.
Proof. cbn. intros H. injection H as <- _. reflexivity. Qed.

Lemma Toy_PublicKey_later latest (w : Toy.World) :
  exists w',
    PublicKey (Toy.network latest) Toy.background w = (inl Toy.chain_key, w').
Proof. exists (S w). reflexivity. Qed.

Lemma Toy_ready_later (w : Toy.World) :
  exists w',
    IsReadyToDecrypt (Toy.network 1) Toy.background 1 w
    = ((Toy.signature_1, true), w').
Proof. exists (S w). reflexivity. Qed.


(** ** The theorems on "hello", sealed for round 1 *)

Ltac by_running :=
  vm_compute; first [ reflexivity | repeat split; reflexivity ].

Lemma Decrypt_too_early_witness :
  fst (fst (Toy.opening Toy.background 0))
  = Failed (Errorf "decrypt dek" ErrTooEarly)
  /\ errors_Is' (Errorf "decrypt dek" ErrTooEarly) ErrTooEarly = true
  /\ @nil (Call Toy.G1 Toy.G2) = []
  /\ exists (h : list (Call Toy.G1 Toy.G2)) info err,
      [Call_Decode false Toy.hello_frame None]
      = h ++ [Call_Decode false info err]
      /\ 1 = RoundNumber (CI_MetaData info)
      /\ (no_Write h = true ->
          output (snd (fst (Toy.opening Toy.background 0)))
          = output (Toy.start Toy.ciphertext))
      /\ (h = [] ->
          output (snd (fst (Toy.opening Toy.background 0)))
          = output (Toy.start Toy.ciphertext)).
Proof.
  apply (Decrypt_too_early
           Toy.lib Toy.background Toy.decoder (Toy.network 0) Toy.decrypter
           false 5 (Toy.start Toy.ciphertext)
           (fst (fst (Toy.opening Toy.background 0)))
           (snd (fst (Toy.opening Toy.background 0)))
           (snd (Toy.opening Toy.background 0))
           [Call_Decode false Toy.hello_frame None] Toy.background 1 [] []).
  - by_running.
  - by_running.
Defined.


(** The signature of round 2 does not open a frame of round 1: the
    verifier rejects it and [ibe.Decrypt] is not called. *)
Example wrong_round_signature_rejected :
  fst (fst Toy.opening_confused)
  = Failed (Errorf "decrypt dek"
                   (Errorf "verify beacon" (errors_New "invalid signature")))
  /\ snd Toy.opening_confused
     = [ Call_Decode false Toy.hello_frame None;
         Call_IsReadyToDecrypt
           Toy.background 1 (Toy.sign (DigestMessage Toy.unchained 2 [])) true;
         Call_G2_UnmarshalBinary
           (Toy.sign (DigestMessage Toy.unchained 2 []))
           (inl (Toy.sign (DigestMessage Toy.unchained 2 [])));
         Call_G1_UnmarshalBinary Toy.chain_key (inl Toy.chain_key);
         Call_PublicKey Toy.background (inl Toy.chain_key);
         Call_VerifyBeacon
           Toy.unchained
           {| PreviousSig := []; Round := 1;
              Signature := Toy.sign (DigestMessage Toy.unchained 2 []) |}
           Toy.chain_key (Some (errors_New "invalid signature")) ]
  /\ written (output (snd (fst Toy.opening_confused))) = [].
Proof. by_running. Qed.

Lemma VerifyBeacon_scheme_fixed_witness :
  let b := {| PreviousSig := []; Round := 1; Signature := Toy.signature_1 |} in
  Toy.unchained = {| ID := UnchainedSchemeID; DecouplePrevSig := true |}
  /\ PreviousSig b = []
  /\ (exists info,
         last_decoded (firstn 5 (snd (Toy.opening Toy.background 1)))
         = Some info
         /\ Round b = RoundNumber (CI_MetaData info))
  /\ (forall prevSig,
         DigestMessage Toy.unchained (Round b) prevSig
         = SHA256.Sum256 (RoundToBytes (Round b)))
  /\ CalculateEncryptionID (Round b)
     = inl (DigestMessage Toy.unchained (Round b) (PreviousSig b)).
Proof.
  intros b.
  apply (VerifyBeacon_scheme_fixed
           Toy.lib Toy.background Toy.decoder (Toy.network 1) Toy.decrypter
           false 5 (Toy.start Toy.ciphertext)
           (fst (fst (Toy.opening Toy.background 1)))
           (snd (fst (Toy.opening Toy.background 1)))
           (snd (Toy.opening Toy.background 1))
           (firstn 5 (snd (Toy.opening Toy.background 1)))
           Toy.unchained b Toy.chain_key None
           (skipn 6 (snd (Toy.opening Toy.background 1)))).
  - by_running.
  - by_running.
Defined.

Lemma Decrypt_unexpected_EOF_frame_witness :
  let s := Toy.start Toy.ciphertext in
  Decode Toy.last_marking_decoder (input s) false (world s)
  = (((Toy.hello_frame, Some ErrUnexpectedEOF), bytes_Reader []), 1%nat)
  /\ exists s2 ft,
      Decrypt Toy.lib 1 Toy.background Toy.last_marking_decoder
              (Toy.network 1) Toy.decrypter false s
      = (Returned tt, s2,
         Call_Decode false Toy.hello_frame (Some ErrUnexpectedEOF) :: ft)
      /\ written (output s2) = Toy.hello.
Proof.
  intros s.
  assert (Decode Toy.last_marking_decoder (input s) false (world s)
          = (((Toy.hello_frame, Some ErrUnexpectedEOF), bytes_Reader []),
             1%nat)) as ED by by_running.
  split; [exact ED|].
  destruct (Decrypt_unexpected_EOF_frame
              Toy.lib Toy.background Toy.last_marking_decoder (Toy.network 1)
              Toy.decrypter false 0 s _ _ _ _ ED) as (_ & _ & H).
  match type of H with
  | _ -> _ -> forall rf s2 ft, Decrypt_frame ?l ?c ?n ?d ?i ?s1 = _ -> _ =>
      set (F := Decrypt_frame l c n d i s1) in *;
      destruct (H eq_refl eq_refl (fst (fst F)) (snd (fst F)) (snd F))
        as (Hrun & _); [by_running|]
  end.
  exists (snd (fst F)), (snd F). split.
  - rewrite Hrun. by_running.
  - by_running.
Defined.

Lemma network_failure_ends_session_witness :
  @nil (Call Toy.G1 Toy.G2) = []
  /\ fst (fst (Toy.opening Toy.cancelled 1))
     = Failed (Errorf "decrypt dek" ErrTooEarly).
Proof.
  apply (network_failure_ends_session
           Toy.lib Toy.cancelled Toy.encoder Toy.decoder (Toy.network 1)
           Toy.encrypter Toy.decrypter false 5 1 0
           (Toy.start Toy.ciphertext)
           (fst (fst (Toy.opening Toy.cancelled 1)))
           (snd (fst (Toy.opening Toy.cancelled 1)))
           (snd (Toy.opening Toy.cancelled 1))
           ltac:(right; right; by_running)
           [Call_Decode false Toy.hello_frame None]
           (Call_IsReadyToDecrypt Toy.cancelled 1 [] false) []).
  by_running.
Defined.

(** Under a cancelled context the fetch of the public key fails with the
    cancellation error, and so does the session. *)
Example cancelled_PublicKey_fails_encryption :
  EncryptWithRound Toy.lib 5 Toy.cancelled Toy.encoder (Toy.network 0)
                   Toy.encrypter 1 false (Toy.start Toy.hello)
  = (Failed (Errorf "public key" Canceled),
     {| world := 2%nat; input := bytes_Reader Toy.hello;
        output := new_Writer |},
     [ Call_rand_Read 32 (inl (repeat x2a 32));
       Call_PublicKey Toy.cancelled (inr Canceled) ]).
Proof. by_running. Qed.

(** C9, as the specification has it, fails for the readiness call: under
    a cancelled context the network can only report that the round is not
    ready, and the session returns [ErrTooEarly], which is not the
    cancellation error. *)
Lemma cancelled_readiness_is_too_early :
  snd (Toy.opening Toy.cancelled 1)
  = [ Call_Decode false Toy.hello_frame None;
      Call_IsReadyToDecrypt Toy.cancelled 1 [] false ]
  /\ failed_by_cancellation
       (Call_IsReadyToDecrypt (G1 := Toy.G1) (G2 := Toy.G2)
                              Toy.cancelled 1 [] false) = true
  /\ fst (fst (Toy.opening Toy.cancelled 1))
     = Failed (Errorf "decrypt dek" ErrTooEarly)
  /\ errors_Is' (Errorf "decrypt dek" ErrTooEarly) Canceled = false
  /\ ~ cancellation_surfaces (fst (fst (Toy.opening Toy.cancelled 1)))
                             (snd (Toy.opening Toy.cancelled 1)).
Proof.
  split; [by_running|]. split; [reflexivity|]. split; [by_running|].
  split; [reflexivity|].
  intros H.
  destruct (H [Call_Decode false Toy.hello_frame None]
              (Call_IsReadyToDecrypt Toy.cancelled 1 [] false) [])
    as ((e & He & Hc & _) & _); [by_running | reflexivity |].
  vm_compute in He. injection He as <-. discriminate Hc.
Qed.

Lemma encrypt_key_material_once_witness :
  exists rr t1,
    snd Toy.sealing = Call_rand_Read 32 rr :: t1
    /\ filter is_rand_Read t1 = []
    /\ (forall e, rr = inr e ->
                  t1 = []
                  /\ fst (fst Toy.sealing) = Failed (Errorf "random key" e))
    /\ (length (filter is_ibe_Encrypt (snd Toy.sealing)) <= 1)%nat
    /\ (fst (fst Toy.sealing) = Returned tt
        \/ existsb chunk_call (snd Toy.sealing) = true ->
        length (filter is_ibe_Encrypt (snd Toy.sealing)) = 1%nat)
    /\ (forall pre c post,
           snd Toy.sealing = pre ++ c :: post ->
           is_rand_Read c || is_ibe_Encrypt c = true ->
           existsb chunk_call pre = false)
    /\ exists dek md cd,
        length dek = 32%nat
        /\ (forall b, rr = inl b ->
                      dek = firstn 32 b ++ repeat x00 (32 - length b)
                      /\ (length b = 32%nat -> dek = b))
        /\ RoundNumber md = 1
        /\ (forall master id' msg rc,
               In (Call_ibe_Encrypt master id' msg rc) (snd Toy.sealing) ->
               msg = dek /\ id' = Toy.identity_1)
        /\ (forall key plainData rc,
               In (Call_Encrypt key plainData rc) (snd Toy.sealing) ->
               key = dek)
        /\ (forall ci a e,
               In (Call_Encode ci a e) (snd Toy.sealing) ->
               CI_MetaData ci = md /\ CI_CipherDEK ci = cd).
Proof.
  apply (encrypt_key_material_once
           Toy.lib Toy.background Toy.encoder (Toy.network 0) Toy.encrypter
           1 Toy.identity_1 false 5 (Toy.start Toy.hello)
           (fst (fst Toy.sealing)) (snd (fst Toy.sealing)) (snd Toy.sealing)).
  by_running.
Defined.

Lemma encrypt_frame_count_witness :
  ((Z.of_nat (length Toy.hello) / 65536 < Z.of_nat 5) ->
   fst (fst Toy.sealing) <> OutOfFuel)
  /\ (Toy.hello = [] ->
      encoded (snd Toy.sealing) = []
      /\ output (snd (fst Toy.sealing)) = output (Toy.start Toy.hello))
  /\ (fst (fst Toy.sealing) = Returned tt ->
      Z.of_nat (length (encoded (snd Toy.sealing)))
      = ceil_div (Z.of_nat (length Toy.hello)) 65536
      /\ concat (encrypted (snd Toy.sealing)) = Toy.hello
      /\ (forall init lst,
             encrypted (snd Toy.sealing) = init ++ [lst] ->
             Forall (fun c => Z.of_nat (length c) = 65536) init)
      /\ Forall (fun c => 1 <= Z.of_nat (length c) <= 65536)
                (encrypted (snd Toy.sealing))
      /\ exists dek,
          Forall2 (fun data ci =>
                     exists w w',
                       Encrypt Toy.encrypter dek data w
                       = (inl (CipherData ci), w'))
                  (encrypted (snd Toy.sealing)) (encoded (snd Toy.sealing))).
Proof.
  apply (encrypt_frame_count
           Toy.lib Toy.background Toy.encoder (Toy.network 0) Toy.encrypter
           1 Toy.identity_1 false 5 Toy.hello (Toy.start Toy.hello)
           (fst (fst Toy.sealing)) (snd (fst Toy.sealing)) (snd Toy.sealing)).
  - reflexivity.
  - by_running.
Defined.

Lemma encrypt_frames_nonempty_witness :
  frames_of_nonempty_chunks (snd Toy.sealing).
Proof.
  apply (encrypt_frames_nonempty
           Toy.lib Toy.background Toy.encoder (Toy.network 0) Toy.encrypter
           1 Toy.identity_1 false 5 Toy.hello (Toy.start Toy.hello)
           (fst (fst Toy.sealing)) (snd (fst Toy.sealing)) (snd Toy.sealing)).
  - reflexivity.
  - by_running.
Defined.

(** C10, as the specification has it, fails when the source itself fails
    with [ErrUnexpectedEOF] and has no byte left: [io.ReadFull] returns
    that error with zero bytes, the loop takes it for the last chunk, and
    a frame of the empty chunk is encoded before [encrypt] returns nil. *)
Lemma cut_short_source_empty_frame :
  fst (fst Toy.sealing_cut_short) = Returned tt
  /\ skipn 4 (snd Toy.sealing_cut_short)
     = [ Call_ReadFull [] (Some ErrUnexpectedEOF);
         Call_Encrypt (repeat x2a 32) [] (inl (repeat x2a 32));
         Call_Encode Toy.empty_frame false None ]
  /\ ~ frames_of_nonempty_chunks (snd Toy.sealing_cut_short).
Proof.
  split; [by_running|]. split; [by_running|].
  intros H.
  destruct (H (firstn 6 (snd Toy.sealing_cut_short)) Toy.empty_frame false
              None []) as (h & data & rerr & key & E & Hlen); [by_running|].
  apply (f_equal (@rev _)) in E. rewrite rev_app_distr in E.
  vm_compute in E. injection E as E _. inversion E; subst key data.
  cbn in Hlen. lia.
Qed.

Lemma Decrypt_EncryptWithRound_witness :
  exists sD' tD,
    Decrypt Toy.lib 5 Toy.background Toy.decoder (Toy.network 1)
            Toy.decrypter false (Toy.start Toy.ciphertext)
    = (Returned tt, sD', tD)
    /\ written (output sD')
       = written (output (Toy.start Toy.ciphertext)) ++ Toy.hello.
Proof.
  pose (E := EncryptWithRound Toy.lib 5 Toy.background Toy.encoder
                              (Toy.network 0) Toy.encrypter 1 false
                              (Toy.start Toy.hello)).
  apply (Decrypt_EncryptWithRound
           Toy.lib Toy.encoder Toy.decoder Toy.encrypter Toy.decrypter
           (Toy.network 0) (Toy.network 1) Toy.background Toy.background
           false 1 Toy.wire
           Toy_Encode_wire Toy_Decode_wire Toy_Decode_end Toy_Decrypt_Encrypt
           Toy_Unmarshal_Marshal
           Toy.chain_key Toy.signature_1 Toy.signature_1
           (Toy_PublicKey_background 0) (Toy_PublicKey_later 1)
           Toy_ready_later
           ltac:(by_running) ltac:(by_running)
           Toy_ibe_Decrypt_Encrypt
           5 (Toy.start Toy.hello) (snd (fst E)) (snd E)
           Toy.hello Toy.ciphertext 5 (Toy.start Toy.ciphertext)).
  - unfold is_uint64. lia.
  - reflexivity.
  - by_running.
  - by_running.
  - reflexivity.
  - reflexivity.
  - by_running.
Defined.

(** ** Sessions stop at the first failure *)

Section Fails_fast.

Context {G1 G2 : Type}.
Variable failure : Call G1 G2 -> option error.
Implicit Types (c : Call G1 G2) (t : list (Call G1 G2)).

Local Abbreviation quiet := (Forall (fun c => failure c = None)).

Lemma quiet_no_failure t pre c post e :
  quiet t -> t = pre ++ c :: post -> failure c = Some e -> False.
Proof.
  intros Hq -> Hf. rewrite Forall_forall in Hq.
  rewrite (Hq c) in Hf by (apply in_elt). discriminate Hf.
Qed.

Lemma fails_fast_quiet {A} (r : outcome A) t :
  quiet t -> (forall e, r <> Failed e) -> fails_fast failure r t.
Proof.
  intros Hq Hr. split.
  - intros pre c post e Ht Hf. destruct (quiet_no_failure _ _ _ _ _ Hq Ht Hf).
  - intros e He. destruct (Hr e He).
Qed.

Lemma fails_fast_last {A} t c e :
  quiet t -> failure c = Some e ->
  fails_fast failure (@Failed A e) (t ++ [c]).
Proof.
  intros Hq Hc. split.
  - intros pre c' post e' Ht Hf.
    destruct (app_eq_split _ _ _ _ _ Ht) as [(q & E & _) | (p & -> & E)].
    + destruct (quiet_no_failure _ _ _ _ _ Hq E Hf).
    + destruct p as [|x p]; [|destruct p; discriminate E].
      injection E as <- <-. rewrite Hc in Hf. injection Hf as <-. auto.
  - intros e' He. injection He as <-. eauto.
Qed.

Lemma fails_fast_app {A} (r : outcome A) t1 t2 :
  quiet t1 -> fails_fast failure r t2 -> fails_fast failure r (t1 ++ t2).
Proof.
  intros Hq (H1 & H2). split.
  - intros pre c post e Ht Hf.
    destruct (app_eq_split _ _ _ _ _ Ht) as [(q & E & _) | (p & -> & E)].
    + destruct (quiet_no_failure _ _ _ _ _ Hq E Hf).
    + eapply H1; eauto.
  - intros e He. destruct (H2 e He) as (pre & c & -> & Hc).
    exists (t1 ++ pre), c. rewrite app_assoc. auto.
Qed.

(** Only the error counts, not the type of what is returned. *)
Lemma fails_fast_Failed {A B} e t :
  fails_fast failure (@Failed A e) t -> fails_fast failure (@Failed B e) t.
Proof.
  intros (H1 & H2). split.
  - intros pre c post e' Ht Hf.
    destruct (H1 _ _ _ _ Ht Hf) as (-> & He). injection He as <-. auto.
  - intros e' He. injection He as <-. apply H2. reflexivity.
Qed.

End Fails_fast.

(** The calls of an explicit list, one after the other. *)
Ltac quiet_calls := repeat constructor; cbn; auto.

Ltac explicit_fails_fast :=
  first [ apply fails_fast_quiet; [quiet_calls | discriminate]
        | apply (fails_fast_last _ []); [quiet_calls | reflexivity]
        | apply (fails_fast_last _ [_]); [quiet_calls | reflexivity]
        | apply (fails_fast_last _ [_; _]); [quiet_calls | reflexivity]
        | apply (fails_fast_last _ [_; _; _]); [quiet_calls | reflexivity]
        | apply (fails_fast_last _ [_; _; _; _]); [quiet_calls | reflexivity]
        | apply (fails_fast_last _ [_; _; _; _; _]); [quiet_calls | reflexivity]
        | apply (fails_fast_last _ [_; _; _; _; _; _]);
          [quiet_calls | reflexivity]
        | apply (fails_fast_last _ [_; _; _; _; _; _; _]);
          [quiet_calls | reflexivity] ].

Section Encrypt_failures.

Context {World G1 G2 : Type}.
Variable lib : Library World G1 G2.
Variables (ctx : context_Context) (encoder : Encoder World)
          (network : Network World G1) (encrypter : Encrypter World)
          (armor : bool).

Implicit Types (s : State World) (t : list (Call G1 G2)).

Local Abbreviation quiet :=
  (Forall (fun c : Call G1 G2 => encrypt_failure c = None)).

Lemma encrypt_chunk_failure dek cipherInfo data s r s' t :
  encrypt_chunk encoder encrypter dek cipherInfo armor data s = (r, s', t) ->
  fails_fast encrypt_failure r t
  /\ (forall ci, r = Returned ci -> quiet t)
  /\ Forall (fun c => is_ReadFull c = false /\ is_network_call c = false) t
  /\ (forall ci a e, In (Call_Encode ci a e) t -> a = armor).
Proof.
  intros H. chunk_paths H.
  all: split; [explicit_fails_fast|].
  all: split; [intros; try discriminate; quiet_calls|].
  all: split; [quiet_calls|].
  all: intros ci a e' Hin; in_cases.
  all: match goal with
       | E : _ = Call_Encode _ _ _ |- _ => injection E as _ <- _
       end; reflexivity.
Qed.

Lemma encrypt_loop_failure fuel dek cipherInfo done s r s' t :
  encrypt_loop fuel encoder encrypter dek cipherInfo armor done s
  = (r, s', t) ->
  fails_fast encrypt_failure r t
  /\ Forall (fun c => is_network_call c = false) t
  /\ (forall ci a e, In (Call_Encode ci a e) t -> a = armor).
Proof.
  revert cipherInfo done s r s' t.
  induction fuel as [|fuel IH]; intros cipherInfo done s r s' t H.
  { apply encrypt_loop_stop in H as (-> & _ & ->); [|auto].
    split; [|split; [constructor | intros ci a e []]].
    apply fails_fast_quiet; [constructor | destruct done; discriminate]. }
  destruct done.
  { apply encrypt_loop_stop in H as (-> & _ & ->); [|auto].
    split; [|split; [constructor | intros ci a e []]].
    apply fails_fast_quiet; [constructor | discriminate]. }
  apply encrypt_loop_step in H as (data & err & i & ER & H).
  destruct H as [(Heof & -> & -> & ->)
                | [(e & -> & Heof & Hueof & -> & -> & ->)
                  | (Heof & Hgo & rc & s2 & ct & EC & H)]].
  - (* the end of the input *)
    split; [|split; [quiet_calls | intros ci a e Hin; in_cases]].
    apply fails_fast_quiet; [|discriminate].
    destruct err as [e|]; [|discriminate Heof].
    cbn in Heof. quiet_calls. unfold is_end_of_input. rewrite Heof.
    reflexivity.
  - (* the read failed *)
    split; [|split; [quiet_calls | intros ci a e' Hin; in_cases]].
    apply (fails_fast_last _ []); [constructor|].
    cbn in Heof, Hueof |- *. unfold is_end_of_input.
    rewrite Heof, Hueof. reflexivity.
  - (* a chunk *)
    assert (encrypt_failure (Call_ReadFull (G1:=G1) (G2:=G2) data err) = None)
      as Hread.
    { destruct Hgo as [-> | Hueof]; [reflexivity|].
      destruct err as [e|]; [|reflexivity].
      cbn in Hueof |- *. unfold is_end_of_input. rewrite Hueof, orb_true_r.
      reflexivity. }
    destruct (encrypt_chunk_failure _ _ _ _ _ _ _ EC)
      as (Hff & Hq & Hnr & Harm).
    assert (Forall (fun c : Call G1 G2 => is_network_call c = false) ct)
      as Hnn by (eapply Forall_impl; [|exact Hnr]; cbn; intros c []; auto).
    destruct rc as [ci'|e|].
    + destruct H as (t3 & EL & ->).
      destruct (IH _ _ _ _ _ _ EL) as (Hff3 & Hnn3 & Harm3).
      split; [|split].
      * apply (fails_fast_app _ _ (_ :: ct) t3); [|exact Hff3].
        constructor; eauto.
      * constructor; [reflexivity|]. apply Forall_app. auto.
      * intros ci a e [Hin|Hin]; [discriminate Hin|].
        apply in_app_or in Hin as [Hin|Hin]; eauto.
    + destruct H as (-> & -> & ->).
      split; [|split].
      * apply (fails_fast_app _ _ [_] ct).
        -- constructor; [exact Hread | constructor].
        -- exact (fails_fast_Failed _ _ _ Hff).
      * constructor; [reflexivity | exact Hnn].
      * intros ci a e' [Hin|Hin]; [discriminate Hin | eauto].
    + destruct (encrypt_chunk_basics _ _ _ _ _ _ _ _ _ _ EC)
        as (_ & Hno & _).
      destruct (Hno eq_refl).
Qed.

End Encrypt_failures.

(** ** What a session of [encrypt] calls, and with what *)

Lemma filter_quiet {A} (f : A -> bool) (l : list A) :
  Forall (fun x => f x = false) l -> filter f l = [].
Proof.
  induction 1 as [|x l Hx _ IH]; [reflexivity|].
  cbn. rewrite Hx. exact IH.
Qed.

Lemma fill_exact (b : bytes) :
  length b = fileKeySize -> fill (make fileKeySize) b = b.
Proof.
  intros Hl. unfold fill, make. rewrite repeat_length, Hl.
  rewrite <- Hl at 1. rewrite firstn_all.
  rewrite skipn_all2 by (rewrite repeat_length; apply Nat.le_refl).
  apply app_nil_r.
Qed.

Section Encrypt_sessions.

Context {World G1 G2 : Type}.
Variable lib : Library World G1 G2.
Variables (ctx : context_Context) (encoder : Encoder World)
          (network : Network World G1) (encrypter : Encrypter World)
          (armor : bool).

Implicit Types (s : State World) (t : list (Call G1 G2)).

Lemma encrypt_session fuel roundNumber id s r s' t :
  encrypt lib fuel ctx encoder network encrypter roundNumber id armor s
  = (r, s', t) ->
  fails_fast encrypt_failure r t
  /\ (filter is_network_call t = []
      \/ exists rp, filter is_network_call t = [Call_PublicKey ctx rp])
  /\ (forall master id' msg rc,
         In (Call_ibe_Encrypt master id' msg rc) t ->
         id' = id /\ In (Call_PublicKey ctx (inl master)) t)
  /\ (forall ci a e,
         In (Call_Encode ci a e) t ->
         a = armor
         /\ RoundNumber (CI_MetaData ci) = roundNumber
         /\ (exists w, ChainHash (CI_MetaData ci) = net_ChainHash network w)
         /\ exists b master c kp t4,
             t = [ Call_rand_Read 32 (inl b);
                   Call_PublicKey ctx (inl master);
                   Call_ibe_Encrypt master id (fill (make 32) b) (inl c);
                   Call_G1_MarshalBinary (U c) (inl kp) ] ++ t4
             /\ CI_CipherDEK ci
                = {| KyberPoint := kp; CipherV := V c; CipherW := W c |}).
Proof.
  intros H.
  destruct (encrypt_setup _ _ _ _ _ _ _ _ _ _ _ _ _ H) as (rr & t1 & -> & H1).
  destruct rr as [b|e].
  2:{ destruct H1 as (-> & -> & _).
      split; [explicit_fails_fast|]. split; [left; reflexivity|].
      split; intros; in_cases. }
  cbn zeta in H1. destruct H1 as (rp & t2 & -> & H2).
  destruct rp as [pk|e].
  2:{ destruct H2 as (-> & -> & _).
      split; [explicit_fails_fast|]. split; [right; eexists; reflexivity|].
      split; intros; in_cases. }
  destruct H2 as (rc & t3 & -> & H3).
  destruct rc as [ct|e].
  2:{ destruct H3 as (-> & -> & _).
      split; [explicit_fails_fast|]. split; [right; eexists; reflexivity|].
      split; intros; in_cases.
      match goal with
      | E : _ = Call_ibe_Encrypt _ _ _ _ |- _ => injection E as <- <- _ _
      end. cbn; auto. }
  destruct H3 as (rm & t4 & -> & H4).
  destruct rm as [kp|e].
  2:{ destruct H4 as (-> & -> & _).
      split; [explicit_fails_fast|]. split; [right; eexists; reflexivity|].
      split; intros; in_cases.
      match goal with
      | E : _ = Call_ibe_Encrypt _ _ _ _ |- _ => injection E as <- <- _ _
      end. cbn; auto. }
  destruct H4 as (s0 & _ & _ & EL).
  destruct (encrypt_loop_failure _ _ _ _ _ _ _ _ _ _ _ EL) as (Hff & Hnn & Harm).
  destruct (encrypt_loop_calls _ _ _ _ _ _ _ _ _ _ _ EL) as (Hcalls & _).
  rewrite forallb_forall in Hcalls.
  split; [|split; [|split]].
  - apply (fails_fast_app _ _ [_; _; _; _] t4); [quiet_calls | exact Hff].
  - right. exists (inl pk). cbn. rewrite (filter_quiet _ _ Hnn). reflexivity.
  - intros master id' msg rc' Hin.
    destruct Hin as [Hin|[Hin|[Hin|[Hin|Hin]]]]; try discriminate Hin.
    + injection Hin as <- <- _ _. cbn; auto.
    + apply Hcalls in Hin. discriminate Hin.
  - intros ci a e Hin.
    destruct Hin as [Hin|[Hin|[Hin|[Hin|Hin]]]]; try discriminate Hin.
    split; [exact (Harm _ _ _ Hin)|].
    apply in_split in Hin as (pre & post & Hin).
    destruct (encrypt_loop_Encode _ _ _ _ _ _ _ _ _ _ _ _ _ _ _ _ EL Hin)
      as (_ & _ & _ & _ & Hm & Hk & _).
    rewrite Hm, Hk. cbn [CI_MetaData CI_CipherDEK RoundNumber ChainHash].
    split; [reflexivity|]. split; [eexists; reflexivity|].
    exists b, pk, ct, kp, t4. split; reflexivity.
Qed.

(** X1.  Every frame a session of [encrypt] hands to the encoder, with
    the armor flag of the session, carries the round number of the
    session, a chain hash of the network, and as wrapped key the point
    and the two strings of the ciphertext that [ibe.Encrypt] returned,
    under the public key of the network and for the identity of the
    session, for the key made of the 32 bytes read from the random source
    (those very bytes when all 32 were read). *)
Theorem encrypt_frames_carry_wrapped_key fuel roundNumber id s r s' t :
  encrypt lib fuel ctx encoder network encrypter roundNumber id armor s
  = (r, s', t) ->
  forall ci a e,
    In (Call_Encode ci a e) t ->
    a = armor
    /\ RoundNumber (CI_MetaData ci) = roundNumber
    /\ (exists w, ChainHash (CI_MetaData ci) = net_ChainHash network w)
    /\ exists b master c kp t4,
        t = [ Call_rand_Read 32 (inl b);
              Call_PublicKey ctx (inl master);
              Call_ibe_Encrypt master id (fill (make 32) b) (inl c);
              Call_G1_MarshalBinary (U c) (inl kp) ] ++ t4
        /\ (length b = 32%nat -> fill (make 32) b = b)
        /\ CI_CipherDEK ci
           = {| KyberPoint := kp; CipherV := V c; CipherW := W c |}.
Proof.
  intros H ci a e Hin.
  destruct (encrypt_session _ _ _ _ _ _ _ H) as (_ & _ & _ & Hframes).
  destruct (Hframes _ _ _ Hin)
    as (Ha & HR & Hh & b & master & c & kp & t4 & Ht & Hk).
  split; [exact Ha|]. split; [exact HR|]. split; [exact Hh|].
  exists b, master, c, kp, t4.
  split; [exact Ht|]. split; [apply fill_exact | exact Hk].
Qed.

(** X2.  A session of [EncryptWithRound] computes the identity itself:
    it never fails with "round by number", the network is asked at most
    once, for the public key, and never for a round; [ibe.Encrypt] gets
    the public key the network returned and, as identity, the 32 bytes
    of the SHA-256 digest of the round number on 8 bytes; every frame
    carries the round number given. *)
Theorem EncryptWithRound_identity fuel roundNumber s r s' t :
  EncryptWithRound lib fuel ctx encoder network encrypter roundNumber armor s
  = (r, s', t) ->
  (forall e, r <> Failed (Errorf "round by number" e))
  /\ (filter is_network_call t = []
      \/ exists rp, filter is_network_call t = [Call_PublicKey ctx rp])
  /\ (forall master id msg rc,
         In (Call_ibe_Encrypt master id msg rc) t ->
         id = SHA256.Sum256 (RoundToBytes roundNumber)
         /\ length id = 32%nat
         /\ In (Call_PublicKey ctx (inl master)) t)
  /\ (forall ci a e,
         In (Call_Encode ci a e) t ->
         RoundNumber (CI_MetaData ci) = roundNumber).
Proof.
  intros H. rewrite EncryptWithRound_encrypt in H.
  destruct (encrypt_session _ _ _ _ _ _ _ H) as (Hff & Hnet & Hibe & Hframes).
  split; [|split; [exact Hnet|split]].
  - intros e ->. destruct Hff as (_ & Hff).
    destruct (Hff _ eq_refl) as (pre & c & _ & Hc).
    destruct c as [ | | | | | | | | | |? [?|]| | | |? ? [?|]| ];
      cbn in Hc; try discriminate Hc;
      repeat match type of Hc with
             | context [match ?x with _ => _ end] => destruct x
             end; discriminate Hc.
  - intros master id msg rc Hin.
    destruct (Hibe _ _ _ _ Hin) as (-> & Hpk).
    split; [reflexivity|]. split; [apply Sum256_length | exact Hpk].
  - intros ci a e Hin. apply (Hframes _ _ _ Hin).
Qed.

(** X3.  A session of [EncryptWithDuration] first asks the network for
    the round and the identity of the duration, once; these are used as
    they come: [ibe.Encrypt] gets that identity and every frame carries
    that round number; the only other call on the network is the fetch
    of the public key, made at most once. *)
Theorem EncryptWithDuration_round_and_identity fuel duration s r s' t :
  EncryptWithDuration lib fuel ctx encoder network encrypter duration armor s
  = (r, s', t) ->
  exists res t',
    t = Call_EncryptionRoundAndID ctx duration res :: t'
    /\ (filter is_network_call t' = []
        \/ exists rp, filter is_network_call t' = [Call_PublicKey ctx rp])
    /\ match res with
       | inr e => t' = [] /\ r = Failed (Errorf "round by duration" e)
       | inl (roundNumber, id) =>
           (forall master id' msg rc,
               In (Call_ibe_Encrypt master id' msg rc) t' ->
               id' = id /\ In (Call_PublicKey ctx (inl master)) t')
           /\ (forall ci a e,
                  In (Call_Encode ci a e) t' ->
                  RoundNumber (CI_MetaData ci) = roundNumber)
       end.
Proof.
  intros H.
  destruct (EncryptWithDuration_cases _ _ _ _ _ _ _ _ _ _ _ _ H)
    as (res & w & _ & Hres).
  destruct res as [[roundNumber id]|e].
  - destruct Hres as (t' & HE & ->).
    destruct (encrypt_session _ _ _ _ _ _ _ HE) as (_ & Hnet & Hibe & Hframes).
    eexists _, t'. split; [reflexivity|]. split; [exact Hnet|].
    split; [exact Hibe|].
    intros ci a e Hin. apply (Hframes _ _ _ Hin).
  - destruct Hres as (-> & _ & ->).
    eexists _, []. split; [reflexivity|]. split; [left; reflexivity|].
    split; reflexivity.
Qed.

(** X4.  A session of [EncryptWithRound] or of [EncryptWithDuration]
    stops at the first call that fails (the resolution of the round, the
    random source, the public key, [ibe.Encrypt], the binary form of the
    point, a read that fails with something else than the end of the
    input, the cipher, the encoder): no call is made after it, and the
    session returns the error of that call behind the message of the
    step.  Conversely an error the session returns is the one of the
    call made last. *)
Theorem encryption_fails_fast fuel roundNumber duration s r s' t :
  EncryptWithRound lib fuel ctx encoder network encrypter roundNumber armor s
  = (r, s', t)
  \/ EncryptWithDuration lib fuel ctx encoder network encrypter duration
                         armor s = (r, s', t) ->
  fails_fast encrypt_failure r t.
Proof.
  intros [H|H].
  - rewrite EncryptWithRound_encrypt in H.
    apply (encrypt_session _ _ _ _ _ _ _ H).
  - destruct (EncryptWithDuration_cases _ _ _ _ _ _ _ _ _ _ _ _ H)
      as (res & w & _ & Hres).
    destruct res as [[R id]|e].
    + destruct Hres as (t' & HE & ->).
      apply (fails_fast_app _ _ [_] t'); [quiet_calls|].
      apply (encrypt_session _ _ _ _ _ _ _ HE).
    + destruct Hres as (-> & _ & ->). explicit_fails_fast.
Qed.

End Encrypt_sessions.

(** ** The reads of a session of [encrypt] *)

Lemma count_app {G1 G2} (f : Call G1 G2 -> bool) (t1 t2 : list (Call G1 G2)) :
  count f (t1 ++ t2) = (count f t1 + count f t2)%nat.
Proof. unfold count. rewrite filter_app, length_app. reflexivity. Qed.

Lemma count_none {G1 G2} (f : Call G1 G2 -> bool) (t : list (Call G1 G2)) :
  Forall (fun c => f c = false) t -> count f t = O.
Proof. intros H. unfold count. rewrite (filter_quiet _ _ H). reflexivity. Qed.

Lemma div_chunk (l n : nat) :
  (0 < n <= l)%nat -> (l / n = (l - n) / n + 1)%nat.
Proof.
  intros Hn. replace l with ((l - n) + 1 * n)%nat at 1 by lia.
  rewrite Nat.div_add by lia. reflexivity.
Qed.

Section Encrypt_reads.

Context {World G1 G2 : Type}.
Variables (encoder : Encoder World) (encrypter : Encrypter World)
          (dek : bytes) (armor : bool).

Implicit Types (s : State World) (t : list (Call G1 G2)).

Local Abbreviation loop fuel :=
  (@encrypt_loop World G1 G2 fuel encoder encrypter dek).

(** The calls made for a chunk. *)
Lemma encrypt_chunk_calls cipherInfo data s r s' t :
  encrypt_chunk encoder encrypter dek cipherInfo armor data s = (r, s', t) ->
  (exists e, t = [Call_Encrypt dek data (inr e)]
             /\ r = Failed (Errorf "encrypt data" e))
  \/ (exists ci res,
         t = [Call_Encrypt dek data (inl (CipherData ci));
              Call_Encode ci armor res]
         /\ match res with
            | None => r = Returned ci
            | Some e => r = Failed (Errorf "encode" e)
            end).
Proof.
  intros H. chunk_paths H.
  - right. eexists (with_CipherData cipherInfo _), _. split; reflexivity.
  - right. eexists (with_CipherData cipherInfo _), _. split; reflexivity.
  - left. eexists. split; reflexivity.
Qed.

Lemma encrypt_chunk_no_read cipherInfo data s r s' t :
  encrypt_chunk encoder encrypter dek cipherInfo armor data s = (r, s', t) ->
  Forall (fun c => is_ReadFull c = false) t.
Proof.
  intros H.
  destruct (encrypt_chunk_calls _ _ _ _ _ _ H)
    as [(e & -> & _) | (ci & res & -> & _)]; repeat constructor.
Qed.

(** The whole input is read, in one read more than it has full
    chunks. *)
Lemma encrypt_loop_reads fuel cipherInfo s r s' t :
  loop fuel cipherInfo armor false s = (r, s', t) ->
  (count is_ReadFull t <= length (pending (input s)) / chunkSize + 1)%nat
  /\ ((length (pending (input s)) / chunkSize < fuel)%nat -> r <> OutOfFuel)
  /\ (r = Returned tt ->
      pending (input s') = []
      /\ count is_ReadFull t
         = (length (pending (input s)) / chunkSize + 1)%nat).
Proof.
  pose proof chunkSize_pos as Hpos.
  revert cipherInfo s r s' t.
  induction fuel as [|fuel IH]; intros cipherInfo s r s' t H.
  { apply encrypt_loop_stop in H as (-> & _ & ->); [|auto].
    split; [cbn; lia|]. split; [lia|discriminate]. }
  apply encrypt_loop_step in H as (data & err & i & ER & H).
  destruct (io_ReadFull_cases _ _ _ _ _ ER)
    as (_ & [(-> & _ & _ & Hpi & Hle) | (Hlt & _ & Hpi & Herr)]).
  - (* a full chunk *)
    destruct H as [(Heof & _) | [(e & He & _) | (_ & _ & rc & s2 & ct & EC & H)]];
      [discriminate Heof | discriminate He |].
    pose proof (encrypt_chunk_no_read _ _ _ _ _ _ EC) as Hnr.
    destruct (encrypt_chunk_basics _ _ _ _ _ _ _ _ _ _ EC)
      as (Hi2 & Hno & _).
    assert (length (pending (input s2))
            = length (pending (input s)) - chunkSize)%nat as Hl2
        by (rewrite Hi2; cbn; rewrite Hpi; apply length_skipn).
    pose proof (div_chunk (length (pending (input s))) chunkSize
                          (conj Hpos Hle)) as Hdiv.
    destruct rc as [ci'|e|]; [| |destruct (Hno eq_refl)].
    + destruct H as (t3 & EL & ->). cbn [errors_Is] in EL.
      destruct (IH _ _ _ _ _ EL) as (Hc & Hf & Hr). rewrite Hl2 in Hc, Hf, Hr.
      change (?c :: ct ++ t3) with ([c] ++ ct ++ t3).
      rewrite !count_app, (count_none _ _ Hnr). cbn [count filter is_ReadFull length].
      split; [lia|]. split; [intros Hfu; apply Hf; lia|].
      intros Hret. destruct (Hr Hret) as (Hp & Hn). split; [exact Hp|lia].
    + destruct H as (-> & -> & ->).
      change (?c :: ct) with ([c] ++ ct).
      rewrite count_app, (count_none _ _ Hnr). cbn [count filter is_ReadFull length].
      split; [lia|]. split; discriminate.
  - (* what is left, or the end *)
    rewrite (Nat.div_small _ _ Hlt).
    destruct H as [(_ & -> & -> & ->)
                  | [(e & _ & _ & _ & -> & -> & ->)
                    | (Heof & Hgo & rc & s2 & ct & EC & H)]].
    + cbn. split; [lia|]. split; [discriminate|]. auto.
    + cbn. split; [lia|]. split; discriminate.
    + pose proof (encrypt_chunk_no_read _ _ _ _ _ _ EC) as Hnr.
      destruct (encrypt_chunk_basics _ _ _ _ _ _ _ _ _ _ EC)
        as (Hi2 & Hno & _).
      assert (errors_Is err ErrUnexpectedEOF = true) as Hueof
          by (destruct Hgo as [Hn|Hu]; [rewrite Herr in Hn; discriminate Hn
                                       |exact Hu]).
      destruct rc as [ci'|e|]; [| |destruct (Hno eq_refl)].
      * destruct H as (t3 & EL & ->). rewrite Hueof in EL.
        apply encrypt_loop_stop in EL as (-> & -> & ->); [|auto].
        rewrite app_nil_r. change (?c :: ct) with ([c] ++ ct).
        rewrite count_app, (count_none _ _ Hnr).
        cbn [count filter is_ReadFull length].
        split; [lia|]. split; [discriminate|].
        intros _. rewrite Hi2. cbn. auto.
      * destruct H as (-> & -> & ->).
        change (?c :: ct) with ([c] ++ ct).
        rewrite count_app, (count_none _ _ Hnr).
        cbn [count filter is_ReadFull length].
        split; [lia|]. split; discriminate.
Qed.

(** What follows a read that came with an error. *)
Lemma encrypt_loop_end_of_input fuel cipherInfo done s r s' t
      pre data e post :
  loop fuel cipherInfo armor done s = (r, s', t) ->
  t = pre ++ Call_ReadFull data (Some e) :: post ->
  (errors_Is' e EOF = true ->
   post = [] /\ r = Returned tt /\ (ending (input s) = EOF -> data = []))
  /\ (errors_Is' e EOF = false -> errors_Is' e ErrUnexpectedEOF = true ->
      (exists e', post = [Call_Encrypt dek data (inr e')]
                  /\ r = Failed (Errorf "encrypt data" e'))
      \/ (exists ci res,
             post = [Call_Encrypt dek data (inl (CipherData ci));
                     Call_Encode ci armor res]
             /\ match res with
                | None => r = Returned tt
                | Some e' => r = Failed (Errorf "encode" e')
                end)).
Proof.
  revert cipherInfo done s r s' t pre post.
  induction fuel as [|fuel IH]; intros cipherInfo done s r s' t pre post H Ht.
  { apply encrypt_loop_stop in H as (-> & _); [|auto].
    destruct pre; discriminate Ht. }
  destruct done.
  { apply encrypt_loop_stop in H as (-> & _); [|auto].
    destruct pre; discriminate Ht. }
  apply encrypt_loop_step in H as (data0 & err & i & ER & H).
  destruct (io_ReadFull_cases _ _ _ _ _ ER) as (Hend & Hcases).
  destruct H as [(Heof & -> & -> & ->)
                | [(e0 & -> & Heof & Hueof & -> & -> & ->)
                  | (Heof & Hgo & rc & s2 & ct & EC & H)]].
  - (* the end of the input *)
    split_trace Ht. cbn in Heof. split; [|intros E; congruence].
    intros _. split; [reflexivity|]. split; [reflexivity|].
    intros Hending.
    destruct Hcases as [(Hn & _) | (_ & -> & _ & Herr)]; [discriminate Hn|].
    destruct (pending (input s)) as [|x l]; [reflexivity|].
    rewrite Hending in Herr. cbn in Herr. injection Herr as ->.
    discriminate Heof.
  - (* the read failed *)
    split_trace Ht. cbn in Heof, Hueof. split; intros; congruence.
  - (* a chunk *)
    pose proof (encrypt_chunk_no_read _ _ _ _ _ _ EC) as Hnr.
    destruct (encrypt_chunk_basics _ _ _ _ _ _ _ _ _ _ EC)
      as (Hi2 & Hno & _).
    assert (forall t3,
               ct ++ t3 = tl pre ++ Call_ReadFull data (Some e) :: post ->
               exists p, tl pre = ct ++ p
                         /\ t3 = p ++ Call_ReadFull data (Some e) :: post)
      as Hlater.
    { intros t3 E.
      destruct (app_eq_split _ _ _ _ _ E) as [(q & Eq & _) | Hp];
        [|exact Hp].
      rewrite Forall_forall in Hnr.
      specialize (Hnr (Call_ReadFull data (Some e))).
      rewrite Eq in Hnr. discriminate (Hnr (in_elt _ _ _)). }
    destruct pre as [|c0 pre].
    + (* this read *)
      assert (data0 = data /\ err = Some e) as (-> & ->).
      { destruct rc as [ci'|e'|]; [destruct H as (t3 & _ & H)
                                  |destruct H as (_ & _ & H)
                                  |destruct H as (_ & _ & H)];
          cbn in Ht; rewrite H in Ht; injection Ht as -> -> _; auto. }
      cbn in Heof. split; [intros E; congruence|]. intros _ Hueof.
      destruct (encrypt_chunk_calls _ _ _ _ _ _ EC)
        as [(e' & -> & ->) | (ci & res & -> & Hres)].
      * destruct H as (-> & -> & ->). cbn in Ht. injection Ht as <-.
        left. eauto.
      * right. exists ci, res.
        destruct res as [e'|]; subst rc.
        -- destruct H as (-> & -> & ->). cbn in Ht. injection Ht as <-. auto.
        -- destruct H as (t3 & EL & ->). cbn [errors_Is] in EL.
           rewrite Hueof in EL.
           apply encrypt_loop_stop in EL as (-> & -> & ->); [|auto].
           cbn in Ht. injection Ht as <-. auto.
    + (* a later read *)
      assert (ending (input s2) = ending (input s)) as Hend2
          by (rewrite Hi2; exact Hend).
      destruct rc as [ci'|e'|]; [|exfalso|destruct (Hno eq_refl)].
      * destruct H as (t3 & EL & ->). cbn in Ht. injection Ht as _ Ht.
        destruct (Hlater _ Ht) as (p & _ & E3).
        destruct (IH _ _ _ _ _ _ _ _ EL E3) as (H1 & H2).
        rewrite Hend2 in H1. auto.
      * destruct H as (_ & _ & ->). cbn in Ht. injection Ht as _ Ht.
        rewrite <- (app_nil_r ct) in Ht.
        destruct (Hlater _ Ht) as (p & _ & E3). destruct p; discriminate E3.
Qed.

(** What was handed to the cipher so far is a prefix of the input, cut
    into chunks. *)
Lemma encrypt_loop_prefix fuel cipherInfo done s r s' t :
  loop fuel cipherInfo armor done s = (r, s', t) ->
  (exists rest,
      pending (input s) = concat (encrypted t) ++ rest
      /\ (done = false -> r = Returned tt -> ending (input s) = EOF ->
          rest = []))
  /\ (forall init lst,
         encrypted t = init ++ [lst] ->
         Forall (fun c => length c = chunkSize) init)
  /\ (length (encoded t) <= length (encrypted t)
      <= length (encoded t) + 1)%nat
  /\ (r = Returned tt -> length (encoded t) = length (encrypted t)).
Proof.
  revert cipherInfo done s r s' t.
  induction fuel as [|fuel IH]; intros cipherInfo done s r s' t H.
  { apply encrypt_loop_stop in H as (-> & _ & ->); [|auto].
    split; [exists (pending (input s)); split; [reflexivity|];
            destruct done; intros; congruence|].
    split; [intros [|? ?] ? E; discriminate E|]. cbn. split; [lia|auto]. }
  destruct done.
  { apply encrypt_loop_stop in H as (-> & _ & ->); [|auto].
    split; [exists (pending (input s)); split; [reflexivity|];
            intros; congruence|].
    split; [intros [|? ?] ? E; discriminate E|]. cbn. split; [lia|auto]. }
  apply encrypt_loop_step in H as (data & err & i & ER & H).
  destruct (io_ReadFull_cases _ _ _ _ _ ER) as (Hend & Hcases).
  destruct H as [(Heof & -> & -> & ->)
                | [(e & -> & Heof & Hueof & -> & -> & ->)
                  | (Heof & Hgo & rc & s2 & ct & EC & H)]].
  - (* the end of the input *)
    split; [|split; [intros [|? ?] ? E; discriminate E|cbn; split; [lia|auto]]].
    exists (pending (input s)). split; [reflexivity|].
    intros _ _ Hending.
    destruct Hcases as [(Hn & _) | (_ & _ & _ & Herr)];
      [rewrite Hn in Heof; discriminate Heof|].
    destruct (pending (input s)) as [|x l]; [reflexivity|].
    rewrite Hending in Herr. cbn in Herr. rewrite Herr in Heof.
    discriminate Heof.
  - (* the read failed *)
    split; [|split; [intros [|? ?] ? E; discriminate E
                    |cbn; split; [lia|discriminate]]].
    exists (pending (input s)). split; [reflexivity|]. discriminate.
  - (* a chunk *)
    destruct (encrypt_chunk_basics _ _ _ _ _ _ _ _ _ _ EC)
      as (Hi2 & Hno & _).
    assert (pending (input s) = data ++ pending i
            /\ (err = None -> length data = chunkSize)) as (Hp & Hfull).
    { destruct Hcases as [(_ & -> & Hl & -> & _) | (_ & -> & -> & ->)].
      - rewrite firstn_skipn. auto.
      - rewrite app_nil_r. split; [reflexivity | discriminate]. }
    destruct (encrypt_chunk_calls _ _ _ _ _ _ EC)
      as [(e' & -> & ->) | (ci & res & -> & Hres)].
    + (* the cipher fails *)
      destruct H as (-> & -> & ->). cbn [encrypted encoded concat length].
      split; [exists (pending i); rewrite app_nil_r; split;
              [exact Hp | discriminate]|].
      split; [|split; [lia|discriminate]].
      intros init lst E. destruct init as [|? [|? ?]]; [constructor|..];
        discriminate E.
    + destruct res as [e'|]; subst rc.
      * (* the encoder fails *)
        destruct H as (-> & -> & ->). cbn [encrypted encoded concat length].
        split; [exists (pending i); rewrite app_nil_r; split;
                [exact Hp | discriminate]|].
        split; [|split; [lia|discriminate]].
        intros init lst E. destruct init as [|? [|? ?]]; [constructor|..];
          discriminate E.
      * (* the loop goes on *)
        destruct H as (t3 & EL & ->).
        destruct (IH _ _ _ _ _ _ EL) as ((rest & Hrest & Hall) & Hinit & Hlen & Hret).
        rewrite Hi2 in Hrest, Hall. cbn [input set_input] in Hrest, Hall.
        cbn [encrypted encoded concat length app].
        split; [|split; [|split; [lia|intros Hr; rewrite (Hret Hr); reflexivity]]].
        -- exists rest. rewrite Hp, Hrest, app_assoc. split; [reflexivity|].
           intros _ Hr Hending.
           destruct (errors_Is err ErrUnexpectedEOF) eqn:Hueof.
           ++ apply encrypt_loop_stop in EL as (-> & _); [|auto].
              cbn in Hrest. destruct Hcases as [(Hn & _) | (_ & _ & Hpi & _)];
                [rewrite Hn in Hueof; discriminate Hueof|].
              rewrite Hpi in Hrest. symmetry. exact Hrest.
           ++ apply Hall; auto. rewrite Hend. exact Hending.
        -- intros init lst E.
           destruct (encrypted t3) as [|c3 l3] eqn:E3.
           ++ destruct init as [|? [|? ?]]; [constructor|..]; discriminate E.
           ++ destruct init as [|c0 init]; [discriminate E|].
              injection E as <- E. constructor; [|apply (Hinit _ _ E)].
              destruct (errors_Is err ErrUnexpectedEOF) eqn:Hueof.
              ** apply encrypt_loop_stop in EL as (-> & _); [|auto].
                 discriminate E3.
              ** destruct Hgo as [Hn|Hu]; [auto | discriminate Hu].
Qed.

End Encrypt_reads.

Section Encrypt_input.

Context {World G1 G2 : Type}.
Variable lib : Library World G1 G2.
Variables (ctx : context_Context) (encoder : Encoder World)
          (network : Network World G1) (encrypter : Encrypter World)
          (roundNumber : uint64) (id : bytes) (armor : bool).

Implicit Types (s : State World) (t : list (Call G1 G2)).

(** X5.  A session of [encrypt] on an input that still has [L] bytes to
    deliver makes at most [L / 65536 + 1] calls of [io.ReadFull],
    whatever the error the input ends with, and with fuel for that many
    calls it does not run out of it; a session that returns nil has made
    exactly that many calls and has left nothing of the input unread. *)
Theorem encrypt_reads_whole_input fuel s r s' t :
  encrypt lib fuel ctx encoder network encrypter roundNumber id armor s
  = (r, s', t) ->
  let L := Z.of_nat (length (pending (input s))) in
  Z.of_nat (count is_ReadFull t) <= L / 65536 + 1
  /\ (L / 65536 < Z.of_nat fuel -> r <> OutOfFuel)
  /\ (r = Returned tt ->
      pending (input s') = []
      /\ Z.of_nat (count is_ReadFull t) = L / 65536 + 1).
Proof.
  intros H L. subst L.
  pose proof chunkSize_pos as Hpos. pose proof chunkSize_65536 as Hcs.
  rewrite <- Hcs, <- Nat2Z.inj_div.
  destruct (encrypt_setup _ _ _ _ _ _ _ _ _ _ _ _ _ H) as (rr & t1 & -> & H1).
  destruct rr as [b|e];
    [|destruct H1 as (-> & -> & _); clear H; unfold count; cbn [filter is_ReadFull length];
     split; [lia | split; discriminate]].
  cbn zeta in H1. destruct H1 as (rp & t2 & -> & H2).
  destruct rp as [pk|e];
    [|destruct H2 as (-> & -> & _); clear H; unfold count; cbn [filter is_ReadFull length];
     split; [lia | split; discriminate]].
  destruct H2 as (rc & t3 & -> & H3).
  destruct rc as [ct|e];
    [|destruct H3 as (-> & -> & _); clear H; unfold count; cbn [filter is_ReadFull length];
     split; [lia | split; discriminate]].
  destruct H3 as (rm & t4 & -> & H4).
  destruct rm as [kp|e];
    [|destruct H4 as (-> & -> & _); clear H; unfold count; cbn [filter is_ReadFull length];
     split; [lia | split; discriminate]].
  destruct H4 as (s0 & Hi0 & _ & EL).
  destruct (encrypt_loop_reads _ _ _ _ _ _ _ _ _ _ EL) as (Hc & Hf & Hr).
  rewrite Hi0 in Hc, Hf, Hr.
  change (count is_ReadFull (_ :: _ :: _ :: _ :: t4))
    with (count is_ReadFull t4).
  split; [lia|]. split; [intros Hfu; apply Hf; lia|].
  intros Hret. destruct (Hr Hret) as (Hp & Hn). split; [exact Hp|lia].
Qed.

(** X6.  How a session of [encrypt] takes the error of a read.  When
    [errors.Is] finds [io.EOF] in it, the session ends there and returns
    nil: the bytes that came with the error are not encrypted (there are
    none when the input ends with [io.EOF] itself).  When it finds
    [io.ErrUnexpectedEOF], the bytes that came with it are encrypted as
    the last chunk: the cipher and then the encoder are called for them,
    nothing is read any more, and the session returns nil unless one of
    the two fails. *)
Theorem encrypt_end_of_input fuel s r s' t pre data e post :
  encrypt lib fuel ctx encoder network encrypter roundNumber id armor s
  = (r, s', t) ->
  t = pre ++ Call_ReadFull data (Some e) :: post ->
  (errors_Is' e EOF = true ->
   post = [] /\ r = Returned tt /\ (ending (input s) = EOF -> data = []))
  /\ (errors_Is' e EOF = false -> errors_Is' e ErrUnexpectedEOF = true ->
      (exists key e', post = [Call_Encrypt key data (inr e')]
                      /\ r = Failed (Errorf "encrypt data" e'))
      \/ (exists key ci res,
             post = [Call_Encrypt key data (inl (CipherData ci));
                     Call_Encode ci armor res]
             /\ match res with
                | None => r = Returned tt
                | Some e' => r = Failed (Errorf "encode" e')
                end)).
Proof.
  intros H Ht.
  destruct (encrypt_setup _ _ _ _ _ _ _ _ _ _ _ _ _ H) as (rr & t1 & -> & H1).
  destruct rr as [b|e0]; [|destruct H1 as (-> & _); split_trace Ht].
  cbn zeta in H1. destruct H1 as (rp & t2 & -> & H2).
  destruct rp as [pk|e0]; [|destruct H2 as (-> & _); split_trace Ht].
  destruct H2 as (rc & t3 & -> & H3).
  destruct rc as [ct|e0]; [|destruct H3 as (-> & _); split_trace Ht].
  destruct H3 as (rm & t4 & -> & H4).
  destruct rm as [kp|e0]; [|destruct H4 as (-> & _); split_trace Ht].
  destruct H4 as (s0 & Hi0 & _ & EL).
  change (?x1 :: ?x2 :: ?x3 :: ?x4 :: t4) with ([x1; x2; x3; x4] ++ t4) in Ht.
  destruct (app_eq_split _ _ _ _ _ Ht) as [(q & E & _) | (p' & -> & E)];
    [split_trace E|].
  destruct (encrypt_loop_end_of_input _ _ _ _ _ _ _ _ _ _ _ _ _ _ _ EL E)
    as (H1 & H2).
  rewrite Hi0 in H1. split; [exact H1|].
  intros Heof Hueof.
  destruct (H2 Heof Hueof) as [(e' & Hp & Hr) | (ci & res & Hp & Hr)];
    [left | right]; eauto.
Qed.

(** X7.  However a session of [encrypt] ends, with nil, with an error
    or out of fuel, the chunks it has handed to the cipher are, put
    together, the beginning of the input: nothing is skipped, repeated
    or reordered; every chunk but the last has 65536 bytes; and the
    frames handed to the encoder are as many as the chunks, or one less
    when the session failed on the last chunk.  A session that returns
    nil on an input that ends with [io.EOF] has handed over the whole
    input. *)
Theorem encrypt_encrypts_a_prefix fuel s r s' t :
  encrypt lib fuel ctx encoder network encrypter roundNumber id armor s
  = (r, s', t) ->
  (exists rest,
      pending (input s) = concat (encrypted t) ++ rest
      /\ (r = Returned tt -> ending (input s) = EOF -> rest = []))
  /\ (forall init lst,
         encrypted t = init ++ [lst] ->
         Forall (fun c => Z.of_nat (length c) = 65536) init)
  /\ (length (encoded t) <= length (encrypted t)
      <= length (encoded t) + 1)%nat
  /\ (r = Returned tt -> length (encoded t) = length (encrypted t)).
Proof.
  intros H. pose proof chunkSize_65536 as Hcs.
  assert (forall t0 : list (Call G1 G2),
             encrypted t0 = [] -> encoded t0 = [] ->
             forall r0 : outcome unit, r0 <> Returned tt ->
             (exists rest,
                 pending (input s) = concat (encrypted t0) ++ rest
                 /\ (r0 = Returned tt -> ending (input s) = EOF -> rest = []))
             /\ (forall init lst,
                    encrypted t0 = init ++ [lst] ->
                    Forall (fun c => Z.of_nat (length c) = 65536) init)
             /\ (length (encoded t0) <= length (encrypted t0)
                 <= length (encoded t0) + 1)%nat
             /\ (r0 = Returned tt ->
                 length (encoded t0) = length (encrypted t0))) as Hquiet.
  { intros t0 -> -> r0 Hr0.
    split; [exists (pending (input s)); split; [reflexivity|];
            intros Hr; destruct (Hr0 Hr)|].
    split; [intros [|? ?] ? E; discriminate E|].
    cbn. split; [lia|auto]. }
  destruct (encrypt_setup _ _ _ _ _ _ _ _ _ _ _ _ _ H) as (rr & t1 & -> & H1).
  destruct rr as [b|e];
    [|destruct H1 as (-> & -> & _); apply Hquiet;
      [reflexivity|reflexivity|discriminate]].
  cbn zeta in H1. destruct H1 as (rp & t2 & -> & H2).
  destruct rp as [pk|e];
    [|destruct H2 as (-> & -> & _); apply Hquiet;
      [reflexivity|reflexivity|discriminate]].
  destruct H2 as (rc & t3 & -> & H3).
  destruct rc as [ct|e];
    [|destruct H3 as (-> & -> & _); apply Hquiet;
      [reflexivity|reflexivity|discriminate]].
  destruct H3 as (rm & t4 & -> & H4).
  destruct rm as [kp|e];
    [|destruct H4 as (-> & -> & _); apply Hquiet;
      [reflexivity|reflexivity|discriminate]].
  destruct H4 as (s0 & Hi0 & _ & EL). clear Hquiet.
  destruct (encrypt_loop_prefix _ _ _ _ _ _ _ _ _ _ _ EL)
    as ((rest & Hrest & Hall) & Hinit & Hlen & Hret).
  rewrite Hi0 in Hrest, Hall.
  change (encrypted (_ :: _ :: _ :: _ :: t4)) with (encrypted t4).
  change (encoded (_ :: _ :: _ :: _ :: t4)) with (encoded t4).
  split; [exists rest; split; [exact Hrest | auto]|].
  split; [|split; [exact Hlen | exact Hret]].
  intros init lst E. eapply Forall_impl; [|exact (Hinit _ _ E)].
  cbn. intros c ->. exact Hcs.
Qed.

End Encrypt_input.

(** ** The loop of [Decrypt], step by step *)

Section Decrypt_steps.

Context {World G1 G2 : Type}.
Variable lib : Library World G1 G2.
Variables (ctx : context_Context) (decoder : Decoder World)
          (network : Network World G1) (decrypter : Decrypter World)
          (armor : bool).

Implicit Types (s : State World) (t : list (Call G1 G2)).

Local Abbreviation loop fuel :=
  (Decrypt_loop lib fuel ctx decoder network decrypter armor).
Local Abbreviation frame := (Decrypt_frame lib ctx network decrypter).

Lemma Decrypt_loop_stop fuel done s r s' t :
  loop fuel done s = (r, s', t) ->
  done = true \/ fuel = O ->
  t = [] /\ s' = s /\ r = if done then Returned tt else OutOfFuel.
Proof.
  intros H Hd. destruct done.
  - destruct fuel; cbn in H; injection H as <- <- <-; auto.
  - destruct Hd as [Hd| ->]; [discriminate Hd|].
    cbn in H. injection H as <- <- <-. auto.
Qed.

Lemma Decrypt_loop_step fuel s r s' t :
  loop (S fuel) false s = (r, s', t) ->
  exists info err i w,
    Decode decoder (input s) armor (world s) = (((info, err), i), w)
    /\ let s1 := {| world := w; input := i; output := output s |} in
       (errors_Is err EOF = true
        /\ r = Returned tt /\ s' = s1 /\ t = [Call_Decode armor info err])
       \/ (exists e, err = Some e
                     /\ errors_Is err EOF = false
                     /\ errors_Is err ErrUnexpectedEOF = false
                     /\ r = Failed (Errorf "decoding input data" e)
                     /\ s' = s1 /\ t = [Call_Decode armor info err])
       \/ (errors_Is err EOF = false
           /\ (err = None \/ errors_Is err ErrUnexpectedEOF = true)
           /\ exists rf s2 ft,
               frame info s1 = (rf, s2, ft)
               /\ match rf with
                  | Returned _ =>
                      exists t3,
                      loop fuel (errors_Is err ErrUnexpectedEOF) s2
                      = (r, s', t3)
                      /\ t = Call_Decode armor info err :: ft ++ t3
                  | Failed e =>
                      r = Failed e /\ s' = s2
                      /\ t = Call_Decode armor info err :: ft
                  | OutOfFuel => False
                  end).
Proof.
  intros H.
  cbn [Decrypt_loop] in H. unfold bind at 1, do_Decode in H.
  destruct (Decode decoder (input s) armor (world s))
    as [[[info err] i] w] eqn:ED.
  cbn beta iota zeta in H. cbn [fst snd] in H.
  exists info, err, i, w. split; [reflexivity|]. intros s1.
  fold s1 in H.
  destruct (errors_Is err EOF) eqn:Eeof.
  { cbn in H. injection H as <- <- <-. left. auto. }
  assert (forall done r2 s2' t2,
             bind (frame info) (fun _ => loop fuel done) s1 = (r2, s2', t2) ->
             exists rf s2 ft,
               frame info s1 = (rf, s2, ft)
               /\ match rf with
                  | Returned _ =>
                      exists t3,
                      loop fuel done s2 = (r2, s2', t3)
                      /\ t2 = ft ++ t3
                  | Failed e => r2 = Failed e /\ s2' = s2 /\ t2 = ft
                  | OutOfFuel => False
                  end) as Hframe.
  { intros done r2 s2' t2 Hb. unfold bind in Hb.
    destruct (frame info s1) as [[rf s2] ft] eqn:EF.
    exists rf, s2, ft. split; [reflexivity|].
    destruct rf as [[]|e|].
    - destruct (loop fuel done s2) as [[r3 s3] t3].
      injection Hb as <- <- <-. eauto.
    - injection Hb as <- <- <-. auto.
    - destruct (Decrypt_frame_basics _ _ _ _ _ _ _ _ _ EF) as (_ & Hno & _).
      apply Hno. reflexivity. }
  right.
  destruct (errors_Is err ErrUnexpectedEOF) eqn:Eueof.
  - right. split; [reflexivity|]. split; [auto|].
    destruct (bind (frame info) (fun _ => loop fuel true) s1)
      as [[r2 s2'] t2] eqn:EB.
    injection H as <- <- <-.
    destruct (Hframe _ _ _ _ EB) as (rf & s2 & ft & EF & Hrf).
    exists rf, s2, ft. split; [exact EF|].
    destruct rf as [[]|e|]; [|destruct Hrf as (-> & -> & ->); auto|exact Hrf].
    destruct Hrf as (t3 & EL & ->). eauto.
  - destruct err as [e|].
    + left. cbn in H. injection H as <- <- <-. exists e. repeat split; auto.
    + right. split; [reflexivity|]. split; [auto|].
      destruct (bind (frame info) (fun _ => loop fuel false) s1)
        as [[r2 s2'] t2] eqn:EB.
      injection H as <- <- <-.
      destruct (Hframe _ _ _ _ EB) as (rf & s2 & ft & EF & Hrf).
      exists rf, s2, ft. split; [exact EF|].
      destruct rf as [[]|e|];
        [|destruct Hrf as (-> & -> & ->); auto|exact Hrf].
      destruct Hrf as (t3 & EL & ->). eauto.
Qed.

End Decrypt_steps.

(** ** The calls made for a frame *)

Section Frame_calls.

Context {World G1 G2 : Type}.
Variable lib : Library World G1 G2.
Variables (ctx : context_Context) (network : Network World G1)
          (decrypter : Decrypter World) (info : CipherInfo).

Implicit Types (s : State World) (t : list (Call G1 G2)).

Local Abbreviation frame := (Decrypt_frame lib ctx network decrypter).
Local Abbreviation quiet :=
  (Forall (fun c : Call G1 G2 => Decrypt_failure c = None)).

Lemma Decrypt_frame_failure s r s' t :
  frame info s = (r, s', t) ->
  fails_fast Decrypt_failure r t /\ (r = Returned tt -> quiet t).
Proof.
  intros H. frame_paths H; cbn [fst snd].
  all: split; [explicit_fails_fast | intros; try discriminate; quiet_calls].
Qed.

(** The calls for a frame are the steps 1, 2, ... in this order, each
    taken after the one before went well. *)
Lemma Decrypt_frame_stages s r s' t pre c post :
  frame info s = (r, s', t) ->
  t = pre ++ c :: post ->
  stage c = Some (S (length pre))
  /\ (post <> [] -> went_well c = true)
  /\ (r = Returned tt -> went_well c = true /\ (post = [] -> stage c = Some 8%nat)).
Proof.
  intros H Ht. frame_paths H; cbn [app fst snd] in Ht; split_trace Ht.
  all: split; [reflexivity|].
  all: split; [intros Hp; try reflexivity; destruct (Hp eq_refl)|].
  all: intros Hr; first [discriminate Hr | split; [reflexivity|]].
  all: intros Hp; try reflexivity; discriminate Hp.
Qed.

Lemma Decrypt_frame_counts s r s' t :
  frame info s = (r, s', t) ->
  count is_IsReadyToDecrypt t = 1%nat
  /\ (count is_Write t <= count is_Decrypt t <= count is_ibe_Decrypt t)%nat
  /\ (count is_ibe_Decrypt t <= count is_VerifyBeacon t
      <= count is_PublicKey t)%nat
  /\ (count is_PublicKey t <= 1)%nat
  /\ count is_frame t = O
  /\ (r = Returned tt -> count is_Write t = 1%nat).
Proof.
  intros H. frame_paths H; cbn; repeat split; try discriminate; lia.
Qed.

(** What is written is what the cipher returned for the data of the
    frame, under the key unwrapped from the wrapped key of the frame. *)
Lemma Decrypt_frame_Write s r s' t pre p werr post :
  frame info s = (r, s', t) ->
  t = pre ++ Call_Write p werr :: post ->
  exists h master sig c key,
    pre = h ++ [Call_ibe_Decrypt master sig c (inl key);
                Call_Decrypt key (CipherData info) (inl p)]
    /\ V c = CipherV (CI_CipherDEK info)
    /\ W c = CipherW (CI_CipherDEK info)
    /\ G1_UnmarshalBinary lib (KyberPoint (CI_CipherDEK info)) = inl (U c).
Proof.
  intros H Ht. frame_paths H; cbn [app fst snd] in Ht; split_trace Ht.
  all: eexists [_; _; _; _; _], _, _, _, _; cbn; split; [reflexivity|];
    cbn; auto.
Qed.

(** With a destination that takes everything, the output grows by what
    the cipher returned. *)
Lemma Decrypt_frame_output s r s' t :
  frame info s = (r, s', t) ->
  failing (output s) = None ->
  written (output s') = written (output s) ++ concat (decrypted t)
  /\ failing (output s') = None.
Proof.
  intros H Hout. frame_paths H; cbn [fst snd].
  all: cbn [decrypted concat output set_world set_output].
  all: rewrite ?app_nil_r; try (split; [reflexivity | exact Hout]).
  all: match goal with
       | E : io_Write _ _ = _ |- _ =>
           cbn [output set_world] in E;
           rewrite (io_Write_unlimited _ _ Hout) in E; inversion E; subst
       end; cbn; auto.
Qed.

End Frame_calls.

(** ** What a session of [Decrypt] calls, and in which order *)

Lemma decrypted_app {G1 G2} (t1 t2 : list (Call G1 G2)) :
  decrypted (t1 ++ t2) = decrypted t1 ++ decrypted t2.
Proof.
  induction t1 as [|c t1 IH]; [reflexivity|].
  destruct c; cbn; try exact IH.
  match goal with r : (bytes + error)%type |- _ => destruct r end;
    cbn; rewrite ?IH; reflexivity.
Qed.

Lemma is_frame_went_well {G1 G2} armor info err :
  errors_Is err EOF = false ->
  err = None \/ errors_Is err ErrUnexpectedEOF = true ->
  is_frame (Call_Decode (G1:=G1) (G2:=G2) armor info err) = true
  /\ went_well (Call_Decode (G1:=G1) (G2:=G2) armor info err) = true
  /\ Decrypt_failure (Call_Decode (G1:=G1) (G2:=G2) armor info err) = None.
Proof.
  intros Heof [-> | Hueof]; [auto|].
  destruct err as [e|]; [|auto]. cbn in Heof, Hueof |- *.
  unfold is_end_of_input. rewrite Heof, Hueof. auto.
Qed.

Section Decrypt_sessions.

Context {World G1 G2 : Type}.
Variable lib : Library World G1 G2.
Variables (ctx : context_Context) (decoder : Decoder World)
          (network : Network World G1) (decrypter : Decrypter World)
          (armor : bool).

Implicit Types (s : State World) (t : list (Call G1 G2)).

Local Abbreviation loop fuel :=
  (Decrypt_loop lib fuel ctx decoder network decrypter armor).

Lemma Decrypt_loop_failure fuel done s r s' t :
  loop fuel done s = (r, s', t) -> fails_fast Decrypt_failure r t.
Proof.
  revert done s r s' t.
  induction fuel as [|fuel IH]; intros done s r s' t H.
  { apply Decrypt_loop_stop in H as (-> & _ & ->); [|auto].
    apply fails_fast_quiet; [constructor | destruct done; discriminate]. }
  destruct done.
  { apply Decrypt_loop_stop in H as (-> & _ & ->); [|auto].
    apply fails_fast_quiet; [constructor | discriminate]. }
  apply Decrypt_loop_step in H as (info & err & i & w & _ & H).
  cbn zeta in H.
  destruct H as [(Heof & -> & -> & ->)
                | [(e & -> & Heof & Hueof & -> & -> & ->)
                  | (Heof & Hgo & rf & s2 & ft & EF & H)]].
  - apply fails_fast_quiet; [|discriminate].
    destruct err as [e|]; [|discriminate Heof].
    cbn in Heof. quiet_calls. unfold is_end_of_input. rewrite Heof.
    reflexivity.
  - apply (fails_fast_last _ []); [constructor|].
    cbn in Heof, Hueof |- *. unfold is_end_of_input.
    rewrite Heof, Hueof. reflexivity.
  - destruct (is_frame_went_well (G1:=G1) (G2:=G2) armor info err Heof Hgo)
      as (_ & _ & Hq).
    destruct (Decrypt_frame_failure _ _ _ _ _ _ _ _ _ EF) as (Hff & Hquiet).
    destruct rf as [[]|e|]; [|destruct H as (-> & -> & ->)|destruct H].
    + destruct H as (t3 & EL & ->).
      apply (fails_fast_app _ _ (_ :: ft) t3); [|exact (IH _ _ _ _ _ EL)].
      constructor; auto.
    + apply (fails_fast_app _ _ [_] ft); [constructor; auto | exact Hff].
Qed.

Lemma Decrypt_loop_stages fuel done s r s' t pre c post :
  loop fuel done s = (r, s', t) ->
  t = pre ++ c :: post ->
  match stage c with
  | Some O => pre = [] \/ exists h p, pre = h ++ [Call_Write p None]
  | Some (S k) =>
      exists h c', pre = h ++ [c'] /\ stage c' = Some k
                   /\ went_well c' = true
  | None => False
  end.
Proof.
  revert done s r s' t pre post.
  induction fuel as [|fuel IH]; intros done s r s' t pre post H Ht.
  { apply Decrypt_loop_stop in H as (-> & _); [|auto].
    destruct pre; discriminate Ht. }
  destruct done.
  { apply Decrypt_loop_stop in H as (-> & _); [|auto].
    destruct pre; discriminate Ht. }
  apply Decrypt_loop_step in H as (info & err & i & w & _ & H).
  cbn zeta in H.
  assert (forall s1 rf s2 ft p q,
             Decrypt_frame lib ctx network decrypter info s1 = (rf, s2, ft) ->
             errors_Is err EOF = false ->
             err = None \/ errors_Is err ErrUnexpectedEOF = true ->
             ft = p ++ c :: q ->
             exists h c', Call_Decode armor info err :: p = h ++ [c']
                          /\ stage c = Some (S (length h))
                          /\ stage c' = Some (length h)
                          /\ went_well c' = true) as Hin_frame.
  { intros s1 rf s2 ft p q EF Heof Hgo E.
    destruct (is_frame_went_well (G1:=G1) (G2:=G2) armor info err Heof Hgo)
      as (_ & Hw & _).
    destruct (Decrypt_frame_stages _ _ _ _ _ _ _ _ _ _ _ _ EF E) as (Hs & _).
    destruct (exists_last (l := Call_Decode armor info err :: p))
      as (h & c' & Eh); [discriminate|].
    exists h, c'. split; [exact Eh|].
    assert (length p = length h) as Hl.
    { apply (f_equal (@length _)) in Eh. rewrite length_app in Eh.
      cbn in Eh. lia. }
    rewrite Hl in Hs. split; [exact Hs|].
    destruct h as [|d h].
    - injection Eh as <- ->. auto.
    - injection Eh as <- ->.
      rewrite <- app_assoc in E. cbn [app] in E.
      destruct (Decrypt_frame_stages _ _ _ _ _ _ _ _ _ _ _ _ EF E)
        as (Hs' & Hw' & _).
      split; [exact Hs' | apply Hw'; discriminate]. }
  destruct pre as [|c0 pre].
  { (* the decoder *)
    assert (exists a i' e', c = Call_Decode a i' e') as (a & i' & e' & ->).
    { destruct H as [(_ & _ & _ & ->)
                    | [(e & _ & _ & _ & _ & _ & ->)
                      | (_ & _ & rf & s2 & ft & _ & H)]];
        try (injection Ht as <- _; eauto).
      destruct rf as [[]|e|]; [destruct H as (t3 & _ & ->)
                              |destruct H as (_ & _ & ->)|destruct H];
        injection Ht as <- _; eauto. }
    cbn. auto. }
  destruct H as [(_ & _ & _ & ->)
                | [(e & _ & _ & _ & _ & _ & ->)
                  | (Heof & Hgo & rf & s2 & ft & EF & H)]];
    try (destruct pre; discriminate Ht).
  destruct rf as [[]|e|]; [|destruct H as (_ & _ & ->)|destruct H].
  - destruct H as (t3 & EL & ->). cbn in Ht. injection Ht as <- Ht.
    destruct (app_eq_split _ _ _ _ _ Ht) as [(q & E & _) | (p & -> & E)].
    + destruct (Hin_frame _ _ _ _ _ _ EF Heof Hgo E)
        as (h & c' & -> & -> & Hs' & Hw').
      exists h, c'. auto.
    + specialize (IH _ _ _ _ _ _ _ EL E).
      destruct (stage c) as [[|k]|]; [| |exact IH].
      * right. destruct IH as [-> | (h & p' & ->)].
        -- destruct (Decrypt_frame_Returned _ _ _ _ _ _ _ _ EF)
             as (id & sig & point & pubkey & plainDEK & plainData & -> & _).
           eexists (_ :: [_; _; _; _; _; _; _]), plainData.
           rewrite app_nil_r. reflexivity.
        -- exists (Call_Decode armor info err :: ft ++ h), p'.
           cbn. rewrite <- app_assoc. reflexivity.
      * destruct IH as (h & c' & -> & Hs' & Hw').
        exists (Call_Decode armor info err :: ft ++ h), c'.
        cbn. rewrite <- app_assoc. auto.
  - cbn in Ht. injection Ht as <- Ht.
    destruct (Hin_frame _ _ _ _ _ _ EF Heof Hgo Ht)
      as (h & c' & -> & -> & Hs' & Hw').
    exists h, c'. auto.
Qed.

Lemma Decrypt_loop_output fuel done s r s' t :
  loop fuel done s = (r, s', t) ->
  failing (output s) = None ->
  written (output s') = written (output s) ++ concat (decrypted t)
  /\ failing (output s') = None.
Proof.
  revert done s r s' t.
  induction fuel as [|fuel IH]; intros done s r s' t H Hout.
  { apply Decrypt_loop_stop in H as (-> & -> & _); [|auto].
    cbn. rewrite app_nil_r. auto. }
  destruct done.
  { apply Decrypt_loop_stop in H as (-> & -> & _); [|auto].
    cbn. rewrite app_nil_r. auto. }
  apply Decrypt_loop_step in H as (info & err & i & w & _ & H).
  cbn zeta in H.
  destruct H as [(_ & _ & -> & ->)
                | [(e & _ & _ & _ & _ & -> & ->)
                  | (_ & _ & rf & s2 & ft & EF & H)]];
    try (cbn; rewrite app_nil_r; auto; fail).
  destruct (Decrypt_frame_output _ _ _ _ _ _ _ _ _ EF Hout) as (Hw2 & Hf2).
  cbn [output] in Hw2.
  destruct rf as [[]|e|]; [|destruct H as (_ & -> & ->)|destruct H].
  - destruct H as (t3 & EL & ->).
    destruct (IH _ _ _ _ _ EL Hf2) as (Hw3 & Hf3).
    split; [|exact Hf3].
    change (decrypted (?c :: ft ++ t3)) with (decrypted (ft ++ t3)).
    rewrite decrypted_app, concat_app, Hw3, Hw2, app_assoc. reflexivity.
  - split; [exact Hw2 | exact Hf2].
Qed.

Lemma Decrypt_loop_counts fuel done s r s' t :
  loop fuel done s = (r, s', t) ->
  count is_IsReadyToDecrypt t = count is_frame t
  /\ (count is_Write t <= count is_Decrypt t <= count is_ibe_Decrypt t)%nat
  /\ (count is_ibe_Decrypt t <= count is_VerifyBeacon t
      <= count is_PublicKey t)%nat
  /\ (count is_PublicKey t <= count is_frame t)%nat
  /\ (r = Returned tt -> count is_Write t = count is_frame t).
Proof.
  revert done s r s' t.
  induction fuel as [|fuel IH]; intros done s r s' t H.
  { apply Decrypt_loop_stop in H as (-> & _); [|auto].
    cbn. repeat split; lia. }
  destruct done.
  { apply Decrypt_loop_stop in H as (-> & _); [|auto].
    cbn. repeat split; lia. }
  apply Decrypt_loop_step in H as (info & err & i & w & _ & H).
  cbn zeta in H.
  destruct H as [(Heof & _ & _ & ->)
                | [(e & -> & Heof & Hueof & -> & _ & ->)
                  | (Heof & Hgo & rf & s2 & ft & EF & H)]].
  - destruct err as [e|]; [|discriminate Heof]. cbn in Heof.
    unfold count. cbn. rewrite Heof. cbn. repeat split; lia.
  - cbn in Heof, Hueof. unfold count. cbn. rewrite Heof, Hueof. cbn.
    repeat split; try discriminate; lia.
  - destruct (is_frame_went_well (G1:=G1) (G2:=G2) armor info err Heof Hgo)
      as (Hfr & _ & _).
    destruct (Decrypt_frame_counts _ _ _ _ _ _ _ _ _ EF)
      as (F1 & F2 & F3 & F4 & F5 & F6).
    assert (forall x,
               count is_frame (Call_Decode armor info err :: x)
               = S (count is_frame x)) as Hcf
        by (intros x; unfold count; cbn [filter]; rewrite Hfr; reflexivity).
    destruct rf as [[]|e|]; [|destruct H as (-> & _ & ->)|destruct H].
    + destruct H as (t3 & EL & ->).
      destruct (IH _ _ _ _ _ EL) as (L1 & L2 & L3 & L4 & L5).
      rewrite Hcf.
      change (count ?f (Call_Decode armor info err :: ft ++ t3))
        with (count f (ft ++ t3)).
      rewrite !count_app. specialize (F6 eq_refl).
      split; [lia|]. split; [lia|]. split; [lia|]. split; [lia|].
      intros Hr. specialize (L5 Hr). lia.
    + rewrite Hcf.
      change (count ?f (Call_Decode armor info err :: ft)) with (count f ft).
      split; [lia|]. split; [lia|]. split; [lia|]. split; [lia|].
      discriminate.
Qed.

(** X8.  A session of [Decrypt] stops at the first call that fails (a
    decoder error that is not the end of the input, a round that is not
    ready, a signature or a point that does not read, the public key,
    the verifier, [ibe.Decrypt], the cipher, the write): no call is made
    after it, no further frame is decoded in particular, and the session
    returns the error of that call behind the message of the step, the
    errors of [decryptDEK] behind "decrypt dek" once more.  Conversely
    an error the session returns is the one of the call made last. *)
Theorem Decrypt_fails_fast fuel s r s' t :
  Decrypt lib fuel ctx decoder network decrypter armor s = (r, s', t) ->
  fails_fast Decrypt_failure r t.
Proof. apply Decrypt_loop_failure. Qed.

(** X9.  The calls of a session of [Decrypt] follow the steps of the
    code: a frame is decoded first or right after the write of the frame
    before; every other call is made right after the call of the step
    before it went well (the network is asked about the round right
    after the frame is decoded, the signature is read after the round is
    reported ready, then the point of the wrapped key, the public key is
    fetched after both are read, and so on up to the write). *)
Theorem Decrypt_steps_in_order fuel s r s' t pre c post :
  Decrypt lib fuel ctx decoder network decrypter armor s = (r, s', t) ->
  t = pre ++ c :: post ->
  match stage c with
  | Some O => pre = [] \/ exists h p, pre = h ++ [Call_Write p None]
  | Some (S k) =>
      exists h c', pre = h ++ [c'] /\ stage c' = Some k
                   /\ went_well c' = true
  | None => False
  end.
Proof. apply Decrypt_loop_stages. Qed.

(** X10.  Whatever a session of [Decrypt] writes is what the cipher
    returned, without an error, for the data of the frame decoded last,
    under the key that [ibe.Decrypt] returned for the wrapped key of
    that frame (its point read by [UnmarshalBinary], its [CipherV] and
    [CipherW]); the two calls come right before the write. *)
Theorem Decrypt_writes_decrypted fuel s r s' t pre p werr post :
  Decrypt lib fuel ctx decoder network decrypter armor s = (r, s', t) ->
  t = pre ++ Call_Write p werr :: post ->
  exists h info master sig c key,
    pre = h ++ [Call_ibe_Decrypt master sig c (inl key);
                Call_Decrypt key (CipherData info) (inl p)]
    /\ last_decoded h = Some info
    /\ V c = CipherV (CI_CipherDEK info)
    /\ W c = CipherW (CI_CipherDEK info)
    /\ G1_UnmarshalBinary lib (KyberPoint (CI_CipherDEK info)) = inl (U c).
Proof.
  intros H Ht.
  destruct (Decrypt_call_in_frame _ _ _ _ _ _ _ _ _ _ _ _ _ _ H Ht)
    as (h & p0 & q & rest & info & err & s1 & rf & s2
        & -> & _ & EF & Hlast & _); [discriminate|].
  destruct (Decrypt_frame_Write _ _ _ _ _ _ _ _ _ _ _ _ _ EF eq_refl)
    as (h' & master & sig & c & key & -> & HV & HW & HU).
  exists (h ++ Call_Decode armor info err :: h'), info, master, sig, c, key.
  split; [rewrite <- app_assoc; reflexivity|].
  split; [|auto].
  change (h ++ Call_Decode armor info err :: h' ++ [?a; ?b])
    with (h ++ (Call_Decode armor info err :: h') ++ [a; b]) in Hlast.
  rewrite app_assoc, last_decoded_app in Hlast. exact Hlast.
Qed.

(** X11.  With a destination that takes all it is given, the output of
    a session of [Decrypt] grows by exactly the plain data the cipher
    returned, frame after frame: this holds however the session ends, so
    that a session that fails at a later frame leaves the plain data of
    the frames before it written. *)
Theorem Decrypt_output_so_far fuel s r s' t :
  Decrypt lib fuel ctx decoder network decrypter armor s = (r, s', t) ->
  failing (output s) = None ->
  written (output s') = written (output s) ++ concat (decrypted t)
  /\ failing (output s') = None.
Proof. apply Decrypt_loop_output. Qed.

(** X12.  A session of [Decrypt] keeps nothing from one frame to the
    next: the network is asked whether the round is ready once for every
    frame the decoder hands out, and for the public key once for every
    frame that gets that far, frames of the same round included; the
    verifier, [ibe.Decrypt], the cipher and the write follow, each at
    most as often as the step before; in a session that returns nil each
    of them was called once for every frame. *)
Theorem Decrypt_asks_for_every_frame fuel s r s' t :
  Decrypt lib fuel ctx decoder network decrypter armor s = (r, s', t) ->
  count is_IsReadyToDecrypt t = count is_frame t
  /\ (count is_Write t <= count is_Decrypt t <= count is_ibe_Decrypt t)%nat
  /\ (count is_ibe_Decrypt t <= count is_VerifyBeacon t
      <= count is_PublicKey t)%nat
  /\ (count is_PublicKey t <= count is_frame t)%nat
  /\ (r = Returned tt -> count is_Write t = count is_frame t).
Proof. apply Decrypt_loop_counts. Qed.

End Decrypt_sessions.

(** ** What [Decrypt] does not look at *)

Section Chain_hash.

Context {World G1 G2 : Type}.
Variable lib : Library World G1 G2.
Variables (ctx : context_Context) (decoder : Decoder World)
          (network network' : Network World G1)
          (decrypter : Decrypter World) (armor : bool).
Variable f : CipherInfo -> string.

Hypothesis same_PublicKey : PublicKey network' = PublicKey network.
Hypothesis same_IsReadyToDecrypt :
  IsReadyToDecrypt network' = IsReadyToDecrypt network.

Implicit Types (s : State World) (t : list (Call G1 G2)).

Lemma Decrypt_frame_rechained info s :
  Decrypt_frame lib ctx network' decrypter (with_ChainHash (f info) info) s
  = Decrypt_frame lib ctx network decrypter info s.
Proof.
  unfold Decrypt_frame, decryptDEK.
  rewrite same_PublicKey, same_IsReadyToDecrypt. reflexivity.
Qed.

Lemma Decrypt_frame_no_Decode info s r s' t :
  Decrypt_frame lib ctx network decrypter info s = (r, s', t) ->
  map (rechained_call f) t = t.
Proof. intros H. frame_paths H; reflexivity. Qed.

Lemma Decrypt_loop_rechained fuel done s :
  Decrypt_loop lib fuel ctx (rechained f decoder) network' decrypter armor
               done s
  = let '(r, s', t) :=
      Decrypt_loop lib fuel ctx decoder network decrypter armor done s in
    (r, s', map (rechained_call f) t).
Proof.
  revert done s. induction fuel as [|fuel IH]; intros done s.
  { destruct done; reflexivity. }
  destruct done; [reflexivity|].
  cbn [Decrypt_loop]. unfold bind, do_Decode. cbn [Decode rechained].
  destruct (Decode decoder (input s) armor (world s))
    as [[[info err] i] w].
  cbn beta iota zeta. cbn [fst snd].
  set (s1 := {| world := w; input := i; output := output s |}).
  destruct (errors_Is err EOF); [reflexivity|].
  assert (forall done',
             match Decrypt_frame lib ctx network' decrypter
                                 (with_ChainHash (f info) info) s1 with
             | (Returned a, s2, t1) =>
                 let '(r, s3, t2) :=
                   Decrypt_loop lib fuel ctx (rechained f decoder) network'
                                decrypter armor done' s2 in
                 (r, s3, t1 ++ t2)
             | (Failed e, s2, t1) => (Failed e, s2, t1)
             | (OutOfFuel, s2, t1) => (OutOfFuel, s2, t1)
             end
             = let '(r, s', t) :=
                 match Decrypt_frame lib ctx network decrypter info s1 with
                 | (Returned a, s2, t1) =>
                     let '(r, s3, t2) :=
                       Decrypt_loop lib fuel ctx decoder network decrypter
                                    armor done' s2 in
                     (r, s3, t1 ++ t2)
                 | (Failed e, s2, t1) => (Failed e, s2, t1)
                 | (OutOfFuel, s2, t1) => (OutOfFuel, s2, t1)
                 end in
               (r, s', map (rechained_call f) t)) as Hframe.
  { intros done'. rewrite Decrypt_frame_rechained.
    destruct (Decrypt_frame lib ctx network decrypter info s1)
      as [[rf s2] ft] eqn:EF.
    pose proof (Decrypt_frame_no_Decode _ _ _ _ _ EF) as Hft.
    destruct rf as [[]|e|]; [|rewrite Hft; reflexivity..].
    rewrite IH.
    destruct (Decrypt_loop lib fuel ctx decoder network decrypter armor
                           done' s2) as [[r3 s3] t3].
    rewrite map_app, Hft. reflexivity. }
  destruct (errors_Is err ErrUnexpectedEOF).
  - rewrite Hframe.
    destruct (Decrypt_frame lib ctx network decrypter info s1)
      as [[[[]|e|] s2] ft]; [|reflexivity..].
    destruct (Decrypt_loop lib fuel ctx decoder network decrypter armor
                           true s2) as [[r3 s3] t3].
    reflexivity.
  - destruct err as [e|]; [reflexivity|].
    rewrite Hframe.
    destruct (Decrypt_frame lib ctx network decrypter info s1)
      as [[[[]|e|] s2] ft]; [|reflexivity..].
    destruct (Decrypt_loop lib fuel ctx decoder network decrypter armor
                           false s2) as [[r3 s3] t3].
    reflexivity.
Qed.

(** X13.  [Decrypt] does not look at the chain hash of a frame, and of
    the network it uses the public key and the readiness of rounds only:
    with frames that carry any other chain hash, and a network that
    differs in its host, its chain hash or its resolution of rounds, a
    session returns the same, leaves the same state and makes the same
    calls, but for the frames the decoder hands out. *)
Theorem Decrypt_ignores_chain_hash fuel s :
  let run := Decrypt lib fuel ctx decoder network decrypter armor s in
  Decrypt lib fuel ctx (rechained f decoder) network' decrypter armor s
  = (fst (fst run), snd (fst run), map (rechained_call f) (snd run)).
Proof.
  intros run. subst run. unfold Decrypt. rewrite Decrypt_loop_rechained.
  destruct (Decrypt_loop lib fuel ctx decoder network decrypter armor
                         false s) as [[r s'] t].
  reflexivity.
Qed.

End Chain_hash.

(** ** Identities of rounds *)

(** X14.  The identities of two distinct rounds are the SHA-256 digests
    of two distinct messages of 8 bytes: they are the same only if SHA-256
    collides on these. *)
Theorem CalculateEncryptionID_distinct_rounds (R R' : uint64) :
  is_uint64 R -> is_uint64 R' -> R <> R' ->
  exists m m' : bytes,
    length m = 8%nat /\ length m' = 8%nat /\ m <> m'
    /\ CalculateEncryptionID R = inl (SHA256.Sum256 m)
    /\ CalculateEncryptionID R' = inl (SHA256.Sum256 m').
Proof.
  intros HR HR' Hne.
  exists (RoundToBytes R), (RoundToBytes R').
  split; [reflexivity|]. split; [reflexivity|]. split; [|split; reflexivity].
  intros E. apply Hne.
  rewrite <- (RoundToBytes_value R HR), <- (RoundToBytes_value R' HR'), E.
  reflexivity.
Qed.

(** ** Encryption for a duration, then decryption *)

Section Roundtrip_duration.

Context {World G1 G2 : Type}.
Variable lib : Library World G1 G2.
Variables (encoder : Encoder World) (decoder : Decoder World)
          (encrypter : Encrypter World) (decrypter : Decrypter World).
Variables (earlier later : Network World G1).
Variables (ctxE ctxD : context_Context) (armor : bool).
Variables (duration : Duration) (R : uint64).

Implicit Types (s : State World) (t : list (Call G1 G2)).

Local Abbreviation unchained :=
  ({| ID := UnchainedSchemeID; DecouplePrevSig := true |}).

(** The network resolves the duration to the round [R] and to the
    identity of that round. *)
Hypothesis EncryptionRoundAndID_earlier :
  forall w R' id w',
    EncryptionRoundAndID earlier ctxE duration w = (inl (R', id), w') ->
    R' = R /\ CalculateEncryptionID R = inl id.

(** The contracts of the codec, of the cipher, of the points, of the
    network at the time of decryption and of identity-based encryption,
    as for [EncryptWithRound]. *)
Variable wire : CipherInfo -> bool -> bytes.
Hypothesis Encode_wire :
  forall o ci a w o' w',
    Encode encoder o ci a w = (None, o', w') ->
    written o' = written o ++ wire ci a.
Hypothesis Decode_wire :
  forall ci a rest w,
    is_uint64 (RoundNumber (CI_MetaData ci)) ->
    exists err w',
      Decode decoder (bytes_Reader (wire ci a ++ rest)) a w
      = (((ci, err), bytes_Reader rest), w')
      /\ (err = None
          \/ (rest = [] /\ errors_Is err EOF = false
              /\ errors_Is err ErrUnexpectedEOF = true)).
Hypothesis Decode_end :
  forall a w,
    exists ci err r' w',
      Decode decoder (bytes_Reader []) a w = (((ci, err), r'), w')
      /\ errors_Is err EOF = true.
Hypothesis Decrypt_Encrypt :
  forall key plainData w cipherData w',
    Encrypt encrypter key plainData w = (inl cipherData, w') ->
    forall w2, exists w2',
      Decrypt_ decrypter key cipherData w2 = (inl plainData, w2').
Hypothesis Unmarshal_Marshal :
  forall (p : G1) b,
    G1_MarshalBinary lib p = inl b -> G1_UnmarshalBinary lib b = inl p.
Variables (pubkey : G1) (signature : bytes) (sigPoint : G2).
Hypothesis PublicKey_earlier :
  forall w p w', PublicKey earlier ctxE w = (inl p, w') -> p = pubkey.
Hypothesis PublicKey_later :
  forall w, exists w', PublicKey later ctxD w = (inl pubkey, w').
Hypothesis ready_later :
  forall w, exists w',
    IsReadyToDecrypt later ctxD R w = ((signature, true), w').
Hypothesis signature_point : G2_UnmarshalBinary lib signature = inl sigPoint.
Hypothesis signature_verifies :
  VerifyBeacon lib unchained
               {| PreviousSig := []; Round := R; Signature := signature |}
               pubkey = None.
Hypothesis ibe_Decrypt_Encrypt :
  forall id msg w c w',
    CalculateEncryptionID R = inl id ->
    ibe_Encrypt lib pubkey id msg w = (inl c, w') ->
    ibe_Decrypt lib pubkey sigPoint c = inl msg.

(** X15.  Let [EncryptWithDuration] return nil on the plaintext [p],
    having written the bytes [c], with a network that resolves the
    duration to the round [R] and its identity; let the collaborators
    keep their contracts and the network later report [R] ready with a
    signature that verifies under the chain public key.  Then
    [Decrypt], given [c] and fuel for one frame more than [p] has
    chunks, returns nil and has written exactly [p]. *)
Theorem Decrypt_EncryptWithDuration fuelE sE sE' tE (p c : bytes) fuelD sD :
  is_uint64 R ->
  input sE = bytes_Reader p ->
  EncryptWithDuration lib fuelE ctxE encoder earlier encrypter duration
                      armor sE
  = (Returned tt, sE', tE) ->
  written (output sE') = written (output sE) ++ c ->
  input sD = bytes_Reader c ->
  failing (output sD) = None ->
  Z.of_nat (length p) / 65536 + 1 < Z.of_nat fuelD ->
  exists sD' tD,
    Decrypt lib fuelD ctxD decoder later decrypter armor sD
    = (Returned tt, sD', tD)
    /\ written (output sD') = written (output sD) ++ p.
Proof.
  intros HuR HinE HE Hc HinD Hout Hfuel.
  pose proof chunkSize_pos as Hpos. pose proof chunkSize_65536 as Hcs.
  destruct (EncryptWithDuration_cases _ _ _ _ _ _ _ _ _ _ _ _ HE)
    as (res & w & Hres & Hcases).
  destruct res as [[R' id]|e]; [|destruct Hcases as (Hf & _); discriminate Hf].
  destruct Hcases as (t' & HE' & _).
  destruct (EncryptionRoundAndID_earlier _ _ _ _ Hres) as (-> & Hid).
  apply encrypt_Returned in HE'
      as (b & pk & ct & kp & s0 & t4 & w1 & w1' & w2 & w2'
          & Hpk & Hibe & Hm & Hi0 & Ho0 & EL & _).
  apply PublicKey_earlier in Hpk as ->.
  cbn [input output set_world] in Hi0, Ho0.
  rewrite <- Hi0 in HinE.
  destruct (encrypt_loop_chunks _ _ _ _ _ _ _ _ _ _ _ HinE EL) as (_ & Hok).
  destruct (Hok eq_refl) as (_ & HF).
  pose proof (encrypt_loop_output _ _ _ _ wire _ _ _ _ _ _ Encode_wire EL)
    as Hw.
  rewrite Ho0, Hc in Hw. apply app_inv_head in Hw. subst c.
  destruct (chunks_of_spec chunkSize p Hpos) as (Hconcat & Hlen & _).
  assert (length (encoded t4) < fuelD)%nat as Hlt.
  { rewrite <- (Forall2_length HF), Hlen.
    rewrite <- Hcs, <- Nat2Z.inj_div in Hfuel.
    assert ((length p + (chunkSize - 1)) / chunkSize
            <= length p / chunkSize + 1)%nat; [|lia].
    replace (length p / chunkSize + 1)%nat
      with ((length p + 1 * chunkSize) / chunkSize)%nat
      by (rewrite Nat.div_add by lia; reflexivity).
    apply Nat.Div0.div_le_mono. lia. }
  match type of HF with
  | Forall2 (frame_of _ _ ?ci) _ _ =>
      destruct (Decrypt_loop_roundtrip
                  lib decoder encrypter decrypter later ctxD armor R wire
                  Decode_wire Decode_end Decrypt_Encrypt Unmarshal_Marshal
                  pubkey signature sigPoint PublicKey_later ready_later
                  signature_point signature_verifies ibe_Decrypt_Encrypt
                  _ ct kp id w2 w2' ci HuR Hid Hibe Hm eq_refl eq_refl
                  _ _ HF fuelD sD Hlt HinD Hout)
        as (sD' & tD & ED & HwD)
  end.
  exists sD', tD. split; [exact ED|].
  rewrite HwD, Hconcat. reflexivity.
Qed.

End Roundtrip_duration.

(** ** The command [tle] *)

Ltac tle_paths E :=
  unfold Tle.main, Tle.run, Tle.run_body, Tle.run_output, Tle.run_network,
    Tle_cmd.main, Tle_cmd.run, Tle_cmd.run_body, Tle_cmd.run_output,
    Tle_cmd.run_network in E;
  repeat (cbn [Cmd.run_deferred] in E;
          unfold Cmd.then_, Cmd.step, Cmd.look, Cmd.unit_ in E;
          cbn beta iota zeta in E;
          destruct_scrutinee E);
  do 3 (cbn [Cmd.run_deferred] in E;
        unfold Cmd.then_, Cmd.step, Cmd.look, Cmd.unit_ in E;
        cbn beta iota zeta in E);
  cbn [app] in E; injection E as <- <- <-.

Ltac find_in := cbn [In]; repeat (first [left; reflexivity | right]).

Section Tle_facts.

Context {World Others File Net Tlock : Type}.
Variable env : Tle.Env World Others File Net Tlock.

Local Abbreviation Event :=
  (Cmd.Event (Tle.Flags Others) File Net Tlock).

(** X16.  [main] closes every file it has opened, once, the file
    opened last first, whatever the command does and however it ends:
    the files are closed after everything else, and before [log.Fatal]
    reports an error and ends the process. *)
Theorem main_closes_what_it_opened (w : World) :
  let t := snd (Tle.main env w) in
  Cmd.closed t = rev (Cmd.opened t)
  /\ (forall pre c post,
         t = pre ++ c :: post -> Cmd.is_Close c = true ->
         forallb (fun c' => Cmd.is_Close c' || Cmd.is_Fatal c') post = true)
  /\ (forall pre c post,
         t = pre ++ c :: post -> Cmd.is_Fatal c = true -> post = []).
Proof.
  destruct (Tle.main env w) as [[status w'] t] eqn:E. cbn [fst snd].
  tle_paths E.
  all: split; [reflexivity|].
  all: split; intros pre c post Ht Hc; split_trace Ht;
    try discriminate Hc; reflexivity.
Qed.

(** The exit status, and what is reported. *)
Lemma main_reports (w : World) :
  let status := fst (fst (Tle.main env w)) in
  let t := snd (Tle.main env w) in
  (status = 0 \/ status = 1)
  /\ (status = 1 <-> exists pre v, t = pre ++ [Cmd.Ev_Fatal v])
  /\ (forall c r,
         In c t -> Cmd.operation_result c = Some r ->
         match r with
         | None => status = 0
         | Some e =>
             status = 1
             /\ exists pre, t = pre ++ [Cmd.Ev_Fatal (Tle.reported env e)]
         end).
Proof.
  destruct (Tle.main env w) as [[status w'] t] eqn:E. cbn [fst snd].
  tle_paths E.
  all: split; [auto|].
  all: split;
    [split;
     [intros Hs; try discriminate Hs;
      first [ eexists [], _; reflexivity
            | eexists [_], _; reflexivity
            | eexists [_; _], _; reflexivity
            | eexists [_; _; _], _; reflexivity
            | eexists [_; _; _; _], _; reflexivity
            | eexists [_; _; _; _; _], _; reflexivity
            | eexists [_; _; _; _; _; _], _; reflexivity
            | eexists [_; _; _; _; _; _; _], _; reflexivity
            | eexists [_; _; _; _; _; _; _; _], _; reflexivity ]
     |intros (pre & v & Ht); try reflexivity; exfalso;
      apply (f_equal (fun l => last l Cmd.Ev_PrintUsage)) in Ht;
      rewrite last_last in Ht; cbn [last] in Ht; discriminate Ht]
    |].
  all: intros c r Hin Hr; in_cases; subst c; cbn in Hr; try discriminate Hr.
  all: injection Hr as <-; try reflexivity.
  all: split; [reflexivity|].
  all: first [ eexists []; reflexivity
             | eexists [_]; reflexivity
             | eexists [_; _]; reflexivity
             | eexists [_; _; _]; reflexivity
             | eexists [_; _; _; _]; reflexivity
             | eexists [_; _; _; _; _]; reflexivity
             | eexists [_; _; _; _; _; _]; reflexivity
             | eexists [_; _; _; _; _; _; _]; reflexivity
             | eexists [_; _; _; _; _; _; _; _]; reflexivity ].
Qed.

(** X17.  The exit status of [main] is 0 or 1, and it is 1 exactly
    when [log.Fatal] is called, as the last thing.  When the operation
    (metadata, decryption or encryption) was run, its result alone
    decides: the status is 0 when it returned nil, whatever closing the
    files returned, and when it returned an error the status is 1 and
    what is reported is made of that error. *)
Theorem main_exit_status (w : World) :
  let status := fst (fst (Tle.main env w)) in
  let t := snd (Tle.main env w) in
  (status = 0 \/ status = 1)
  /\ (status = 1 <-> exists pre v, t = pre ++ [Cmd.Ev_Fatal v])
  /\ (forall c r,
         In c t -> Cmd.operation_result c = Some r ->
         match r with
         | None => status = 0
         | Some e =>
             status = 1
             /\ exists pre, t = pre ++ [Cmd.Ev_Fatal (Tle.reported env e)]
         end).
Proof. apply main_reports. Qed.

(** X18.  [run] runs at most one operation, and runs one whenever the
    network was made: the one the flags choose (metadata before
    decryption, encryption otherwise), on the network made from the flags
    [Network] and [Chain], reading from the file the first argument names
    or from the standard input, writing to the file the flag [Output]
    names or to the standard output; and it returns what the operation
    returned. *)
Theorem run_runs_the_chosen_operation (w : World) :
  let err := fst (fst (Tle.run env w)) in
  let t := snd (Tle.run env w) in
  (length (filter Cmd.is_operation t) <= 1)%nat
  /\ forall flags,
       In (Cmd.Ev_Parse (inl flags)) t ->
       forall h c network,
         In (Cmd.Ev_NewNetwork h c (inl network)) t ->
         h = Tle.Network flags /\ c = Tle.Chain flags
         /\ exists dst src,
             In (Tle.chosen env flags network dst src err) t
             /\ Cmd.is_source Tle.perm_0600 t src
             /\ Cmd.is_destination
                  (Tle.Output flags)
                  (Z.lor (Z.lor Cmd.O_CREATE Cmd.O_RDWR) Cmd.O_TRUNC)
                  Tle.perm_0600 t dst.
Proof.
  destruct (Tle.run env w) as [[err w'] t] eqn:E. cbn [fst snd].
  tle_paths E.
  all: split; [cbn; lia|].
  all: intros flags Hp h c network Hn; in_cases.
  all: repeat match goal with
              | H : Cmd.Ev_Parse _ = Cmd.Ev_Parse _ |- _ =>
                  injection H as <-
              | H : Cmd.Ev_NewNetwork _ _ _ = Cmd.Ev_NewNetwork _ _ _ |- _ =>
                  injection H as <- <- <-
              end.
  all: split; [reflexivity|]; split; [reflexivity|].
  all: unfold Tle.chosen, Cmd.is_source, Cmd.is_destination.
  all: repeat match goal with
              | H : Tle.Metadata _ = _ |- _ => rewrite H; clear H
              | H : Tle.Decrypt _ = _ |- _ => rewrite H; clear H
              end.
  all: eexists _, _; split; [find_in|].
  all: split; [eexists; split; [find_in|]|]; cbn beta iota.
  all: try (split; [assumption | find_in]); try assumption.
  all: first [ instantiate (1 := Cmd.Source_file _); cbn beta iota;
               split; [assumption | find_in]
             | instantiate (1 := Cmd.Stdin); cbn beta iota; assumption ].
Qed.

(** X19.  [run] opens the files before it makes the network.  When a
    file cannot be opened nothing more is done but closing the file
    opened before, and the error returned is a new one that wraps
    nothing; when it is the input that cannot be opened, no file has
    been opened at all, the output in particular is not touched.  When
    the network is made, the flags are parsed and the output file, if
    there is to be one, is already opened, with the flags that create
    and truncate it; if making the network fails, its error is returned
    as it is and the files are closed. *)
Theorem run_opens_files_first (w : World) :
  let err := fst (fst (Tle.run env w)) in
  let t := snd (Tle.run env w) in
  (forall pre name flag perm e post,
      t = pre ++ Cmd.Ev_OpenFile name flag perm (inr e) :: post ->
      forallb Cmd.is_Close post = true
      /\ (exists msg, err = Some (errors_New msg))
      /\ (flag = Cmd.O_RDONLY -> Cmd.opened t = []))
  /\ (forall pre h c r post,
         t = pre ++ Cmd.Ev_NewNetwork h c r :: post ->
         exists flags,
           In (Cmd.Ev_Parse (inl flags)) pre
           /\ h = Tle.Network flags /\ c = Tle.Chain flags
           /\ (Cmd.names_a_file (Tle.Output flags) = true ->
               exists f,
                 In (Cmd.Ev_OpenFile
                       (Tle.Output flags)
                       (Z.lor (Z.lor Cmd.O_CREATE Cmd.O_RDWR) Cmd.O_TRUNC)
                       Tle.perm_0600 (inl f)) pre)
           /\ (forall e, r = inr e ->
                         err = Some e
                         /\ forallb Cmd.is_Close post = true)).
Proof.
  destruct (Tle.run env w) as [[err w'] t] eqn:E. cbn [fst snd].
  tle_paths E.
  all: split;
    [intros pre name flag perm e' post Ht; split_trace Ht;
     (split; [reflexivity|]);
     (split; [eexists; reflexivity|]);
     intros Hf; first [reflexivity | discriminate Hf]
    |intros pre h c r post Ht; split_trace Ht].
  all: eexists; (split; [find_in|]); (split; [reflexivity|]);
    (split; [reflexivity|]).
  all: split;
    [intros Hout; try congruence; eexists; find_in
    |intros e' He; try discriminate He; injection He as <-;
     split; reflexivity].
Qed.

End Tle_facts.

(** ** The command in the version of [cmd/tle.go] *)

Ltac ends_with_last :=
  first [ eexists []; reflexivity
        | eexists [_]; reflexivity
        | eexists [_; _]; reflexivity
        | eexists [_; _; _]; reflexivity
        | eexists [_; _; _; _]; reflexivity
        | eexists [_; _; _; _; _]; reflexivity
        | eexists [_; _; _; _; _; _]; reflexivity
        | eexists [_; _; _; _; _; _; _]; reflexivity
        | eexists [_; _; _; _; _; _; _; _]; reflexivity ].

Section Tle_cmd_facts.

Context {World Others File Net Decrypter : Type}.
Variable env : Tle_cmd.Env World Others File Net Decrypter.

(** X21.  [main] of [cmd/tle.go] closes every file it has opened, once,
    the file opened last first, after everything else and before
    [log.Fatal] ends the process.  When the operation was run its result
    alone decides how the process ends: with status 0 when it returned
    nil, whatever closing the files returned, and else with status 1
    after handing the error of the operation, as it is, to
    [log.Fatal]. *)
Theorem cmd_main_closes_and_reports (w : World) :
  let status := fst (fst (Tle_cmd.main env w)) in
  let t := snd (Tle_cmd.main env w) in
  Cmd.closed t = rev (Cmd.opened t)
  /\ (forall pre c post,
         t = pre ++ c :: post -> Cmd.is_Close c = true ->
         forallb (fun c' => Cmd.is_Close c' || Cmd.is_Fatal c') post = true)
  /\ (forall pre c post,
         t = pre ++ c :: post -> Cmd.is_Fatal c = true -> post = [])
  /\ (forall c r,
         In c t -> Cmd.operation_result c = Some r ->
         match r with
         | None => status = 0
         | Some e =>
             status = 1 /\ exists pre, t = pre ++ [Cmd.Ev_Fatal (Some e)]
         end).
Proof.
  destruct (Tle_cmd.main env w) as [[status w'] t] eqn:E. cbn [fst snd].
  tle_paths E.
  all: split; [reflexivity|].
  all: split; [intros pre c post Ht Hc; split_trace Ht;
               try discriminate Hc; reflexivity|].
  all: split; [intros pre c post Ht Hc; split_trace Ht;
               try discriminate Hc; reflexivity|].
  all: intros c r Hin Hr; in_cases; subst c; cbn in Hr; try discriminate Hr.
  all: injection Hr as <-; try reflexivity.
  all: split; [reflexivity | ends_with_last].
Qed.

(** X22.  [run] of [cmd/tle.go] opens the files, makes the network from
    the flags [Network] and [Chain], which cannot fail there, and runs
    one operation: decryption when the flag [Decrypt] is set, encryption
    otherwise, reading from the file the first argument names or from
    the standard input, writing to the file the flag [Output] names or
    to the standard output; it returns what the operation returned.  No
    file is opened with the flag [O_TRUNC]. *)
Theorem cmd_run_runs_the_chosen_operation (w : World) :
  let err := fst (fst (Tle_cmd.run env w)) in
  let t := snd (Tle_cmd.run env w) in
  (length (filter Cmd.is_operation t) <= 1)%nat
  /\ (forall flags,
         In (Cmd.Ev_Parse (inl flags)) t ->
         forall h c r,
           In (Cmd.Ev_NewNetwork h c r) t ->
           h = Tle_cmd.Network flags /\ c = Tle_cmd.Chain flags
           /\ exists network dst src,
               r = inl network
               /\ In (Tle_cmd.chosen env flags network dst src err) t
               /\ Cmd.is_source Tle_cmd.perm_0644 t src
               /\ Cmd.is_destination
                    (Tle_cmd.Output flags) (Z.lor Cmd.O_CREATE Cmd.O_RDWR)
                    Tle_cmd.perm_0644 t dst)
  /\ (forall name flag perm r,
         In (Cmd.Ev_OpenFile name flag perm r) t ->
         Z.land flag Cmd.O_TRUNC = 0).
Proof.
  destruct (Tle_cmd.run env w) as [[err w'] t] eqn:E. cbn [fst snd].
  tle_paths E.
  all: split; [cbn; lia|].
  all: split;
    [|intros name flag perm r Hin; in_cases;
      match goal with
      | H : Cmd.Ev_OpenFile _ _ _ _ = Cmd.Ev_OpenFile _ _ _ _ |- _ =>
          injection H as _ <- _ _
      end; reflexivity].
  all: intros flags Hp h c r Hn; in_cases.
  all: repeat match goal with
              | H : Cmd.Ev_Parse _ = Cmd.Ev_Parse _ |- _ =>
                  injection H as <-
              | H : Cmd.Ev_NewNetwork _ _ _ = Cmd.Ev_NewNetwork _ _ _ |- _ =>
                  injection H as <- <- <-
              end.
  all: split; [reflexivity|]; split; [reflexivity|].
  all: unfold Tle_cmd.chosen, Cmd.is_source, Cmd.is_destination.
  all: repeat match goal with
              | H : Tle_cmd.Decrypt _ = _ |- _ => rewrite H; clear H
              end.
  all: eexists _, _, _; split; [reflexivity|]; split; [find_in|].
  all: split; [eexists; split; [find_in|]|]; cbn beta iota.
  all: try (split; [assumption | find_in]); try assumption.
Qed.

End Tle_cmd_facts.

(** ** Decryption that comes too early, seen from the command *)

Section Too_early.

Context {World G1 G2 : Type}.
Variable lib : Library World G1 G2.
Variables (ctx : context_Context) (decoder : Decoder World)
          (network : Network World G1) (decrypter : Decrypter World)
          (armor : bool).

(** X20.  The error [Decrypt] returns when the network reports a round
    not ready is the one [main] looks for: whenever the operation of the
    command returns that error, [main] takes off the one message put in
    front of [ErrTooEarly], hands [ErrTooEarly] itself to [log.Fatal],
    whose text is "too early to decrypt", and ends with status 1. *)
Theorem too_early_is_reported fuel s r s' t ctx' R id :
  Decrypt lib fuel ctx decoder network decrypter armor s = (r, s', t) ->
  In (Call_IsReadyToDecrypt ctx' R id false) t ->
  exists e,
    r = Failed e
    /\ err_Error ErrTooEarly = "too early to decrypt"%string
    /\ forall (PWorld Others File Net Tlock : Type)
              (env : Tle.Env PWorld Others File Net Tlock) (w : PWorld) c,
        In c (snd (Tle.main env w)) ->
        Cmd.operation_result c = Some (Some e) ->
        fst (fst (Tle.main env w)) = 1
        /\ exists pre,
            snd (Tle.main env w) = pre ++ [Cmd.Ev_Fatal (Some ErrTooEarly)].
Proof.
  intros H Hin. apply in_split in Hin as (pre & post & Ht).
  destruct (Decrypt_not_ready _ _ _ _ _ _ _ _ _ _ _ _ _ _ _ _ H Ht)
    as (-> & _).
  eexists. split; [reflexivity|]. split; [reflexivity|].
  intros PWorld Others File Net Tlock env w c Hc Hr.
  destruct (main_reports env w) as (_ & _ & Hop).
  exact (Hop _ _ Hc Hr).
Qed.

End Too_early.

(** ** The further theorems on runs of the small instance *)

Ltac in_list := vm_compute; repeat (first [left; reflexivity | right]).

Lemma encrypt_frames_carry_wrapped_key_witness :
  false = false
  /\ RoundNumber (CI_MetaData Toy.hello_frame) = 1
  /\ (exists w, ChainHash (CI_MetaData Toy.hello_frame)
                = net_ChainHash (Toy.network 0) w)
  /\ exists b master c kp t4,
      snd Toy.sealing
      = [ Call_rand_Read 32 (inl b);
          Call_PublicKey Toy.background (inl master);
          Call_ibe_Encrypt master Toy.identity_1 (fill (make 32) b) (inl c);
          Call_G1_MarshalBinary (U c) (inl kp) ] ++ t4
      /\ (length b = 32%nat -> fill (make 32) b = b)
      /\ CI_CipherDEK Toy.hello_frame
         = {| KyberPoint := kp; CipherV := V c; CipherW := W c |}.
Proof.
  apply (encrypt_frames_carry_wrapped_key
           Toy.lib Toy.background Toy.encoder (Toy.network 0) Toy.encrypter
           false 5 1 Toy.identity_1 (Toy.start Toy.hello)
           (fst (fst Toy.sealing)) (snd (fst Toy.sealing)) (snd Toy.sealing)
           ltac:(by_running) Toy.hello_frame false None).
  in_list.
Defined.

Lemma EncryptWithRound_identity_witness :
  (forall e, fst (fst Runs.sealing_round)
             <> Failed (Errorf "round by number" e))
  /\ (filter is_network_call (snd Runs.sealing_round) = []
      \/ exists rp, filter is_network_call (snd Runs.sealing_round)
                    = [Call_PublicKey Toy.background rp])
  /\ (forall master id msg rc,
         In (Call_ibe_Encrypt master id msg rc) (snd Runs.sealing_round) ->
         id = SHA256.Sum256 (RoundToBytes 1)
         /\ length id = 32%nat
         /\ In (Call_PublicKey Toy.background (inl master))
               (snd Runs.sealing_round))
  /\ (forall ci a e,
         In (Call_Encode ci a e) (snd Runs.sealing_round) ->
         RoundNumber (CI_MetaData ci) = 1).
Proof.
  apply (EncryptWithRound_identity
           Toy.lib Toy.background Toy.encoder (Toy.network 0) Toy.encrypter
           false 5 1 (Toy.start Toy.hello)
           (fst (fst Runs.sealing_round)) (snd (fst Runs.sealing_round))
           (snd Runs.sealing_round)).
  by_running.
Defined.

Lemma EncryptWithDuration_round_and_identity_witness :
  exists res t',
    snd Runs.sealing_duration
    = Call_EncryptionRoundAndID Toy.background 1 res :: t'
    /\ (filter is_network_call t' = []
        \/ exists rp, filter is_network_call t'
                      = [Call_PublicKey Toy.background rp])
    /\ match res with
       | inr e =>
           t' = []
           /\ fst (fst Runs.sealing_duration)
              = Failed (Errorf "round by duration" e)
       | inl (roundNumber, id) =>
           (forall master id' msg rc,
               In (Call_ibe_Encrypt master id' msg rc) t' ->
               id' = id /\ In (Call_PublicKey Toy.background (inl master)) t')
           /\ (forall ci a e,
                  In (Call_Encode ci a e) t' ->
                  RoundNumber (CI_MetaData ci) = roundNumber)
       end.
Proof.
  apply (EncryptWithDuration_round_and_identity
           Toy.lib Toy.background Toy.encoder (Toy.network 0) Toy.encrypter
           false 5 1 (Toy.start Toy.hello)
           (fst (fst Runs.sealing_duration)) (snd (fst Runs.sealing_duration))
           (snd Runs.sealing_duration)).
  by_running.
Defined.

(** The encoder fails on the first frame: the session ends there, with
    its error. *)
Example full_destination_ends_encryption :
  fst (fst Runs.sealing_full)
  = Failed (Errorf "encode" (errors_New "no space left on device"))
  /\ length (snd Runs.sealing_full) = 7%nat
  /\ count is_Encode (snd Runs.sealing_full) = 1%nat.
Proof. by_running. Qed.

Lemma encryption_fails_fast_witness :
  fails_fast encrypt_failure
             (fst (fst Runs.sealing_full)) (snd Runs.sealing_full).
Proof.
  apply (encryption_fails_fast
           Toy.lib Toy.background Runs.full_encoder (Toy.network 0)
           Toy.encrypter false 5 1 0 (Toy.start Toy.hello)
           (fst (fst Runs.sealing_full)) (snd (fst Runs.sealing_full))
           (snd Runs.sealing_full)).
  left. by_running.
Defined.

Lemma encrypt_reads_whole_input_witness :
  let L := Z.of_nat (length (pending (input (Toy.start Toy.hello)))) in
  Z.of_nat (count is_ReadFull (snd Toy.sealing)) <= L / 65536 + 1
  /\ (L / 65536 < Z.of_nat 5 -> fst (fst Toy.sealing) <> OutOfFuel)
  /\ (fst (fst Toy.sealing) = Returned tt ->
      pending (input (snd (fst Toy.sealing))) = []
      /\ Z.of_nat (count is_ReadFull (snd Toy.sealing)) = L / 65536 + 1).
Proof.
  apply (encrypt_reads_whole_input
           Toy.lib Toy.background Toy.encoder (Toy.network 0) Toy.encrypter
           1 Toy.identity_1 false 5 (Toy.start Toy.hello)
           (fst (fst Toy.sealing)) (snd (fst Toy.sealing)) (snd Toy.sealing)).
  by_running.
Defined.

Lemma encrypt_encrypts_a_prefix_witness :
  (exists rest,
      pending (input (Toy.start Toy.hello))
      = concat (encrypted (snd Toy.sealing)) ++ rest
      /\ (fst (fst Toy.sealing) = Returned tt ->
          ending (input (Toy.start Toy.hello)) = EOF -> rest = []))
  /\ (forall init lst,
         encrypted (snd Toy.sealing) = init ++ [lst] ->
         Forall (fun c => Z.of_nat (length c) = 65536) init)
  /\ (length (encoded (snd Toy.sealing))
      <= length (encrypted (snd Toy.sealing))
      <= length (encoded (snd Toy.sealing)) + 1)%nat
  /\ (fst (fst Toy.sealing) = Returned tt ->
      length (encoded (snd Toy.sealing))
      = length (encrypted (snd Toy.sealing))).
Proof.
  apply (encrypt_encrypts_a_prefix
           Toy.lib Toy.background Toy.encoder (Toy.network 0) Toy.encrypter
           1 Toy.identity_1 false 5 (Toy.start Toy.hello)
           (fst (fst Toy.sealing)) (snd (fst Toy.sealing)) (snd Toy.sealing)).
  by_running.
Defined.

(** The source delivers "hello" and then fails with an error that wraps
    [EOF]: the session returns nil and has encrypted nothing. *)
Example wrapped_EOF_ends_encryption :
  fst (fst Runs.sealing_ends_wrapped) = Returned tt
  /\ skipn 4 (snd Runs.sealing_ends_wrapped)
     = [Call_ReadFull Toy.hello (Some (Errorf "read" EOF))]
  /\ written (output (snd (fst Runs.sealing_ends_wrapped))) = [].
Proof. by_running. Qed.

Lemma encrypt_end_of_input_witness :
  (errors_Is' (Errorf "read" EOF) EOF = true ->
   @nil (Call Toy.G1 Toy.G2) = []
   /\ fst (fst Runs.sealing_ends_wrapped) = Returned tt
   /\ (ending (input (Runs.ends_wrapped Toy.hello)) = EOF -> Toy.hello = []))
  /\ (errors_Is' (Errorf "read" EOF) EOF = false ->
      errors_Is' (Errorf "read" EOF) ErrUnexpectedEOF = true ->
      (exists key e',
          @nil (Call Toy.G1 Toy.G2) = [Call_Encrypt key Toy.hello (inr e')]
          /\ fst (fst Runs.sealing_ends_wrapped)
             = Failed (Errorf "encrypt data" e'))
      \/ (exists key ci res,
             @nil (Call Toy.G1 Toy.G2)
             = [Call_Encrypt key Toy.hello (inl (CipherData ci));
                Call_Encode ci false res]
             /\ match res with
                | None => fst (fst Runs.sealing_ends_wrapped) = Returned tt
                | Some e' =>
                    fst (fst Runs.sealing_ends_wrapped)
                    = Failed (Errorf "encode" e')
                end)).
Proof.
  apply (encrypt_end_of_input
           Toy.lib Toy.background Toy.encoder (Toy.network 0) Toy.encrypter
           1 Toy.identity_1 false 5 (Runs.ends_wrapped Toy.hello)
           (fst (fst Runs.sealing_ends_wrapped))
           (snd (fst Runs.sealing_ends_wrapped))
           (snd Runs.sealing_ends_wrapped)
           (firstn 4 (snd Runs.sealing_ends_wrapped))
           Toy.hello (Errorf "read" EOF) []).
  - by_running.
  - by_running.
Defined.

Lemma Decrypt_fails_fast_witness :
  fails_fast Decrypt_failure
             (fst (fst Toy.opening_confused)) (snd Toy.opening_confused).
Proof.
  apply (Decrypt_fails_fast
           Toy.lib Toy.background Toy.decoder (Toy.confused_network 5)
           Toy.decrypter false 5 (Toy.start Toy.ciphertext)
           (fst (fst Toy.opening_confused)) (snd (fst Toy.opening_confused))
           (snd Toy.opening_confused)).
  by_running.
Defined.

Lemma Decrypt_steps_in_order_witness :
  exists h c',
    firstn 4 (snd (Toy.opening Toy.background 1)) = h ++ [c']
    /\ stage c' = Some 3%nat /\ went_well c' = true.
Proof.
  apply (Decrypt_steps_in_order
           Toy.lib Toy.background Toy.decoder (Toy.network 1) Toy.decrypter
           false 5 (Toy.start Toy.ciphertext)
           (fst (fst (Toy.opening Toy.background 1)))
           (snd (fst (Toy.opening Toy.background 1)))
           (snd (Toy.opening Toy.background 1))
           (firstn 4 (snd (Toy.opening Toy.background 1)))
           (Call_PublicKey Toy.background (inl Toy.chain_key))
           (skipn 5 (snd (Toy.opening Toy.background 1)))).
  - by_running.
  - by_running.
Defined.

Lemma Decrypt_writes_decrypted_witness :
  exists h info master sig c key,
    firstn 8 (snd (Toy.opening Toy.background 1))
    = h ++ [Call_ibe_Decrypt master sig c (inl key);
            Call_Decrypt key (CipherData info) (inl Toy.hello)]
    /\ last_decoded h = Some info
    /\ V c = CipherV (CI_CipherDEK info)
    /\ W c = CipherW (CI_CipherDEK info)
    /\ G1_UnmarshalBinary Toy.lib (KyberPoint (CI_CipherDEK info))
       = inl (U c).
Proof.
  apply (Decrypt_writes_decrypted
           Toy.lib Toy.background Toy.decoder (Toy.network 1) Toy.decrypter
           false 5 (Toy.start Toy.ciphertext)
           (fst (fst (Toy.opening Toy.background 1)))
           (snd (fst (Toy.opening Toy.background 1)))
           (snd (Toy.opening Toy.background 1))
           (firstn 8 (snd (Toy.opening Toy.background 1)))
           Toy.hello None
           (skipn 9 (snd (Toy.opening Toy.background 1)))).
  - by_running.
  - by_running.
Defined.

(** Two frames of round 1, opened at round 1: "hello" twice, the network
    asked twice for the round and twice for the key. *)
Example two_frames_opened :
  fst (fst Runs.opening_two) = Returned tt
  /\ written (output (snd (fst Runs.opening_two))) = Toy.hello ++ Toy.hello
  /\ count is_frame (snd Runs.opening_two) = 2%nat
  /\ count is_IsReadyToDecrypt (snd Runs.opening_two) = 2%nat
  /\ count is_PublicKey (snd Runs.opening_two) = 2%nat.
Proof. by_running. Qed.

Lemma Decrypt_output_so_far_witness :
  written (output (snd (fst Runs.opening_two)))
  = written (output (Toy.start Runs.two_frames))
    ++ concat (decrypted (snd Runs.opening_two))
  /\ failing (output (snd (fst Runs.opening_two))) = None.
Proof.
  apply (Decrypt_output_so_far
           Toy.lib Toy.background Toy.decoder (Toy.network 1) Toy.decrypter
           false 5 (Toy.start Runs.two_frames)
           (fst (fst Runs.opening_two)) (snd (fst Runs.opening_two))
           (snd Runs.opening_two)).
  - by_running.
  - reflexivity.
Defined.

Lemma Decrypt_asks_for_every_frame_witness :
  count is_IsReadyToDecrypt (snd Runs.opening_two)
  = count is_frame (snd Runs.opening_two)
  /\ (count is_Write (snd Runs.opening_two)
      <= count is_Decrypt (snd Runs.opening_two)
      <= count is_ibe_Decrypt (snd Runs.opening_two))%nat
  /\ (count is_ibe_Decrypt (snd Runs.opening_two)
      <= count is_VerifyBeacon (snd Runs.opening_two)
      <= count is_PublicKey (snd Runs.opening_two))%nat
  /\ (count is_PublicKey (snd Runs.opening_two)
      <= count is_frame (snd Runs.opening_two))%nat
  /\ (fst (fst Runs.opening_two) = Returned tt ->
      count is_Write (snd Runs.opening_two)
      = count is_frame (snd Runs.opening_two)).
Proof.
  apply (Decrypt_asks_for_every_frame
           Toy.lib Toy.background Toy.decoder (Toy.network 1) Toy.decrypter
           false 5 (Toy.start Runs.two_frames)
           (fst (fst Runs.opening_two)) (snd (fst Runs.opening_two))
           (snd Runs.opening_two)).
  by_running.
Defined.

Lemma Decrypt_ignores_chain_hash_witness :
  let run := Toy.opening Toy.background 1 in
  Decrypt Toy.lib 5 Toy.background
          (rechained Runs.other_chain Toy.decoder) Runs.other_network
          Toy.decrypter false (Toy.start Toy.ciphertext)
  = (fst (fst run), snd (fst run),
     map (rechained_call Runs.other_chain) (snd run)).
Proof.
  apply (Decrypt_ignores_chain_hash
           Toy.lib Toy.background Toy.decoder (Toy.network 1)
           Runs.other_network Toy.decrypter false Runs.other_chain
           eq_refl eq_refl 5 (Toy.start Toy.ciphertext)).
Defined.

Lemma CalculateEncryptionID_distinct_rounds_witness :
  exists m m' : bytes,
    length m = 8%nat /\ length m' = 8%nat /\ m <> m'
    /\ CalculateEncryptionID 1 = inl (SHA256.Sum256 m)
    /\ CalculateEncryptionID 2 = inl (SHA256.Sum256 m').
Proof.
  apply (CalculateEncryptionID_distinct_rounds 1 2).
  - unfold is_uint64. lia.
  - unfold is_uint64. lia.
  - discriminate.
Defined.

Lemma Toy_EncryptionRoundAndID (w : Toy.World) R' id w' :
  EncryptionRoundAndID (Toy.network 0) Toy.background 1 w
  = (inl (R', id), w') ->
  R' = 1 /\ CalculateEncryptionID 1 = inl id.
Proof. cbn. intros H. injection H as <- <- _. auto. Qed.

Lemma Decrypt_EncryptWithDuration_witness :
  exists sD' tD,
    Decrypt Toy.lib 5 Toy.background Toy.decoder (Toy.network 1)
            Toy.decrypter false (Toy.start Runs.ciphertext_duration)
    = (Returned tt, sD', tD)
    /\ written (output sD')
       = written (output (Toy.start Runs.ciphertext_duration)) ++ Toy.hello.
Proof.
  apply (Decrypt_EncryptWithDuration
           Toy.lib Toy.encoder Toy.decoder Toy.encrypter Toy.decrypter
           (Toy.network 0) (Toy.network 1) Toy.background Toy.background
           false 1 1 Toy_EncryptionRoundAndID Toy.wire
           Toy_Encode_wire Toy_Decode_wire Toy_Decode_end Toy_Decrypt_Encrypt
           Toy_Unmarshal_Marshal
           Toy.chain_key Toy.signature_1 Toy.signature_1
           (Toy_PublicKey_background 0) (Toy_PublicKey_later 1)
           Toy_ready_later
           ltac:(by_running) ltac:(by_running)
           Toy_ibe_Decrypt_Encrypt
           5 (Toy.start Toy.hello)
           (snd (fst Runs.sealing_duration)) (snd Runs.sealing_duration)
           Toy.hello Runs.ciphertext_duration 5
           (Toy.start Runs.ciphertext_duration)).
  - unfold is_uint64. lia.
  - reflexivity.
  - by_running.
  - by_running.
  - reflexivity.
  - reflexivity.
  - by_running.
Defined.

(** The command run as [tle -d -o out in] on a ciphertext that cannot be
    opened yet: both files are opened, the network is made, decryption
    fails, both files are closed, the output first, and [ErrTooEarly] is
    reported; that closing fails changes nothing. *)
Example tle_too_early :
  Tle.main Tle_run.env O
  = ((1, 8%nat),
     [ Cmd.Ev_Parse (inl Tle_run.flags);
       Cmd.Ev_Arg 0 "in";
       Cmd.Ev_OpenFile "in" 0 384 (inl "in"%string);
       Cmd.Ev_OpenFile "out" 578 384 (inl "out"%string);
       Cmd.Ev_NewNetwork "https://drand.example" "toy-chain"
                         (inl "https://drand.example"%string);
       Cmd.Ev_Decrypt "https://drand.example"%string
                      (Cmd.Destination_file "out"%string)
                      (Cmd.Source_file "in"%string)
                      (Some (Errorf "decrypt dek" ErrTooEarly));
       Cmd.Ev_Close "out"%string (Some (errors_New "file already closed"));
       Cmd.Ev_Close "in"%string (Some (errors_New "file already closed"));
       Cmd.Ev_Fatal (Some ErrTooEarly) ]).
Proof. vm_compute. reflexivity. Qed.

Lemma too_early_is_reported_witness :
  exists e,
    fst (fst (Toy.opening Toy.background 0)) = Failed e
    /\ err_Error ErrTooEarly = "too early to decrypt"%string
    /\ forall (PWorld Others File Net Tlock : Type)
              (env : Tle.Env PWorld Others File Net Tlock) (w : PWorld) c,
        In c (snd (Tle.main env w)) ->
        Cmd.operation_result c = Some (Some e) ->
        fst (fst (Tle.main env w)) = 1
        /\ exists pre,
            snd (Tle.main env w) = pre ++ [Cmd.Ev_Fatal (Some ErrTooEarly)].
Proof.
  apply (too_early_is_reported
           Toy.lib Toy.background Toy.decoder (Toy.network 0) Toy.decrypter
           false 5 (Toy.start Toy.ciphertext)
           (fst (fst (Toy.opening Toy.background 0)))
           (snd (fst (Toy.opening Toy.background 0)))
           (snd (Toy.opening Toy.background 0))
           Toy.background 1 []).
  - by_running.
  - in_list.
Defined.
